(** * CPU scheduling simulators of [main.go]: a shallow embedding

    The Go program simulates four scheduling disciplines over a slice of
    [Process] records: [FCFSSchedule], [SJFSchedule], [SJFPrioritySchedule]
    and [RRSchedule], and loads the records with [loadProcesses].

    Conventions of the embedding:
    - an [int64] is a [Z] and every arithmetic operation of the source is
      written with its two's complement wrap-around ([add64], [sub64]);
    - a Go slice is a [list]; [s[i].f = v] is [alter] at index [i], a read
      [s[i]] is the total lookup [s !!! i] (every index the simulators use is
      below [len(processes)], the length of each slice they allocate);
    - a [while]-style [for] loop is a fuelled iteration of its body, one unit
      of fuel per iteration, ending in [OutOfFuel] when the fuel is spent;
    - a table row, a slice of seven strings printed with [fmt.Sprint], is the
      record [Row] of the seven integers printed;
    - the [float64] footer values (averages, throughput) are not computed:
      the integer operands of the divisions are kept instead;
    - the definitions named after the schedulers give what each computes and
      hands to the output helpers; [FCFSSchedule_call] and its likes add the
      closing calls of [outputTitle] and [outputGantt], and [runSchedulers]
      chains them as [main] does. *)

From Stdlib Require Import ZArith Lia Permutation Sorted Ascii.
From stdpp Require Import base tactics option list numbers strings sorting.

Local Open Scope Z_scope.

(** ** 64-bit integers *)

Definition MaxInt64 : Z := Eval cbv in 2 ^ 63 - 1.
Definition MinInt64 : Z := Eval cbv in - 2 ^ 63.
Definition modulus64 : Z := Eval cbv in 2 ^ 64.

(** The representative in [MinInt64 .. MaxInt64] of an integer modulo 2^64. *)
Definition wrap64 (z : Z) : Z := (z - MinInt64) mod modulus64 + MinInt64.

Definition add64 (a b : Z) : Z := wrap64 (a + b).
Definition sub64 (a b : Z) : Z := wrap64 (a - b).

Definition in_int64 (z : Z) : Prop := MinInt64 <= z <= MaxInt64.

(** ** Data model *)

Record Process := mkProcess {
  ProcessID : Z;
  ArrivalTime : Z;
  BurstDuration : Z;
  Priority : Z
}.

Record TimeSlice := mkTimeSlice {
  PID : Z;
  Start : Z;
  Stop : Z
}.

(** [ProcessStatus]; its [ProcessID] field is named [StatusID] here. *)
Record ProcessStatus := mkProcessStatus {
  StatusID : Z;
  StartTime : Z;
  EndTime : Z
}.

(** One line of the schedule table, in the order of its header:
    ID, Priority, Burst, Arrival, Wait, Turnaround, Exit. *)
Record Row := mkRow {
  rowID : Z;
  rowPriority : Z;
  rowBurst : Z;
  rowArrival : Z;
  rowWait : Z;
  rowTurnaround : Z;
  rowExit : Z
}.

(** Go's zero values, what [make] fills a fresh slice with. *)
Definition zeroProcess : Process := mkProcess 0 0 0 0.
Definition zeroStatus : ProcessStatus := mkProcessStatus 0 0 0.

#[export] Instance Process_inhabited : Inhabited Process := populate zeroProcess.
#[export] Instance ProcessStatus_inhabited : Inhabited ProcessStatus :=
  populate zeroStatus.

Definition wf_process (p : Process) : Prop :=
  in_int64 (ProcessID p) /\ in_int64 (ArrivalTime p) /\
  in_int64 (BurstDuration p) /\ in_int64 (Priority p).

(** Field updates. *)
Definition setBurstDuration (b : Z) (p : Process) : Process :=
  mkProcess (ProcessID p) (ArrivalTime p) b (Priority p).
Definition setPriority (v : Z) (p : Process) : Process :=
  mkProcess (ProcessID p) (ArrivalTime p) (BurstDuration p) v.
(** [p.BurstDuration--] *)
Definition decrement (p : Process) : Process :=
  setBurstDuration (sub64 (BurstDuration p) 1) p.
Definition setStatusID (v : Z) (s : ProcessStatus) : ProcessStatus :=
  mkProcessStatus v (StartTime s) (EndTime s).
Definition setStartTime (v : Z) (s : ProcessStatus) : ProcessStatus :=
  mkProcessStatus (StatusID s) v (EndTime s).
Definition setEndTime (v : Z) (s : ProcessStatus) : ProcessStatus :=
  mkProcessStatus (StatusID s) (StartTime s) v.

(** Result of a fuelled loop. [Panic] is a Go run-time panic. *)
Inductive outcome (A : Type) : Type :=
  | Done (a : A)
  | Panic
  | OutOfFuel.
Arguments Done {A} a.
Arguments Panic {A}.
Arguments OutOfFuel {A}.

Definition outcome_map {A B : Type} (f : A -> B) (o : outcome A) : outcome B :=
  match o with
  | Done a => Done (f a)
  | Panic => Panic
  | OutOfFuel => OutOfFuel
  end.

(** ** [sort.Slice] by arrival time

    [sort.Slice(s, less)] permutes [s] in place and sees its elements only
    through [less(i, j)], here [s[i].ArrivalTime < s[j].ArrivalTime].  The
    permutation it applies is therefore a function of the arrival times
    alone.  The library routine is not part of the program: a [Sorter] is any
    such function that yields a permutation ordering the keys, and the
    simulators are parametrised by it.  [sort.Slice] is not stable, so the
    order of equal keys is left to the [Sorter]. *)

Record Sorter := mkSorter {
  sort_perm : list Z -> list nat;
  sort_perm_Permutation :
    forall ks : list Z, Permutation (sort_perm ks) (seq 0 (length ks));
  sort_perm_Sorted :
    forall ks : list Z, Sorted Z.le ((fun i => nth i ks 0) <$> sort_perm ks)
}.

Definition sortSlice (S : Sorter) (ps : list Process) : list Process :=
  (fun i => nth i ps zeroProcess) <$> sort_perm S (ArrivalTime <$> ps).

(** Straight insertion sort, the routine [sort.Slice] runs on short slices:
    [for i := a+1; i < b; i++ { for j := i; j > a && less(j, j-1); j-- { swap(j, j-1) } }].
    The entering element walks left past every strictly greater key; the
    prefix on its left is sorted, so it stops just before the first strictly
    greater key.  Keys travel with the index they came from. *)
Fixpoint insert_key (x : Z * nat) (l : list (Z * nat)) : list (Z * nat) :=
  match l with
  | [] => [x]
  | y :: l' => if decide (x.1 < y.1) then x :: l else y :: insert_key x l'
  end.

Definition insertion_sort (l : list (Z * nat)) : list (Z * nat) :=
  foldl (fun acc x => insert_key x acc) [] l.

Definition insertion_perm (ks : list Z) : list nat :=
  snd <$> insertion_sort (zip ks (seq 0 (length ks))).

(** ** First-come, first-serve *)

Module FCFS.

(** Loop variables of [FCFSSchedule].  [totalWait] and [totalTurnaround]
    are [float64] accumulators used by the footer only and are left out;
    [lastCompletion] is kept as the integer it is converted from. *)
Record state := mkState {
  serviceTime : Z;
  waitingTime : Z;
  lastCompletion : Z;
  schedule : list Row;
  gantt : list TimeSlice
}.

Definition init : state := mkState 0 0 0 [] [].

(** [waitingTime] is declared outside the loop: an iteration that does not
    assign it keeps the value of the previous one. *)
Definition wait_of (st : state) (p : Process) : Z :=
  if decide (0 < ArrivalTime p)
  then sub64 (serviceTime st) (ArrivalTime p)
  else waitingTime st.

(** Body of [for i := range processes], at [processes[i] = p].  Iteration
    [i] writes [schedule[i]] and appends to [gantt]: both grow at the end. *)
Definition step (st : state) (p : Process) : state :=
  let waitingTime := wait_of st p in
  let start := add64 waitingTime (ArrivalTime p) in
  let turnaround := add64 (BurstDuration p) waitingTime in
  let completion :=
    add64 (add64 (BurstDuration p) (ArrivalTime p)) waitingTime in
  let serviceTime := add64 (serviceTime st) (BurstDuration p) in
  mkState serviceTime waitingTime completion
    (schedule st ++
       [mkRow (ProcessID p) (Priority p) (BurstDuration p) (ArrivalTime p)
          waitingTime turnaround completion])
    (gantt st ++ [mkTimeSlice (ProcessID p) start serviceTime]).

Definition run (processes : list Process) : state :=
  foldl step init processes.

End FCFS.

(** What a scheduler hands to the output helpers, and the caller's slice as
    the call leaves it ([processes] shares its backing array with the
    caller). *)
Record FCFSOutput := mkFCFSOutput {
  fcfsSchedule : list Row;
  fcfsGantt : list TimeSlice;
  fcfsCount : nat;
  fcfsLastCompletion : Z;
  fcfsProcesses : list Process
}.

Definition FCFSSchedule (processes : list Process) : FCFSOutput :=
  let st := FCFS.run processes in
  mkFCFSOutput (FCFS.schedule st) (FCFS.gantt st) (length processes)
    (FCFS.lastCompletion st) processes.

(** Output of the three time-stepped schedulers.  [outTotalWait],
    [outTotalTurnaround], [outCount] and [outTime] are the operands of
    [averageWaitTime], [averageTurnaroundTime] and [throughput]. *)
Record Output := mkOutput {
  outSchedule : list Row;
  outGantt : list TimeSlice;
  outTotalWait : Z;
  outTotalTurnaround : Z;
  outCount : nat;
  outTime : Z;
  outProcesses : list Process
}.

(** ** The two shortest-job simulators *)

(** Variables shared by [SJFSchedule] and [SJFPrioritySchedule]. *)
Record SimState := mkSimState {
  processesBurst : list Process;
  status : list ProcessStatus;
  currentTime : Z;
  totalWaitTime : Z;
  totalTurnaroundTime : Z;
  numCompleted : Z
}.

(** The inner [for i := 0; i < n; i++] scan, from index [i] on, over the
    remaining parts of [processesBurst] and [status]; [idx] is
    [shortestJobIndex] ([None] for -1) and [dur] is [shortestJobDuration]. *)
Fixpoint scan (t : Z) (i : nat) (pb : list Process) (st : list ProcessStatus)
    (idx : option nat) (dur : Z) : option nat :=
  match pb, st with
  | p :: pb', s :: st' =>
      if decide (ArrivalTime p <= t /\ EndTime s = 0 /\ BurstDuration p < dur)
      then scan t (S i) pb' st' (Some i) (BurstDuration p)
      else scan t (S i) pb' st' idx dur
  | _, _ => idx
  end.

Definition shortestJob (sentinel : Z) (s : SimState) : option nat :=
  scan (currentTime s) 0 (processesBurst s) (status s) None sentinel.

(** [for numCompleted < n { body }], the loop of both simulators: [step] is
    one iteration, [fuel] bounds their number.  [numCompleted] grows by one
    at most per iteration and the loop stops at [n = len(processes)]: the
    counter never wraps and is left unbounded. *)
Fixpoint simLoop (step : SimState -> SimState) (fuel : nat) (n : nat)
    (s : SimState) : outcome SimState :=
  if decide (numCompleted s < Z.of_nat n) then
    match fuel with
    | O => OutOfFuel
    | S fuel' => simLoop step fuel' n (step s)
    end
  else Done s.

Definition initSim (S : Sorter) (processes : list Process) : SimState :=
  mkSimState (sortSlice S processes)
    (replicate (length processes) zeroStatus) 0 0 0 0.

(** The output loop shared by the two simulators, at index [i]: the table
    row (its burst column read from [processesCopy]) and the Gantt slice. *)
Definition simRow (pb : Process) (pc : Process) (st : ProcessStatus) : Row :=
  let waitTime := sub64 (StartTime st) (ArrivalTime pb) in
  let turnaroundTime := sub64 (EndTime st) (ArrivalTime pb) in
  mkRow (ProcessID pb) (Priority pb) (BurstDuration pc) (ArrivalTime pb)
    waitTime turnaroundTime (EndTime st).

Definition simSlice (pb : Process) (st : ProcessStatus) : TimeSlice :=
  let turnaroundTime := sub64 (EndTime st) (ArrivalTime pb) in
  mkTimeSlice (ProcessID pb) (StartTime st) turnaroundTime.

Definition simOutput (processes processesCopy : list Process) (s : SimState)
    : Output :=
  mkOutput
    (zip_with (fun pp st => simRow pp.1 pp.2 st)
       (zip (processesBurst s) processesCopy) (status s))
    (zip_with simSlice (processesBurst s) (status s))
    (totalWaitTime s) (totalTurnaroundTime s) (length processes)
    (currentTime s) processes.

Module SJF.

Definition sentinel : Z := MaxInt64.

(** One iteration of [for numCompleted := 0; numCompleted < n; currentTime++],
    post statement included. *)
Definition step (s : SimState) : SimState :=
  match shortestJob sentinel s with
  | None =>
      mkSimState (processesBurst s) (status s) (add64 (currentTime s) 1)
        (totalWaitTime s) (totalTurnaroundTime s) (numCompleted s)
  | Some j =>
      let status1 := alter (setStartTime (currentTime s)) j (status s) in
      let pb1 :=
        alter decrement j (processesBurst s) in
      if decide (BurstDuration (pb1 !!! j) = 0) then
        let status2 :=
          alter (setEndTime (add64 (currentTime s) 1)) j status1 in
        mkSimState pb1 status2 (add64 (currentTime s) 1)
          (add64 (totalWaitTime s)
             (sub64 (StartTime (status2 !!! j)) (ArrivalTime (pb1 !!! j))))
          (add64 (totalTurnaroundTime s)
             (sub64 (EndTime (status2 !!! j)) (ArrivalTime (pb1 !!! j))))
          (numCompleted s + 1)
      else
        mkSimState pb1 status1 (add64 (currentTime s) 1)
          (totalWaitTime s) (totalTurnaroundTime s) (numCompleted s)
  end.

Definition loop : nat -> nat -> SimState -> outcome SimState := simLoop step.

End SJF.

Definition SJFSchedule (S : Sorter) (fuel : nat) (processes : list Process)
    : outcome Output :=
  outcome_map (simOutput processes (sortSlice S processes))
    (SJF.loop fuel (length processes) (initSim S processes)).

Module SJFPriority.

(** [var shortestJobDuration int64 = 999]. *)
Definition sentinel : Z := 999.

(** One iteration of [for numCompleted < int64(n)]. *)
Definition step (s : SimState) : SimState :=
  match shortestJob sentinel s with
  | None =>
      mkSimState (processesBurst s) (status s) (add64 (currentTime s) 1)
        (totalWaitTime s) (totalTurnaroundTime s) (numCompleted s)
  | Some j =>
      let status1 :=
        alter (setStatusID (ProcessID (processesBurst s !!! j))) j (status s) in
      let status2 :=
        if decide (StartTime (status1 !!! j) = 0)
        then alter (setStartTime (currentTime s)) j status1
        else status1 in
      let pb1 :=
        alter decrement j (processesBurst s) in
      let currentTime1 := add64 (currentTime s) 1 in
      if decide (BurstDuration (pb1 !!! j) = 0) then
        let status3 := alter (setEndTime currentTime1) j status2 in
        let status4 :=
          if decide (StartTime (status3 !!! j) = 1)
          then alter (setStartTime 0) j status3
          else status3 in
        mkSimState pb1 status4 currentTime1
          (add64 (totalWaitTime s)
             (sub64 (StartTime (status4 !!! j)) (ArrivalTime (pb1 !!! j))))
          (add64 (totalTurnaroundTime s)
             (sub64 (EndTime (status4 !!! j)) (ArrivalTime (pb1 !!! j))))
          (numCompleted s + 1)
      else
        mkSimState pb1 status2 currentTime1
          (totalWaitTime s) (totalTurnaroundTime s) (numCompleted s)
  end.

Definition loop : nat -> nat -> SimState -> outcome SimState := simLoop step.

End SJFPriority.

Definition SJFPrioritySchedule (S : Sorter) (fuel : nat)
    (processes : list Process) : outcome Output :=
  outcome_map (simOutput processes (sortSlice S processes))
    (SJFPriority.loop fuel (length processes) (initSim S processes)).

(** ** Round-robin *)

Module RR.

(** [processes] is the parameter itself, the caller's backing array;
    [processesBurst] and [processesCopy] are the two copies taken on entry
    and never written, so they stay equal to the slice on entry. *)
Record state := mkState {
  processes : list Process;
  status : list ProcessStatus;
  queue : list nat;
  currentTime : Z;
  totalTurnaroundTime : Z;
  numCompleted : Z
}.

Definition init (ps : list Process) : state :=
  mkState ps (replicate (length ps) zeroStatus) (seq 0 (length ps)) 0 0 0.

(** One iteration of [for numCompleted < int64(n)]; [None] is the panic of
    [queue[0]] on an empty queue. *)
Definition step (s : state) : option state :=
  match queue s with
  | [] => None
  | index :: queue1 =>
      let status1 :=
        if decide (StartTime (status s !!! index) = 0)
        then alter (setStartTime (currentTime s)) index (status s)
        else status s in
      if decide (1 < BurstDuration (processes s !!! index)) then
        Some (mkState
          (alter decrement index (processes s))
          status1 (queue1 ++ [index]) (add64 (currentTime s) 1)
          (totalTurnaroundTime s) (numCompleted s))
      else
        let processes1 := alter (setBurstDuration 0) index (processes s) in
        let status2 :=
          alter (setEndTime (add64 (currentTime s) 1)) index status1 in
        Some (mkState processes1 status2 queue1 (add64 (currentTime s) 1)
          (add64 (totalTurnaroundTime s)
             (sub64 (EndTime (status2 !!! index))
                (ArrivalTime (processes1 !!! index))))
          (numCompleted s + 1))
  end.

Fixpoint loop (fuel : nat) (n : nat) (s : state) : outcome state :=
  if decide (numCompleted s < Z.of_nat n) then
    match fuel with
    | O => OutOfFuel
    | S fuel' =>
        match step s with
        | None => Panic
        | Some s' => loop fuel' n s'
        end
    end
  else Done s.

(** The pairs (time unit, process run in it), in the order the loop
    dequeues them: an observation of [loop], which prints nothing of it. *)
Fixpoint dispatches (fuel : nat) (n : nat) (s : state) : list (Z * Z) :=
  if decide (numCompleted s < Z.of_nat n) then
    match fuel, queue s with
    | S fuel', index :: _ =>
        (currentTime s, ProcessID (processes s !!! index)) ::
        match step s with
        | None => []
        | Some s' => dispatches fuel' n s'
        end
    | _, _ => []
    end
  else [].

Definition turnaround (pb : Process) (st : ProcessStatus) : Z :=
  sub64 (EndTime st) (ArrivalTime pb).

Definition row (pb : Process) (pc : Process) (st : ProcessStatus) : Row :=
  let turnaroundTime := turnaround pb st in
  let waitTime := sub64 turnaroundTime (BurstDuration pc) in
  mkRow (ProcessID pb) (Priority pb) (BurstDuration pc) (ArrivalTime pb)
    waitTime turnaroundTime (EndTime st).

Definition slice (pb : Process) (st : ProcessStatus) : TimeSlice :=
  mkTimeSlice (ProcessID pb) (StartTime st) (turnaround pb st).

(** [for i := 0; i < n; i++ { totalWaitTime += turnaroundTime - processesCopy[i].BurstDuration }] *)
Definition totalWaitTime (processesBurst processesCopy : list Process)
    (st : list ProcessStatus) : Z :=
  foldl (fun acc x => add64 acc (sub64 (turnaround x.1.1 x.2) (BurstDuration x.1.2)))
    0 (zip (zip processesBurst processesCopy) st).

Definition output (processesBurst processesCopy : list Process) (s : state)
    : Output :=
  mkOutput
    (zip_with (fun pp st => row pp.1 pp.2 st)
       (zip processesBurst processesCopy) (status s))
    (zip_with slice processesBurst (status s))
    (totalWaitTime processesBurst processesCopy (status s))
    (totalTurnaroundTime s) (length processesBurst)
    (currentTime s) (processes s).

End RR.

Definition RRSchedule (fuel : nat) (processes : list Process) : outcome Output :=
  outcome_map (RR.output processes processes)
    (RR.loop fuel (length processes) (RR.init processes)).

(** ** Loading the processes *)

(** [strconv.ParseInt(s, 10, 64)]: an optional sign, then one decimal digit
    or more, the value within the range of [int64]; [None] stands for either
    of its errors (syntax, range). *)
Definition digit_of (c : ascii) : option Z :=
  let n := Z.of_N (Ascii.N_of_ascii c) in
  if decide (48 <= n <= 57) then Some (n - 48) else None.

Fixpoint parse_digits (acc : Z) (s : string) : option Z :=
  match s with
  | EmptyString => Some acc
  | String c s' =>
      match digit_of c with
      | Some d => parse_digits (acc * 10 + d) s'
      | None => None
      end
  end.

Definition ParseInt (s : string) : option Z :=
  match s with
  | EmptyString => None
  | String c s' =>
      let neg := bool_decide (c = "-"%char) in
      let body := if decide (c = "+"%char \/ c = "-"%char) then s' else s in
      match body with
      | EmptyString => None
      | _ =>
          match parse_digits 0 body with
          | None => None
          | Some un =>
              if neg then (if decide (un <= - MinInt64) then Some (- un) else None)
              else (if decide (un <= MaxInt64) then Some un else None)
          end
      end
  end.

(** How [loadProcesses] ends: it returns the slice or the error of the CSV
    reader, [mustStrToInt] exits the program with status 1, or an index
    expression panics. *)
Inductive load (A : Type) : Type :=
  | Loaded (a : A)
  | ReadError
  | Exit1
  | IndexOutOfRange.
Arguments Loaded {A} a.
Arguments ReadError {A}.
Arguments Exit1 {A}.
Arguments IndexOutOfRange {A}.

#[export] Instance load_bind : MBind load := fun A B k m =>
  match m with
  | Loaded a => k a
  | ReadError => ReadError
  | Exit1 => Exit1
  | IndexOutOfRange => IndexOutOfRange
  end.

(** [row[k]], with Go's bounds check. *)
Definition field (row : list string) (k : nat) : load string :=
  match row !! k with
  | Some s => Loaded s
  | None => IndexOutOfRange
  end.

Definition mustStrToInt (s : string) : load Z :=
  match ParseInt s with
  | Some i => Loaded i
  | None => Exit1
  end.

(** Body of [for i := range rows]: the fields are indexed and converted one
    after the other, in the order of the statements. *)
Definition loadRow (row : list string) : load Process :=
  s0 ← field row 0;
  id ← mustStrToInt s0;
  s1 ← field row 1;
  burst ← mustStrToInt s1;
  s2 ← field row 2;
  arrival ← mustStrToInt s2;
  if decide (length row = 4%nat) then
    s3 ← field row 3;
    priority ← mustStrToInt s3;
    Loaded (mkProcess id arrival burst priority)
  else Loaded (mkProcess id arrival burst 0).

Fixpoint loadRows (rows : list (list string)) : load (list Process) :=
  match rows with
  | [] => Loaded []
  | row :: rows' =>
      p ← loadRow row;
      ps ← loadRows rows';
      Loaded (p :: ps)
  end.

(** [rows] is what [csv.NewReader(r).ReadAll()] returned, [None] for its
    error. *)
Definition loadProcesses (rows : option (list (list string)))
    : load (list Process) :=
  match rows with
  | None => ReadError
  | Some rows => loadRows rows
  end.

(** ** The Gantt chart

    [outputGantt] writes to an [io.Writer] and ignores its errors: the text
    written is the result, [None] when a panic interrupts the writing. *)

Definition newline : string := String "010"%char "".
Definition tab : string := String "009"%char "".

(** [fmt.Sprint] of an [int64]: the decimal digits, after a minus sign for a
    negative number.  An [int64] has 19 digits at most. *)
Definition digitChar (d : Z) : ascii := Ascii.ascii_of_N (Z.to_N (48 + d)).

Fixpoint formatDigits (fuel : nat) (n : Z) (acc : string) : string :=
  match fuel with
  | O => acc
  | S fuel' =>
      let acc' := String (digitChar (n mod 10)) acc in
      if decide (n < 10) then acc' else formatDigits fuel' (n / 10) acc'
  end.

Definition Sprint (z : Z) : string :=
  if decide (z < 0) then String "-"%char (formatDigits 20 (- z) "")
  else formatDigits 20 z "".

(** [strings.Repeat(s, count)], which panics on a negative count. *)
Definition Repeat (s : string) (count : Z) : option string :=
  if decide (count < 0) then None
  else Some (Nat.iter (Z.to_nat count) (String.append s) "").

(** Go's [len] of a string, an [int]. *)
Definition len (s : string) : Z := Z.of_nat (String.length s).

(** Body of the first loop: [padding, pid, padding, "|"].  The division of
    Go's integers truncates toward zero ([Z.quot]). *)
Definition ganttCell (sl : TimeSlice) : option string :=
  let pid := Sprint (PID sl) in
  padding ← Repeat " " (Z.quot (8 - len pid) 2);
  Some (padding +:+ pid +:+ padding +:+ "|").

Fixpoint ganttCells (gantt : list TimeSlice) : option string :=
  match gantt with
  | [] => Some ""
  | sl :: gantt' =>
      cell ← ganttCell sl;
      rest ← ganttCells gantt';
      Some (cell +:+ rest)
  end.

(** The second loop from index [i] on, [n] being [len(gantt)]: every start
    time and a tab, the stop time after the last. *)
Fixpoint ganttTimes (n i : nat) (gantt : list TimeSlice) : string :=
  match gantt with
  | [] => ""
  | sl :: gantt' =>
      Sprint (Start sl) +:+ tab +:+
      (if decide (Z.of_nat n - 1 = Z.of_nat i) then Sprint (Stop sl) else "") +:+
      ganttTimes n (S i) gantt'
  end.

Definition outputGantt (gantt : list TimeSlice) : option string :=
  cells ← ganttCells gantt;
  Some ("Gantt schedule" +:+ newline +:+ "|" +:+ cells +:+ newline +:+
        ganttTimes (length gantt) 0 gantt +:+ newline +:+ newline).

(** [outputTitle]: a rule of dashes twice as long as the title, the title
    after half its length of spaces and the space [Fprintln] puts between two
    operands, and the rule again. *)
Definition outputTitle (title : string) : option string :=
  rule ← Repeat "-" (len title * 2);
  indent ← Repeat " " (Z.quot (len title) 2);
  Some (rule +:+ newline +:+ indent +:+ " " +:+ title +:+ newline +:+
        rule +:+ newline).

(** ** Helpers *)

(** [copyRemainingTime(dst, src)]: [dst[i] = src[i].BurstDuration] for every
    index of [src], from index [i] on; [None] when [dst] is too short and the
    assignment panics. *)
Fixpoint copyRemainingTimeFrom (i : nat) (dst : list Z) (src : list Process)
    : option (list Z) :=
  match src with
  | [] => Some dst
  | p :: src' =>
      if decide (i < length dst)%nat
      then copyRemainingTimeFrom (S i) (<[i := BurstDuration p]> dst) src'
      else None
  end.

Definition copyRemainingTime (dst : list Z) (src : list Process)
    : option (list Z) :=
  copyRemainingTimeFrom 0 dst src.

(** [allCompleted]: returns [false] at the first [false] entry. *)
Fixpoint allCompleted (completed : list bool) : bool :=
  match completed with
  | [] => true
  | c :: completed' => if negb c then false else allCompleted completed'
  end.

(** ** The calls, with what they write

    Every scheduler ends with the same three statements: [outputTitle],
    [outputGantt], [outputSchedule].  A panic in one of the first two ends
    the call, after the computation and before the table.  [outputSchedule]
    hands the rows to the table writer of
    [github.com/olekukonko/tablewriter], whose code is not in the
    repository: the text of the table is left out, and [Done] below says
    that the computation has ended and that the title and the chart are
    written. *)
Definition outcome_bind {A B : Type} (o : outcome A) (k : A -> outcome B)
    : outcome B :=
  match o with
  | Done a => k a
  | Panic => Panic
  | OutOfFuel => OutOfFuel
  end.

(** The text of the title and of the chart of a result, after it. *)
Definition written {A : Type} (title : string) (gantt : A -> list TimeSlice)
    (result : outcome A) : outcome (A * string) :=
  outcome_bind result (fun a =>
    match (t ← outputTitle title; g ← outputGantt (gantt a); Some (t +:+ g)) with
    | Some text => Done (a, text)
    | None => Panic
    end).

Definition FCFSSchedule_call (title : string) (processes : list Process)
    : outcome (FCFSOutput * string) :=
  written title fcfsGantt (Done (FCFSSchedule processes)).

Definition SJFSchedule_call (S : Sorter) (fuel : nat) (title : string)
    (processes : list Process) : outcome (Output * string) :=
  written title outGantt (SJFSchedule S fuel processes).

Definition SJFPrioritySchedule_call (S : Sorter) (fuel : nat) (title : string)
    (processes : list Process) : outcome (Output * string) :=
  written title outGantt (SJFPrioritySchedule S fuel processes).

Definition RRSchedule_call (fuel : nat) (title : string)
    (processes : list Process) : outcome (Output * string) :=
  written title outGantt (RRSchedule fuel processes).

(** ** The driver

    [main], once the processes are loaded: the four schedulers are called in
    turn on the same slice, each receiving it as the call before left it; a
    panic in one call ends the program before the next. *)
Definition runSchedulers (S : Sorter) (fuel : nat) (processes : list Process)
    : outcome ((FCFSOutput * string) * (Output * string) * (Output * string)
               * (Output * string)) :=
  outcome_bind (FCFSSchedule_call "First-come, first-serve" processes)
    (fun fcfs =>
  outcome_bind (SJFSchedule_call S fuel "Shortest-job-first"
                  (fcfsProcesses fcfs.1)) (fun sjf =>
  outcome_bind (SJFPrioritySchedule_call S fuel "Priority"
                  (outProcesses sjf.1)) (fun prio =>
  outcome_bind (RRSchedule_call fuel "Round-robin" (outProcesses prio.1))
    (fun rr =>
  Done (fcfs, sjf, prio, rr))))).

(** * Vocabulary of the statements *)

(** ** Insertion sort *)

Definition key_le (a b : Z * nat) : Prop := a.1 <= b.1.

(** ** First-come, first-serve *)

(** The state in which iteration [i] starts. *)
Definition FCFS_before (ps : list Process) (i : nat) : FCFS.state :=
  foldl FCFS.step FCFS.init (take i ps).

(** Cumulative service time of the processes before index [i]. *)
Definition serviceBefore (ps : list Process) (i : nat) : Z :=
  foldl add64 0 (BurstDuration <$> take i ps).

Definition FCFS_row (st : FCFS.state) (p : Process) : Row :=
  mkRow (ProcessID p) (Priority p) (BurstDuration p) (ArrivalTime p)
    (FCFS.wait_of st p) (add64 (BurstDuration p) (FCFS.wait_of st p))
    (add64 (add64 (BurstDuration p) (ArrivalTime p)) (FCFS.wait_of st p)).

Definition FCFS_slice (st : FCFS.state) (p : Process) : TimeSlice :=
  mkTimeSlice (ProcessID p) (add64 (FCFS.wait_of st p) (ArrivalTime p))
    (add64 (FCFS.serviceTime st) (BurstDuration p)).

(** Invariant of the FCFS loop when no sum overflows: the wait carried over
    is no later than the service time, and no slice stops before it starts. *)
Definition FCFS_ordered (st : FCFS.state) : Prop :=
  0 <= FCFS.serviceTime st /\ in_int64 (FCFS.waitingTime st) /\
  FCFS.waitingTime st <= FCFS.serviceTime st /\
  Forall (fun sl => Start sl <= Stop sl) (FCFS.gantt st).

(** ** The scan for the shortest job *)

(** Process [k] has arrived by [t], has no end time yet, and its
    [processesBurst[k].BurstDuration], the burst still to run, is [b]. *)
Definition candidate (t : Z) (pb : list Process) (st : list ProcessStatus)
    (k : nat) (b : Z) : Prop :=
  exists p x, pb !! k = Some p /\ st !! k = Some x /\
    ArrivalTime p <= t /\ EndTime x = 0 /\ BurstDuration p = b.

(** ** One time unit of either simulator *)

Definition sumZ (l : list Z) : Z := foldr Z.add 0 l.

(** Total burst of a slice, and its latest arrival time (0 at least): the
    work and the idle time a simulation can spend. *)
Definition totalBurst (ps : list Process) : Z := sumZ (BurstDuration <$> ps).
Definition maxArrival (ps : list Process) : Z :=
  foldr Z.max 0 (ArrivalTime <$> ps).

Definition ends (s : SimState) : list Z := EndTime <$> status s.

(** What an iteration of [SJFSchedule] and of [SJFPrioritySchedule] have in
    common: the clock advances, and the process chosen by the scan, if any,
    loses one unit of burst and is given an end time when none is left. *)
Inductive tick (sentinel : Z) (s s' : SimState) : Prop :=
  | tick_idle :
      shortestJob sentinel s = None ->
      processesBurst s' = processesBurst s ->
      ends s' = ends s ->
      currentTime s' = add64 (currentTime s) 1 ->
      numCompleted s' = numCompleted s ->
      tick sentinel s s'
  | tick_run (j : nat) :
      shortestJob sentinel s = Some j ->
      processesBurst s' = alter decrement j (processesBurst s) ->
      BurstDuration (processesBurst s' !!! j) <> 0 ->
      ends s' = ends s ->
      currentTime s' = add64 (currentTime s) 1 ->
      numCompleted s' = numCompleted s ->
      tick sentinel s s'
  | tick_complete (j : nat) :
      shortestJob sentinel s = Some j ->
      processesBurst s' = alter decrement j (processesBurst s) ->
      BurstDuration (processesBurst s' !!! j) = 0 ->
      ends s' = alter (fun _ => add64 (currentTime s) 1) j (ends s) ->
      currentTime s' = add64 (currentTime s) 1 ->
      numCompleted s' = numCompleted s + 1 ->
      tick sentinel s s'.

(** 1 for a process with no burst left, 0 otherwise. *)
Definition done01 (p : Process) : Z :=
  if decide (BurstDuration p = 0) then 1 else 0.

(** ** Invariant and measure of the two time-stepped simulators

    [sentinel] is the initial [shortestJobDuration], [M] the latest arrival,
    [bound] the number of time units granted, [n] the number of processes. *)

(** A process and its end time agree: the burst left is within bounds and
    the end time is unset exactly while some burst is left. *)
Definition elem_ok (sentinel M : Z) (p : Process) (e : Z) : Prop :=
  0 <= BurstDuration p < sentinel /\ ArrivalTime p <= M /\
  (e = 0 <-> BurstDuration p <> 0).

(** Time units still needed: the burst left to run, and the idle units
    until the latest arrival. *)
Definition potential (M : Z) (s : SimState) : Z :=
  totalBurst (processesBurst s) + Z.max 0 (M - currentTime s).

Record sim_inv (sentinel M bound : Z) (n : nat) (s : SimState) : Prop := mkSimInv {
  inv_elems : Forall2 (elem_ok sentinel M) (processesBurst s) (ends s);
  inv_length : length (processesBurst s) = n;
  inv_time : 0 <= currentTime s;
  inv_count : numCompleted s = sumZ (done01 <$> processesBurst s);
  inv_budget : currentTime s + potential M s <= bound
}.

(** ** Invariant and measure of round-robin *)

Definition rr_weight (ps : list Process) (i : nat) : Z :=
  Z.max 1 (BurstDuration (ps !!! i)).

(** Iterations left: each queued process takes as many as its burst, one
    at least. *)
Definition rr_potential (s : RR.state) : Z :=
  sumZ (rr_weight (RR.processes s) <$> RR.queue s).

Record rr_inv (n : nat) (s : RR.state) : Prop := mkRRInv {
  rr_nodup : NoDup (RR.queue s);
  rr_length : length (RR.processes s) = n;
  rr_count : RR.numCompleted s = Z.of_nat n - Z.of_nat (length (RR.queue s));
  rr_range : Forall (fun p => in_int64 (BurstDuration p)) (RR.processes s)
}.

(** ** Priorities blanked *)

(** A process, a state and an output with the priorities blanked. *)
Definition erasePriority : Process -> Process := setPriority 0.

Definition eraseState (s : SimState) : SimState :=
  mkSimState (erasePriority <$> processesBurst s) (status s) (currentTime s)
    (totalWaitTime s) (totalTurnaroundTime s) (numCompleted s).

Definition blankPriority (r : Row) : Row :=
  mkRow (rowID r) 0 (rowBurst r) (rowArrival r) (rowWait r) (rowTurnaround r)
    (rowExit r).

(** Everything a run reports, but for the Priority column of the table and
    the priorities of the caller's slice. *)
Definition withoutPriority (o : Output) : Output :=
  mkOutput (blankPriority <$> outSchedule o) (outGantt o) (outTotalWait o)
    (outTotalTurnaround o) (outCount o) (outTime o)
    (erasePriority <$> outProcesses o).

(** * Vocabulary of the further properties *)

(** ** Loading *)

(** The fields of a row that [loadProcesses] converts: the first three, and
    the fourth of a row of exactly four. *)
Definition usedFields (row : list string) : list string :=
  take 3 row ++ (if decide (length row = 4%nat) then drop 3 row else []).

(** Process [p] is what the fields of [row] denote: identifier, burst and
    arrival in columns 0, 1 and 2, the priority in column 3 of a row of
    exactly four fields and 0 otherwise. *)
Definition row_fields (row : list string) (p : Process) : Prop :=
  row !! 0%nat ≫= ParseInt = Some (ProcessID p) /\
  row !! 1%nat ≫= ParseInt = Some (BurstDuration p) /\
  row !! 2%nat ≫= ParseInt = Some (ArrivalTime p) /\
  (if decide (length row = 4%nat)
   then row !! 3%nat ≫= ParseInt = Some (Priority p)
   else Priority p = 0).

(** ** Tables *)

(** The four columns of a table row that echo the input, and the same
    fields of a process. *)
Definition rowColumns (r : Row) : Z * Z * Z * Z :=
  (rowID r, rowPriority r, rowBurst r, rowArrival r).
Definition processColumns (p : Process) : Z * Z * Z * Z :=
  (ProcessID p, Priority p, BurstDuration p, ArrivalTime p).

(** What no scheduler changes in a working copy. *)
Definition identity (p : Process) : Z * Z * Z :=
  (ProcessID p, ArrivalTime p, Priority p).

(** ** Bursts the scan can bring to completion *)

(** 1 for a process whose burst left can still reach 0: at least 1 and
    below the bound of the scan. *)
Definition pending01 (sentinel : Z) (p : Process) : Z :=
  if decide (1 <= BurstDuration p < sentinel) then 1 else 0.

(** Completions so far plus processes that can still complete: a constant
    of the loop. *)
Definition completable (sentinel c0 : Z) (s : SimState) : Prop :=
  Forall (fun p => in_int64 (BurstDuration p)) (processesBurst s) /\
  numCompleted s + sumZ (pending01 sentinel <$> processesBurst s) = c0.

(** ** Exit times *)

(** At time [t], a working process [p], its original [c] and its end time
    [e] agree: a process that has run [k] units has done so since its
    arrival, and one that has exited did so after its whole burst. *)
Definition exit_ok (t : Z) (p c : Process) (e : Z) : Prop :=
  ArrivalTime p = ArrivalTime c /\ BurstDuration p <= BurstDuration c /\
  (e = 0 -> BurstDuration p < BurstDuration c ->
   ArrivalTime c + (BurstDuration c - BurstDuration p) <= t) /\
  (e <> 0 -> ArrivalTime c + BurstDuration c <= e <= t).

(** [pc] is [processesCopy], the originals in the order of the sort. *)
Definition exits_inv (pc : list Process) (s : SimState) : Prop :=
  length pc = length (processesBurst s) /\
  (forall i p c e,
     processesBurst s !! i = Some p -> pc !! i = Some c ->
     ends s !! i = Some e -> exit_ok (currentTime s) p c e) /\
  (forall i j e,
     i <> j -> ends s !! i = Some e -> ends s !! j = Some e -> e = 0).

(** What the rows of a finished run satisfy. *)
Definition row_exit_ok (finalTime : Z) (r : Row) : Prop :=
  rowArrival r + rowBurst r <= rowExit r <= finalTime /\
  rowTurnaround r = rowExit r - rowArrival r /\
  rowBurst r <= rowTurnaround r.

(** ** The schedule, start times apart *)

(** What the scan and the completion test of an iteration read and write. *)
Definition stateView (s : SimState) : list Process * list Z * Z * Z :=
  (processesBurst s, ends s, currentTime s, numCompleted s).

(** The output but for what derives from [StartTime] (the wait column and
    its total, the start of the slices) and from the turnaround total. *)
Definition exitView (o : Output)
    : list (Z * Z * Z * Z * Z * Z) * list Z * nat * Z :=
  ((fun r => (rowColumns r, rowTurnaround r, rowExit r)) <$> outSchedule o,
   Stop <$> outGantt o, outCount o, outTime o).

(** ** Round-robin runs *)

(** Iterations round-robin spends on a slice: the burst of each process,
    one at least. *)
Definition rr_work (ps : list Process) : Z :=
  sumZ ((fun p => Z.max 1 (BurstDuration p)) <$> ps).

(** Invariant of a run started on [ps0] at time 0: the queue holds valid
    indices, a process out of the queue has no burst left, nothing but the
    bursts has changed, and the clock counts the iterations done. *)
Record rr_run_inv (ps0 : list Process) (s : RR.state) : Prop := mkRRRunInv {
  rr_run_base : rr_inv (length ps0) s;
  rr_run_queue : Forall (fun i => (i < length ps0)%nat) (RR.queue s);
  rr_run_done :
    forall i, (i < length ps0)%nat ->
      i ∈ RR.queue s \/ BurstDuration (RR.processes s !!! i) = 0;
  rr_run_identity : identity <$> RR.processes s = identity <$> ps0;
  rr_run_status : length (RR.status s) = length ps0;
  rr_run_time : RR.currentTime s + rr_potential s = rr_work ps0
}.

(** What holds of the caller's slice all along a round-robin run on [ps0],
    whatever the bursts. *)
Record rr_slice_inv (ps0 : list Process) (s : RR.state) : Prop := mkRRSliceInv {
  rr_slice_queue : Forall (fun i => (i < length ps0)%nat) (RR.queue s);
  rr_slice_count :
    RR.numCompleted s
    = Z.of_nat (length ps0) - Z.of_nat (length (RR.queue s));
  rr_slice_done :
    forall i, (i < length ps0)%nat ->
      i ∈ RR.queue s \/ BurstDuration (RR.processes s !!! i) = 0;
  rr_slice_identity : identity <$> RR.processes s = identity <$> ps0;
  rr_slice_status : length (RR.status s) = length ps0
}.

(** What an iteration of round-robin reads and what it decides. *)
Definition rrView (s : RR.state)
    : list Z * list ProcessStatus * list nat * Z * Z :=
  (BurstDuration <$> RR.processes s, RR.status s, RR.queue s,
   RR.currentTime s, RR.numCompleted s).

(** The output of round-robin, arrival times, priorities and what is
    computed from them apart: identifier, burst and exit of every row,
    identifier and start of every slice, the count and the final time. *)
Definition rrExitView (o : Output)
    : list (Z * Z * Z) * list (Z * Z) * nat * Z :=
  ((fun r => (rowID r, rowBurst r, rowExit r)) <$> outSchedule o,
   (fun sl => (PID sl, Start sl)) <$> outGantt o, outCount o, outTime o).

(** ** Identifiers and the chart *)

(** An identifier whose decimal form takes ten characters or more. *)
Definition longPID (id : Z) : Prop := 1000000000 <= id \/ id <= -100000000.

(** * Properties *)

(** ** Arithmetic on 64 bits *)

Lemma wrap64_range (z : Z) : in_int64 (wrap64 z).
Proof.
  unfold in_int64, wrap64, MinInt64, MaxInt64, modulus64.
  pose proof (Z.mod_pos_bound (z - -9223372036854775808) 18446744073709551616).
  lia.
Qed.

Lemma wrap64_id (z : Z) : in_int64 z -> wrap64 z = z.
Proof.
  unfold in_int64, wrap64, MinInt64, MaxInt64, modulus64. intros H.
  rewrite Z.mod_small by lia. lia.
Qed.

Lemma wrap64_add_l (a b : Z) : wrap64 (wrap64 a + b) = wrap64 (a + b).
Proof.
  unfold wrap64. f_equal.
  replace ((a - MinInt64) mod modulus64 + MinInt64 + b - MinInt64)
    with ((a - MinInt64) mod modulus64 + b) by lia.
  rewrite Zplus_mod_idemp_l. f_equal. lia.
Qed.

Lemma wrap64_sub_l (a b : Z) : wrap64 (wrap64 a - b) = wrap64 (a - b).
Proof. unfold Z.sub. apply wrap64_add_l. Qed.

Lemma add64_comm (a b : Z) : add64 a b = add64 b a.
Proof. unfold add64. f_equal. lia. Qed.

Lemma add64_range (a b : Z) : in_int64 (add64 a b).
Proof. apply wrap64_range. Qed.

Lemma sub64_range (a b : Z) : in_int64 (sub64 a b).
Proof. apply wrap64_range. Qed.

(** Adding back what was subtracted, on 64 bits. *)
Lemma add64_sub64_cancel (a b : Z) : in_int64 a -> add64 (sub64 a b) b = a.
Proof.
  intros H. unfold add64, sub64. rewrite wrap64_add_l.
  replace (a - b + b) with a by lia. by apply wrap64_id.
Qed.

Lemma sub64_add64_cancel (a b : Z) : in_int64 a -> sub64 (add64 a b) a = wrap64 b.
Proof.
  intros H. unfold add64, sub64. rewrite wrap64_sub_l. f_equal. lia.
Qed.

Lemma add64_small (a b : Z) : in_int64 (a + b) -> add64 a b = a + b.
Proof. apply wrap64_id. Qed.

Lemma sub64_small (a b : Z) : in_int64 (a - b) -> sub64 a b = a - b.
Proof. apply wrap64_id. Qed.

(** ** Insertion sort is a [Sorter] *)

#[local] Instance key_le_trans : Transitive key_le.
Proof. unfold key_le. intros a b c. lia. Qed.

Lemma insert_key_Permutation (x : Z * nat) (l : list (Z * nat)) :
  insert_key x l ≡ₚ x :: l.
Proof.
  induction l as [|y l IH]; simpl; [done|].
  case_decide; [done|]. rewrite IH. apply Permutation_swap.
Qed.

Lemma insertion_fold_Permutation (l acc : list (Z * nat)) :
  foldl (fun acc x => insert_key x acc) acc l ≡ₚ acc ++ l.
Proof.
  revert acc. induction l as [|x l IH]; intros acc; simpl.
  - by rewrite app_nil_r.
  - rewrite IH, insert_key_Permutation.
    by rewrite (Permutation_middle acc l x).
Qed.

Lemma insert_key_StronglySorted (x : Z * nat) (l : list (Z * nat)) :
  StronglySorted key_le l -> StronglySorted key_le (insert_key x l).
Proof.
  induction 1 as [|y l Hl IH Hy]; simpl.
  - repeat constructor.
  - case_decide as Hlt.
    + constructor; [by constructor|].
      constructor; [unfold key_le; lia|].
      eapply Forall_impl; [exact Hy|]. unfold key_le. intros z. lia.
    + constructor; [done|].
      rewrite insert_key_Permutation. constructor; [unfold key_le; lia|done].
Qed.

Lemma insertion_fold_StronglySorted (l acc : list (Z * nat)) :
  StronglySorted key_le acc ->
  StronglySorted key_le (foldl (fun acc x => insert_key x acc) acc l).
Proof.
  revert acc. induction l as [|x l IH]; intros acc Hacc; simpl; [done|].
  by apply IH, insert_key_StronglySorted.
Qed.

Lemma zip_seq_keys (ks : list Z) (k : nat) :
  Forall (fun a : Z * nat => (k <= a.2)%nat /\ nth (a.2 - k) ks 0 = a.1)
    (zip ks (seq k (length ks))).
Proof.
  revert k. induction ks as [|x ks IH]; intros k; simpl; [constructor|].
  constructor.
  - simpl. split; [lia|]. by rewrite Nat.sub_diag.
  - eapply Forall_impl; [apply (IH (S k))|]. intros [z i]; simpl.
    intros [Hle Hnth]. split; [lia|].
    replace (i - k)%nat with (S (i - S k)) by lia. done.
Qed.

Lemma insertion_perm_Permutation (ks : list Z) :
  Permutation (insertion_perm ks) (seq 0 (length ks)).
Proof.
  unfold insertion_perm, insertion_sort.
  rewrite insertion_fold_Permutation. simpl.
  rewrite snd_zip; [done|]. by rewrite length_seq.
Qed.

Lemma insertion_perm_Sorted (ks : list Z) :
  Sorted Z.le ((fun i => nth i ks 0) <$> insertion_perm ks).
Proof.
  unfold insertion_perm. rewrite <- list_fmap_compose.
  assert (Hkeys : Forall (fun a : Z * nat => nth a.2 ks 0 = a.1)
                    (insertion_sort (zip ks (seq 0 (length ks))))).
  { unfold insertion_sort. rewrite insertion_fold_Permutation. simpl.
    eapply Forall_impl; [apply (zip_seq_keys ks 0)|].
    intros [z i]; simpl. rewrite Nat.sub_0_r. tauto. }
  assert (((fun i => nth i ks 0) ∘ snd) <$>
            insertion_sort (zip ks (seq 0 (length ks)))
          = fst <$> insertion_sort (zip ks (seq 0 (length ks)))) as ->.
  { apply Forall_fmap_ext_1. exact Hkeys. }
  apply (Sorted_fmap fst key_le Z.le); [done|].
  apply StronglySorted_Sorted, insertion_fold_StronglySorted. constructor.
Qed.

(** The [Sorter] of the concrete runs below. *)
Definition insertionSorter : Sorter :=
  mkSorter insertion_perm insertion_perm_Permutation insertion_perm_Sorted.

(** What every [Sorter] does to a slice. *)
Lemma nth_seq_fmap {A : Type} (d : A) (l : list A) :
  (fun i => nth i l d) <$> seq 0 (length l) = l.
Proof.
  apply list_eq. intros i. rewrite list_lookup_fmap.
  destruct (decide (i < length l)%nat) as [Hi|Hi].
  - rewrite lookup_seq_lt by done. simpl. rewrite nth_lookup.
    destruct (lookup_lt_is_Some_2 l i Hi) as [x ->]. done.
  - rewrite lookup_seq_ge by lia. simpl. symmetry.
    apply lookup_ge_None. lia.
Qed.

Lemma length_sortSlice (S : Sorter) (ps : list Process) :
  length (sortSlice S ps) = length ps.
Proof.
  unfold sortSlice. rewrite length_fmap.
  rewrite (Permutation_length (sort_perm_Permutation S _)).
  by rewrite length_seq, length_fmap.
Qed.

Lemma sortSlice_Permutation (S : Sorter) (ps : list Process) :
  sortSlice S ps ≡ₚ ps.
Proof.
  unfold sortSlice. rewrite (sort_perm_Permutation S).
  rewrite length_fmap. by rewrite nth_seq_fmap.
Qed.

(** ** First-come, first-serve *)

Lemma FCFS_foldl_tables (l : list Process) (st : FCFS.state) :
  exists rows slices,
    FCFS.schedule (foldl FCFS.step st l) = FCFS.schedule st ++ rows /\
    FCFS.gantt (foldl FCFS.step st l) = FCFS.gantt st ++ slices /\
    length rows = length l /\ length slices = length l.
Proof.
  revert st. induction l as [|p l IH]; intros st; simpl.
  - exists [], []. by rewrite !app_nil_r.
  - destruct (IH (FCFS.step st p)) as (rows & slices & Hr & Hs & Hlr & Hls).
    exists (FCFS_row st p :: rows), (FCFS_slice st p :: slices).
    rewrite Hr, Hs. simpl. rewrite <- !app_assoc. simpl.
    repeat split; try done; by f_equal.
Qed.

Lemma FCFS_run_lengths (ps : list Process) :
  length (FCFS.schedule (FCFS.run ps)) = length ps /\
  length (FCFS.gantt (FCFS.run ps)) = length ps.
Proof.
  destruct (FCFS_foldl_tables ps FCFS.init) as (rows & slices & Hr & Hs & Hlr & Hls).
  unfold FCFS.run. rewrite Hr, Hs. simpl. done.
Qed.

(** Row and slice number [i] are those written by iteration [i]. *)
Lemma FCFS_tables_at (ps : list Process) (i : nat) (p : Process) :
  ps !! i = Some p ->
  fcfsSchedule (FCFSSchedule ps) !! i = Some (FCFS_row (FCFS_before ps i) p) /\
  fcfsGantt (FCFSSchedule ps) !! i = Some (FCFS_slice (FCFS_before ps i) p).
Proof.
  intros Hi. unfold FCFSSchedule, FCFS.run, FCFS_before. simpl.
  rewrite <- (take_drop_middle ps i p Hi) at 1 3.
  rewrite !foldl_app. simpl.
  set (st := foldl FCFS.step FCFS.init (take i ps)).
  destruct (FCFS_foldl_tables (take i ps) FCFS.init)
    as (rows & slices & Hr & Hs & Hlr & Hls).
  destruct (FCFS_foldl_tables (drop (S i) ps) (FCFS.step st p))
    as (rows' & slices' & Hr' & Hs' & _ & _).
  rewrite Hr', Hs'. simpl. fold st in Hr, Hs. rewrite Hr, Hs. simpl.
  assert (Hlen : length (take i ps) = i).
  { apply length_take_le. apply lookup_lt_Some in Hi. lia. }
  split.
  - rewrite <- app_assoc. rewrite lookup_app_r by lia.
    rewrite Hlr, Hlen, Nat.sub_diag. done.
  - rewrite <- app_assoc. rewrite lookup_app_r by lia.
    rewrite Hls, Hlen, Nat.sub_diag. done.
Qed.

Lemma FCFS_serviceTime_foldl (l : list Process) (st : FCFS.state) :
  FCFS.serviceTime (foldl FCFS.step st l)
  = foldl add64 (FCFS.serviceTime st) (BurstDuration <$> l).
Proof.
  revert st. induction l as [|p l IH]; intros st; simpl; [done|].
  by rewrite IH.
Qed.

Lemma FCFS_before_serviceTime (ps : list Process) (i : nat) :
  FCFS.serviceTime (FCFS_before ps i) = serviceBefore ps i.
Proof. unfold FCFS_before, serviceBefore. by rewrite FCFS_serviceTime_foldl. Qed.

Lemma FCFS_serviceTime_range (l : list Process) (st : FCFS.state) :
  in_int64 (FCFS.serviceTime st) ->
  in_int64 (FCFS.serviceTime (foldl FCFS.step st l)).
Proof.
  revert st. induction l as [|p l IH]; intros st Hst; simpl; [done|].
  apply IH. simpl. apply add64_range.
Qed.

(** The wait carried into iteration [i] is the wait of row [i - 1]. *)
Lemma FCFS_before_waitingTime (ps : list Process) (i : nat) (p : Process) :
  ps !! i = Some p ->
  FCFS.waitingTime (FCFS_before ps (S i)) = FCFS.wait_of (FCFS_before ps i) p.
Proof.
  intros Hi. unfold FCFS_before.
  rewrite (take_S_r ps i p Hi), foldl_app. done.
Qed.

Lemma FCFS_waitingTime_nonpositive (l : list Process) (st : FCFS.state) :
  Forall (fun q => ArrivalTime q <= 0) l ->
  FCFS.waitingTime (foldl FCFS.step st l) = FCFS.waitingTime st.
Proof.
  revert st. induction l as [|p l IH]; intros st Hl; simpl; [done|].
  inversion Hl as [|? ? Hp Hl']; subst. rewrite IH by done. simpl.
  unfold FCFS.wait_of. case_decide; [lia|done].
Qed.

(** The example of the specification: waits 0 and 4, turnarounds 5 and 7. *)
Example FCFS_two_processes :
  (fun r => (rowWait r, rowTurnaround r)) <$>
    fcfsSchedule (FCFSSchedule [mkProcess 1 0 5 0; mkProcess 2 1 3 0])
  = [(0, 5); (4, 7)].
Proof. reflexivity. Qed.

(** FCFS keeps [Turnaround = Wait + Burst] in every row, on 64 bits. *)
Lemma FCFS_turnaround_identity (ps : list Process) (r : Row) :
  r ∈ fcfsSchedule (FCFSSchedule ps) ->
  rowTurnaround r = add64 (rowWait r) (rowBurst r).
Proof.
  intros Hr. apply list_elem_of_lookup in Hr as [i Hi].
  assert (Hlt : (i < length ps)%nat).
  { apply lookup_lt_Some in Hi. simpl in Hi.
    destruct (FCFS_run_lengths ps) as [Hl _]. lia. }
  destruct (lookup_lt_is_Some_2 ps i Hlt) as [p Hp].
  destruct (FCFS_tables_at ps i p Hp) as [Hrow _].
  rewrite Hrow in Hi. injection Hi as <-. simpl. apply add64_comm.
Qed.

(** C5 (as amended).  In [FCFSSchedule] a process with [ArrivalTime > 0]
    waits the cumulative service time of the processes before it minus its
    arrival time (on 64 bits).  A process with [ArrivalTime <= 0] is given
    the wait left by the iteration before it: 0 for the first process, the
    wait of the preceding row otherwise; it is 0 whenever no process up to
    and including it has a positive arrival time. *)
Theorem FCFS_wait_time (ps : list Process) (i : nat) (p : Process) (r : Row) :
  ps !! i = Some p ->
  fcfsSchedule (FCFSSchedule ps) !! i = Some r ->
  (0 < ArrivalTime p ->
     rowWait r = sub64 (serviceBefore ps i) (ArrivalTime p)) /\
  (ArrivalTime p <= 0 ->
     rowWait r =
       match i with
       | O => 0
       | S k => default 0 (rowWait <$> fcfsSchedule (FCFSSchedule ps) !! k)
       end) /\
  (Forall (fun q => ArrivalTime q <= 0) (take (S i) ps) -> rowWait r = 0).
Proof.
  intros Hp Hr.
  destruct (FCFS_tables_at ps i p Hp) as [Hrow _].
  rewrite Hrow in Hr. injection Hr as <-. cbn [rowWait FCFS_row].
  split; [|split].
  - intros Hpos. unfold FCFS.wait_of. rewrite decide_True by done.
    by rewrite FCFS_before_serviceTime.
  - intros Hnp. unfold FCFS.wait_of. rewrite decide_False by lia.
    destruct i as [|k]; [done|].
    assert (Hk : (k < length ps)%nat) by (apply lookup_lt_Some in Hp; lia).
    destruct (lookup_lt_is_Some_2 ps k Hk) as [q Hq].
    destruct (FCFS_tables_at ps k q Hq) as [Hrowk _].
    rewrite Hrowk. simpl. by apply FCFS_before_waitingTime.
  - intros Hall. rewrite (take_S_r ps i p Hp) in Hall.
    apply Forall_app in Hall as [Hpre Hlast].
    rewrite Forall_singleton in Hlast.
    unfold FCFS.wait_of. rewrite decide_False by lia.
    unfold FCFS_before. by rewrite FCFS_waitingTime_nonpositive.
Qed.

Lemma FCFS_wait_time_witness :
  let ps := [mkProcess 1 0 5 0; mkProcess 2 1 3 0] in
  let r := mkRow 2 0 3 1 4 7 8 in
  (0 < ArrivalTime (mkProcess 2 1 3 0) ->
     rowWait r = sub64 (serviceBefore ps 1) (ArrivalTime (mkProcess 2 1 3 0))) /\
  (ArrivalTime (mkProcess 2 1 3 0) <= 0 ->
     rowWait r = default 0 (rowWait <$> fcfsSchedule (FCFSSchedule ps) !! 0%nat)) /\
  (Forall (fun q => ArrivalTime q <= 0) (take 2 ps) -> rowWait r = 0).
Proof.
  exact (FCFS_wait_time [mkProcess 1 0 5 0; mkProcess 2 1 3 0] 1
           (mkProcess 2 1 3 0) (mkRow 2 0 3 1 4 7 8) eq_refl eq_refl).
Defined.

(** C5 as stated fails: a process with [ArrivalTime = 0] that follows one
    with a positive arrival time inherits that one's wait, here -1. *)
Lemma FCFS_wait_time_counterexample :
  ~ (forall (ps : list Process) (i : nat) (p : Process) (r : Row),
       ps !! i = Some p ->
       fcfsSchedule (FCFSSchedule ps) !! i = Some r ->
       (0 < ArrivalTime p ->
          rowWait r = sub64 (serviceBefore ps i) (ArrivalTime p)) /\
       (ArrivalTime p = 0 -> rowWait r = 0)).
Proof.
  intros H.
  destruct (H [mkProcess 1 1 5 0; mkProcess 2 0 3 0] 1%nat
              (mkProcess 2 0 3 0) (mkRow 2 0 3 0 (-1) 2 2) eq_refl eq_refl)
    as [_ Hzero].
  specialize (Hzero eq_refl). simpl in Hzero. lia.
Qed.

(** Slice [i] of FCFS carries the [ProcessID] of process [i]. *)
Lemma FCFS_gantt_PIDs (ps : list Process) :
  PID <$> fcfsGantt (FCFSSchedule ps) = ProcessID <$> ps.
Proof.
  apply list_eq. intros i. rewrite !list_lookup_fmap.
  destruct (ps !! i) as [p|] eqn:Hp.
  - destruct (FCFS_tables_at ps i p Hp) as [_ ->]. done.
  - apply lookup_ge_None in Hp.
    destruct (FCFS_run_lengths ps) as [_ Hl].
    rewrite (proj2 (lookup_ge_None (fcfsGantt (FCFSSchedule ps)) i)); [done|].
    unfold FCFSSchedule; cbn [fcfsGantt]. lia.
Qed.

Lemma FCFS_slice_length (ps : list Process) (i : nat) (p : Process)
    (sl : TimeSlice) :
  in_int64 (BurstDuration p) ->
  ps !! i = Some p ->
  fcfsGantt (FCFSSchedule ps) !! i = Some sl ->
  0 < ArrivalTime p \/ (i = 0%nat /\ ArrivalTime p = 0) ->
  sub64 (Stop sl) (Start sl) = BurstDuration p.
Proof.
  intros Hb Hp Hsl Hcase.
  destruct (FCFS_tables_at ps i p Hp) as [_ Hslice].
  rewrite Hslice in Hsl. injection Hsl as <-. simpl.
  assert (Hsvc : in_int64 (FCFS.serviceTime (FCFS_before ps i))).
  { unfold FCFS_before. apply FCFS_serviceTime_range. simpl.
    unfold in_int64, MinInt64, MaxInt64. lia. }
  assert (Hstart : add64 (FCFS.wait_of (FCFS_before ps i) p) (ArrivalTime p)
                   = FCFS.serviceTime (FCFS_before ps i)).
  { unfold FCFS.wait_of. destruct Hcase as [Hpos|[-> Hz]].
    - rewrite decide_True by done. by apply add64_sub64_cancel.
    - rewrite decide_False by lia. rewrite Hz. done. }
  rewrite Hstart, sub64_add64_cancel by done. by apply wrap64_id.
Qed.

(** ** The scan for the shortest job *)

Lemma candidate_cons_0 t p pb s st b :
  candidate t (p :: pb) (s :: st) 0 b <->
  ArrivalTime p <= t /\ EndTime s = 0 /\ BurstDuration p = b.
Proof.
  unfold candidate. simpl. split.
  - intros (p' & x & [= <-] & [= <-] & H). exact H.
  - intros H. exists p, s. auto.
Qed.

Lemma candidate_cons_S t p pb s st k b :
  candidate t (p :: pb) (s :: st) (S k) b <-> candidate t pb st k b.
Proof. unfold candidate. simpl. done. Qed.

Lemma scan_spec (t : Z) (pb : list Process) :
  forall (st : list ProcessStatus) (i : nat) (idx : option nat) (dur : Z),
  (scan t i pb st idx dur = idx /\
   forall k b, candidate t pb st k b -> dur <= b) \/
  (exists k b, scan t i pb st idx dur = Some (i + k)%nat /\
     candidate t pb st k b /\ b < dur /\
     (forall k' b', candidate t pb st k' b' -> b <= b') /\
     (forall k' b', (k' < k)%nat -> candidate t pb st k' b' -> b < b')).
Proof.
  induction pb as [|p pb IH]; intros st i idx dur.
  { left. split; [done|]. intros k b (p' & x & Hp & _). by destruct k. }
  destruct st as [|s st].
  { left. split; [done|]. intros k b (p' & x & _ & Hx & _). by destruct k. }
  simpl. case_decide as Hc.
  - destruct Hc as (Ha & He & Hb).
    destruct (IH st (S i) (Some i) (BurstDuration p))
      as [[Hr Hmin]|(k & b & Hr & Hk & Hlt & Hmin & Hfirst)].
    + right. exists 0%nat, (BurstDuration p). rewrite Hr, Nat.add_0_r.
      split; [done|]. split; [by apply candidate_cons_0|].
      split; [done|]. split; [|intros; lia].
      intros [|k'] b' Hk'.
      * apply candidate_cons_0 in Hk'. lia.
      * apply candidate_cons_S in Hk'. eauto.
    + right. exists (S k), b. rewrite Hr.
      split; [f_equal; lia|]. split; [by apply candidate_cons_S|].
      split; [lia|]. split.
      * intros [|k'] b' Hk'.
        -- apply candidate_cons_0 in Hk'. lia.
        -- apply candidate_cons_S in Hk'. eauto.
      * intros [|k'] b' Hlt' Hk'.
        -- apply candidate_cons_0 in Hk'. lia.
        -- apply candidate_cons_S in Hk'. apply (Hfirst k'); [lia|done].
  - destruct (IH st (S i) idx dur)
      as [[Hr Hmin]|(k & b & Hr & Hk & Hlt & Hmin & Hfirst)].
    + left. split; [done|]. intros [|k'] b' Hk'.
      * apply candidate_cons_0 in Hk'. destruct Hk' as (? & ? & <-).
        destruct (decide (dur <= BurstDuration p)); [done|].
        exfalso. apply Hc. repeat split; [done..|lia].
      * apply candidate_cons_S in Hk'. eauto.
    + right. exists (S k), b. rewrite Hr.
      split; [f_equal; lia|]. split; [by apply candidate_cons_S|].
      split; [done|].
      assert (Hhead : forall b', candidate t (p :: pb) (s :: st) 0 b' -> b < b').
      { intros b' Hk'. apply candidate_cons_0 in Hk'.
        destruct Hk' as (? & ? & <-).
        destruct (decide (b < BurstDuration p)); [done|].
        exfalso. apply Hc. repeat split; [done..|lia]. }
      split.
      * intros [|k'] b' Hk'.
        -- apply Hhead in Hk'. lia.
        -- apply candidate_cons_S in Hk'. eauto.
      * intros [|k'] b' Hlt' Hk'.
        -- by apply Hhead.
        -- apply candidate_cons_S in Hk'. apply (Hfirst k'); [lia|done].
Qed.

(** What [shortestJob] returns. *)
Lemma shortestJob_Some (sentinel : Z) (s : SimState) (j : nat) :
  shortestJob sentinel s = Some j ->
  exists b, candidate (currentTime s) (processesBurst s) (status s) j b /\
    b < sentinel /\
    (forall k b', candidate (currentTime s) (processesBurst s) (status s) k b' ->
       b <= b') /\
    (forall k b', (k < j)%nat ->
       candidate (currentTime s) (processesBurst s) (status s) k b' -> b < b').
Proof.
  unfold shortestJob. intros Hj.
  destruct (scan_spec (currentTime s) (processesBurst s) (status s) 0 None sentinel)
    as [[Hr _]|(k & b & Hr & Hk & Hlt & Hmin & Hfirst)]; [congruence|].
  rewrite Hr in Hj. injection Hj as <-. simpl. eauto.
Qed.

Lemma shortestJob_None (sentinel : Z) (s : SimState) :
  shortestJob sentinel s = None ->
  forall k b, candidate (currentTime s) (processesBurst s) (status s) k b ->
    sentinel <= b.
Proof.
  unfold shortestJob. intros Hn.
  destruct (scan_spec (currentTime s) (processesBurst s) (status s) 0 None sentinel)
    as [[_ Hmin]|(k & b & Hr & _)]; [done|congruence].
Qed.

(** C2 (as amended).  At each time unit [SJFSchedule] runs, among the
    processes that have arrived and are not completed, the one whose
    remaining burst (the [BurstDuration] of the working copy, decremented at
    every unit the process ran) is smallest and below the initial bound
    [MaxInt64], the lowest index winning ties; that process loses one unit
    of burst.  When there is none, only the clock advances. *)
Theorem SJF_runs_shortest_remaining (s : SimState) :
  match shortestJob SJF.sentinel s with
  | Some j =>
      (exists b,
         candidate (currentTime s) (processesBurst s) (status s) j b /\
         b < MaxInt64 /\
         (forall k b', candidate (currentTime s) (processesBurst s) (status s) k b' ->
            b <= b') /\
         (forall k b', (k < j)%nat ->
            candidate (currentTime s) (processesBurst s) (status s) k b' ->
            b < b')) /\
      processesBurst (SJF.step s) = alter decrement j (processesBurst s) /\
      currentTime (SJF.step s) = add64 (currentTime s) 1
  | None =>
      (forall k b, candidate (currentTime s) (processesBurst s) (status s) k b ->
         MaxInt64 <= b) /\
      SJF.step s =
        mkSimState (processesBurst s) (status s) (add64 (currentTime s) 1)
          (totalWaitTime s) (totalTurnaroundTime s) (numCompleted s)
  end.
Proof.
  destruct (shortestJob SJF.sentinel s) as [j|] eqn:Hj.
  - split; [by apply shortestJob_Some|].
    unfold SJF.step. rewrite Hj. case_decide; done.
  - split; [by apply shortestJob_None|].
    unfold SJF.step. by rewrite Hj.
Qed.

(** C2 as stated fails: the scan compares the remaining burst, not the full
    one.  After two units of [{1,0,3}; {2,2,2}] process 1 (full burst 3, one
    unit left) is chosen over process 2 (full burst 2), which has arrived. *)
Lemma SJF_full_burst_counterexample :
  ~ (forall (S : Sorter) (ps : list Process) (units : nat) (j k : nat) (b : Z),
       let s := Nat.iter units SJF.step (initSim S ps) in
       shortestJob SJF.sentinel s = Some j ->
       candidate (currentTime s) (processesBurst s) (status s) k b ->
       BurstDuration (sortSlice S ps !!! j) <= BurstDuration (sortSlice S ps !!! k)).
Proof.
  intros H.
  specialize (H insertionSorter [mkProcess 1 0 3 0; mkProcess 2 2 2 0]
                2%nat 0%nat 1%nat 2).
  assert (Hle : (3 <= 2)%Z); [|lia].
  apply H; [vm_compute; reflexivity|].
  exists (mkProcess 2 2 2 0), zeroStatus. vm_compute. repeat split; congruence.
Qed.

(** ** One time unit of either simulator *)

Lemma EndTime_alter_keep (f : ProcessStatus -> ProcessStatus) (j : nat)
    (st : list ProcessStatus) :
  (forall x, EndTime (f x) = EndTime x) ->
  EndTime <$> alter f j st = EndTime <$> st.
Proof.
  intros Hf. rewrite (list_fmap_alter EndTime f id).
  - by apply list_alter_id.
  - apply Forall_forall. intros x _. apply Hf.
Qed.

Lemma EndTime_alter_set (v : Z) (j : nat) (st : list ProcessStatus) :
  EndTime <$> alter (setEndTime v) j st = alter (fun _ => v) j (EndTime <$> st).
Proof. apply list_fmap_alter. apply Forall_forall. done. Qed.

Lemma SJF_step_tick (s : SimState) : tick SJF.sentinel s (SJF.step s).
Proof.
  unfold SJF.step. destruct (shortestJob SJF.sentinel s) as [j|] eqn:Hj.
  - case_decide as Hz.
    + apply (tick_complete _ _ _ j); try done. unfold ends. simpl.
      rewrite EndTime_alter_set. f_equal. by apply EndTime_alter_keep.
    + apply (tick_run _ _ _ j); try done. unfold ends. simpl.
      by apply EndTime_alter_keep.
  - by apply tick_idle.
Qed.

Lemma SJFPriority_step_tick (s : SimState) :
  tick SJFPriority.sentinel s (SJFPriority.step s).
Proof.
  unfold SJFPriority.step.
  destruct (shortestJob SJFPriority.sentinel s) as [j|] eqn:Hj;
    [|by apply tick_idle].
  set (status1 := alter (setStatusID _) j (status s)).
  set (status2 := if decide (StartTime (status1 !!! j) = 0)
                  then alter (setStartTime (currentTime s)) j status1
                  else status1).
  assert (H2 : EndTime <$> status2 = EndTime <$> status s).
  { unfold status2. case_decide.
    - rewrite EndTime_alter_keep by done. by apply EndTime_alter_keep.
    - by apply EndTime_alter_keep. }
  case_decide as Hz.
  - apply (tick_complete _ _ _ j); try done. unfold ends. simpl.
    case_decide.
    + rewrite EndTime_alter_keep by done.
      rewrite EndTime_alter_set. by f_equal.
    + rewrite EndTime_alter_set. by f_equal.
  - apply (tick_run _ _ _ j); done.
Qed.

(** Sums over a slice and updates in place. *)
Lemma sumZ_fmap_alter {A : Type} (h : A -> Z) (f : A -> A) (l : list A)
    (j : nat) (x : A) :
  l !! j = Some x ->
  sumZ (h <$> alter f j l) = sumZ (h <$> l) - h x + h (f x).
Proof.
  revert j. induction l as [|y l IH]; intros [|j] Hj; simplify_eq/=.
  - lia.
  - rewrite (IH j Hj). lia.
Qed.

Lemma sumZ_cons (x : Z) (l : list Z) : sumZ (x :: l) = x + sumZ l.
Proof. done. Qed.

Lemma sumZ_nonneg (l : list Z) : Forall (fun z => 0 <= z) l -> 0 <= sumZ l.
Proof. induction 1; simpl; lia. Qed.

Lemma sumZ_Permutation (l k : list Z) : l ≡ₚ k -> sumZ l = sumZ k.
Proof. induction 1; simpl; lia. Qed.

Lemma sumZ_app (l k : list Z) : sumZ (l ++ k) = sumZ l + sumZ k.
Proof. induction l; simpl; lia. Qed.

Lemma done01_unfinished (pb : list Process) :
  sumZ (done01 <$> pb) < Z.of_nat (length pb) ->
  exists i p, pb !! i = Some p /\ BurstDuration p <> 0.
Proof.
  induction pb as [|p pb IH]; csimpl; [lia|]. intros Hlt.
  destruct (decide (BurstDuration p = 0)) as [Hz|Hnz].
  - unfold done01 in Hlt at 1. rewrite decide_True in Hlt by done.
    destruct IH as (i & q & Hq & Hb); [lia|]. by exists (S i), q.
  - by exists 0%nat, p.
Qed.

Lemma maxArrival_ge (ps : list Process) (p : Process) :
  p ∈ ps -> ArrivalTime p <= maxArrival ps.
Proof.
  unfold maxArrival. induction 1; csimpl; lia.
Qed.

Lemma maxArrival_nonneg (ps : list Process) : 0 <= maxArrival ps.
Proof. unfold maxArrival. induction ps; csimpl; lia. Qed.

(** ** Termination of the two time-stepped simulators *)

Section Termination.

(** [sentinel] is the initial [shortestJobDuration], [M] the latest
    arrival, [bound] the number of time units granted, [n] the number of
    processes. *)
Variables (sentinel M bound : Z) (n : nat).
Hypothesis sentinel_max : sentinel <= MaxInt64.
Hypothesis bound_max : bound <= MaxInt64.

Lemma elem_ok_totalBurst (pb : list Process) (es : list Z) :
  Forall2 (elem_ok sentinel M) pb es -> 0 <= totalBurst pb.
Proof.
  intros H. apply sumZ_nonneg. induction H as [|p e pb es Hp _ IH]; csimpl.
  - constructor.
  - constructor; [|done]. destruct Hp as [? _]. lia.
Qed.

Lemma elem_ok_totalBurst_ge (pb : list Process) (es : list Z) (j : nat)
    (p : Process) :
  Forall2 (elem_ok sentinel M) pb es -> pb !! j = Some p ->
  BurstDuration p <= totalBurst pb.
Proof.
  intros H. revert j. induction H as [|q e pb es Hq Hrest IH]; intros j Hj.
  - done.
  - pose proof (elem_ok_totalBurst _ _ Hrest) as Hnn.
    unfold totalBurst in *. csimpl. destruct j as [|j]; simplify_eq/=.
    + lia.
    + specialize (IH j Hj). destruct Hq as [? _]. lia.
Qed.

Lemma totalBurst_decrement (pb : list Process) (j : nat) (p : Process) :
  pb !! j = Some p -> 1 <= BurstDuration p <= MaxInt64 ->
  totalBurst (alter decrement j pb) = totalBurst pb - 1.
Proof.
  intros Hj Hb. unfold totalBurst.
  rewrite (sumZ_fmap_alter BurstDuration decrement pb j p Hj). simpl.
  rewrite sub64_small; [lia|].
  unfold in_int64, MinInt64, MaxInt64 in *. lia.
Qed.

Lemma tick_progress (s s' : SimState) :
  sim_inv sentinel M bound n s -> numCompleted s < Z.of_nat n -> tick sentinel s s' ->
  sim_inv sentinel M bound n s' /\ potential M s' + 1 <= potential M s.
Proof.
  intros [Hel Hlen Ht Hc Hb] Hlt Htick.
  pose proof (elem_ok_totalBurst _ _ Hel) as Htot.
  unfold potential in *.
  destruct Htick as [Hnone Hpb He Htime Hnc
                    |j Hj Hpb Hnz He Htime Hnc
                    |j Hj Hpb Hz He Htime Hnc].
  - (* idle: some unfinished process has not arrived yet *)
    destruct (done01_unfinished (processesBurst s)) as (i & p & Hp & Hbp);
      [rewrite <- Hc, Hlen; done|].
    destruct (Forall2_lookup_l _ _ _ _ _ Hel Hp) as (e & Hei & Hok).
    destruct Hok as (Hrange & Harr & Hiff).
    unfold ends in Hei. rewrite list_lookup_fmap in Hei.
    destruct (status s !! i) as [x|] eqn:Hx; [|done]. simplify_eq/=.
    assert (Hlate : currentTime s < ArrivalTime p).
    { destruct (decide (currentTime s < ArrivalTime p)); [done|].
      assert (sentinel <= BurstDuration p); [|lia].
      apply (shortestJob_None sentinel s Hnone i).
      exists p, x. repeat split; try done; [lia|tauto]. }
    assert (Hadd : add64 (currentTime s) 1 = currentTime s + 1).
    { apply add64_small. unfold in_int64, MinInt64, MaxInt64 in *. lia. }
    rewrite Hpb, Htime, Hadd. split; [|lia].
    split; unfold potential;
      rewrite ?Hpb, ?He, ?Htime, ?Hadd, ?Hnc; try done; try lia.
  - (* one unit of burst, some left *)
    destruct (shortestJob_Some sentinel s j Hj) as (b & Hcand & Hbs & _).
    destruct Hcand as (p & x & Hp & Hx & Harr & Hend & Hbp).
    assert (Hej : ends s !! j = Some 0).
    { unfold ends. rewrite list_lookup_fmap, Hx. simpl. by f_equal. }
    destruct (Forall2_lookup_lr _ _ _ _ _ _ Hel Hp Hej) as (Hrange & HarrM & Hiff).
    assert (Hb1 : 1 <= BurstDuration p <= MaxInt64).
    { assert (BurstDuration p <> 0) by (by apply Hiff). lia. }
    pose proof (totalBurst_decrement _ _ _ Hp Hb1) as Hdec.
    assert (Hsub : sub64 (BurstDuration p) 1 = BurstDuration p - 1).
    { apply sub64_small. unfold in_int64, MinInt64, MaxInt64 in *. lia. }
    assert (Hnew : BurstDuration (processesBurst s' !!! j) = BurstDuration p - 1).
    { rewrite Hpb, list_lookup_total_alter_eq by (by eapply lookup_lt_Some).
      rewrite (list_lookup_total_correct _ _ _ Hp). simpl. done. }
    assert (Hel' : Forall2 (elem_ok sentinel M) (alter decrement j (processesBurst s)) (ends s)).
    { apply Forall2_alter_l; [done|]. intros p' e' Hp' He' _. simplify_eq.
      unfold elem_ok. simpl. rewrite Hsub. rewrite Hnew in Hnz.
      repeat split; try lia; done. }
    pose proof (elem_ok_totalBurst _ _ Hel') as Htot'.
    assert (Hadd : add64 (currentTime s) 1 = currentTime s + 1).
    { apply add64_small. unfold in_int64, MinInt64, MaxInt64 in *. lia. }
    rewrite Hpb, Htime, Hadd, Hdec. split; [|lia].
    split; unfold potential;
      rewrite ?Hpb, ?He, ?Htime, ?Hadd, ?Hnc, ?Hdec; try done; try lia.
    + by rewrite length_alter.
    + rewrite (sumZ_fmap_alter done01 decrement _ j p Hp), Hc.
      unfold done01. simpl. rewrite Hsub.
      rewrite Hnew in Hnz. rewrite !decide_False by lia. lia.
  - (* the last unit of burst *)
    destruct (shortestJob_Some sentinel s j Hj) as (b & Hcand & Hbs & _).
    destruct Hcand as (p & x & Hp & Hx & Harr & Hend & Hbp).
    assert (Hej : ends s !! j = Some 0).
    { unfold ends. rewrite list_lookup_fmap, Hx. simpl. by f_equal. }
    destruct (Forall2_lookup_lr _ _ _ _ _ _ Hel Hp Hej) as (Hrange & HarrM & Hiff).
    assert (Hb1 : 1 <= BurstDuration p <= MaxInt64).
    { assert (BurstDuration p <> 0) by (by apply Hiff). lia. }
    pose proof (totalBurst_decrement _ _ _ Hp Hb1) as Hdec.
    assert (Hsub : sub64 (BurstDuration p) 1 = BurstDuration p - 1).
    { apply sub64_small. unfold in_int64, MinInt64, MaxInt64 in *. lia. }
    assert (Hnew : BurstDuration (processesBurst s' !!! j) = BurstDuration p - 1).
    { rewrite Hpb, list_lookup_total_alter_eq by (by eapply lookup_lt_Some).
      rewrite (list_lookup_total_correct _ _ _ Hp). simpl. done. }
    rewrite Hnew in Hz.
    pose proof (elem_ok_totalBurst_ge _ _ _ _ Hel Hp) as Hge.
    assert (Hadd : add64 (currentTime s) 1 = currentTime s + 1).
    { apply add64_small. unfold in_int64, MinInt64, MaxInt64 in *. lia. }
    assert (Hel' : Forall2 (elem_ok sentinel M) (alter decrement j (processesBurst s))
                     (alter (fun _ => add64 (currentTime s) 1) j (ends s))).
    { apply Forall2_alter; [done|]. intros p' e' Hp' He' _. simplify_eq.
      unfold elem_ok. simpl. rewrite Hsub, Hadd.
      repeat split; try lia. }
    rewrite Hpb, Htime, Hadd, Hdec. split; [|lia].
    split; unfold potential;
      rewrite ?Hpb, ?He, ?Htime, ?Hadd, ?Hnc, ?Hdec; try done; try lia.
    + rewrite <- Hadd. exact Hel'.
    + by rewrite length_alter.
    + rewrite (sumZ_fmap_alter done01 decrement _ j p Hp), Hc.
      unfold done01. simpl. rewrite Hsub.
      rewrite decide_False by lia. rewrite decide_True by lia. lia.
Qed.

(** With as much fuel as the potential the loop ends. *)
Lemma simLoop_terminates (step : SimState -> SimState) :
  (forall s, tick sentinel s (step s)) ->
  forall (fuel : nat) (s : SimState),
    sim_inv sentinel M bound n s -> potential M s <= Z.of_nat fuel ->
    exists s', simLoop step fuel n s = Done s' /\ sim_inv sentinel M bound n s'.
Proof.
  intros Hstep fuel. induction fuel as [|fuel IH]; intros s Hinv Hpot.
  - simpl. case_decide as Hlt; [|eauto].
    destruct (tick_progress s (step s) Hinv Hlt (Hstep s)) as [Hinv' Hdec].
    pose proof (elem_ok_totalBurst _ _ (inv_elems _ _ _ _ _ Hinv')).
    unfold potential in *. lia.
  - simpl. case_decide as Hlt; [|eauto].
    destruct (tick_progress s (step s) Hinv Hlt (Hstep s)) as [Hinv' Hdec].
    apply IH; [done|lia].
Qed.

End Termination.

Lemma done01_all_unfinished (ps : list Process) :
  Forall (fun p => BurstDuration p <> 0) ps -> sumZ (done01 <$> ps) = 0.
Proof.
  induction 1 as [|p ps Hp _ IH]; csimpl; [done|].
  unfold done01 at 1. rewrite decide_False by done. lia.
Qed.

Lemma totalBurst_sortSlice (S : Sorter) (ps : list Process) :
  totalBurst (sortSlice S ps) = totalBurst ps.
Proof.
  unfold totalBurst. apply sumZ_Permutation.
  by rewrite (sortSlice_Permutation S ps).
Qed.

(** The state both simulators start from satisfies the invariant, with the
    latest arrival plus the total burst as the time granted. *)
Lemma initSim_inv (S : Sorter) (sentinel : Z) (ps : list Process) :
  Forall (fun p => 1 <= BurstDuration p < sentinel) ps ->
  sim_inv sentinel (maxArrival ps) (maxArrival ps + totalBurst ps) (length ps)
    (initSim S ps).
Proof.
  intros Hps.
  assert (Hsorted : Forall (fun p => 1 <= BurstDuration p < sentinel)
                      (sortSlice S ps)).
  { by rewrite (sortSlice_Permutation S ps). }
  split; simpl.
  - unfold ends. simpl. rewrite fmap_replicate. simpl.
    apply Forall2_replicate_r; [apply length_sortSlice|].
    apply Forall_forall. intros p Hp. unfold flip, elem_ok.
    pose proof (proj1 (Forall_forall _ _) Hsorted p Hp) as Hb. simpl in Hb.
    split; [lia|]. split; [|split; [lia|done]].
    apply maxArrival_ge. by rewrite <- (sortSlice_Permutation S ps).
  - apply length_sortSlice.
  - done.
  - symmetry. apply done01_all_unfinished.
    eapply Forall_impl; [exact Hsorted|]. simpl. lia.
  - unfold potential. simpl. rewrite totalBurst_sortSlice.
    pose proof (maxArrival_nonneg ps). lia.
Qed.

Lemma sim_terminates (S : Sorter) (sentinel : Z)
    (step : SimState -> SimState) (ps : list Process) :
  sentinel <= MaxInt64 ->
  (forall s, tick sentinel s (step s)) ->
  Forall (fun p => 1 <= BurstDuration p < sentinel) ps ->
  maxArrival ps + totalBurst ps <= MaxInt64 ->
  exists s', simLoop step (Z.to_nat (maxArrival ps + totalBurst ps))
               (length ps) (initSim S ps) = Done s'.
Proof.
  intros Hs Hstep Hps Hbound.
  pose proof (maxArrival_nonneg ps) as HM.
  pose proof (initSim_inv S sentinel ps Hps) as Hinv.
  destruct (simLoop_terminates sentinel (maxArrival ps)
              (maxArrival ps + totalBurst ps) (length ps) Hs Hbound step Hstep
              (Z.to_nat (maxArrival ps + totalBurst ps)) (initSim S ps) Hinv)
    as (s' & Hs' & _); [|eauto].
  unfold potential. simpl in *. rewrite totalBurst_sortSlice in *. lia.
Qed.

(** ** Termination of round-robin *)

Section RoundRobin.

Variable n : nat.

Lemma rr_weight_alter (f : Process -> Process) (ps : list Process)
    (index : nat) (q : list nat) :
  index ∉ q ->
  rr_weight (alter f index ps) <$> q = rr_weight ps <$> q.
Proof.
  intros Hq. apply list_fmap_ext. intros k i Hi. unfold rr_weight.
  rewrite list_lookup_total_alter_ne; [done|].
  intros ->. apply Hq. by eapply list_elem_of_lookup_2.
Qed.

Lemma rr_potential_nonneg (s : RR.state) : 0 <= rr_potential s.
Proof.
  unfold rr_potential. apply sumZ_nonneg, Forall_fmap, Forall_forall.
  intros i _. unfold rr_weight. simpl. lia.
Qed.

Lemma rr_progress (s : RR.state) :
  rr_inv n s -> RR.numCompleted s < Z.of_nat n ->
  exists s', RR.step s = Some s' /\ rr_inv n s' /\
    rr_potential s' + 1 = rr_potential s.
Proof.
  intros [Hnd Hlen Hc Hr] Hlt. unfold RR.step, rr_potential.
  destruct (RR.queue s) as [|index q] eqn:Hq; [simpl in *; lia|].
  apply NoDup_cons in Hnd as [Hnotin Hnd]. simpl in Hc.
  set (status1 := if decide (StartTime (RR.status s !!! index) = 0)
                  then alter (setStartTime (RR.currentTime s)) index (RR.status s)
                  else RR.status s).
  case_decide as Hb.
  - eexists. split; [done|]. simpl. split.
    + split; simpl.
      * apply NoDup_app. split; [done|]. split; [|apply NoDup_singleton].
        intros i Hi Hi'. apply list_elem_of_singleton in Hi'. by subst.
      * by rewrite length_alter.
      * rewrite length_app. simpl. lia.
      * apply Forall_alter; [done|]. intros p _ _. simpl. apply sub64_range.
    + rewrite fmap_app, sumZ_app. csimpl.
      rewrite rr_weight_alter by done. unfold rr_weight at 2 3.
      destruct (decide (index < length (RR.processes s))%nat) as [Hi|Hi].
      * rewrite list_lookup_total_alter_eq by done. simpl.
        pose proof (Forall_lookup_total_1 _ _ _ Hr Hi) as Hin. simpl in Hin.
        rewrite sub64_small; [lia|].
        unfold in_int64, MinInt64, MaxInt64 in *. lia.
      * exfalso. rewrite list_lookup_total_alt in Hb.
        rewrite (proj2 (lookup_ge_None _ _)) in Hb by lia.
        cbv in Hb. congruence.
  - eexists. split; [done|]. simpl. split.
    + split; simpl; try done.
      * by rewrite length_alter.
      * lia.
      * apply Forall_alter; [done|]. intros p _ _. simpl.
        unfold in_int64, MinInt64, MaxInt64. lia.
    + rewrite rr_weight_alter by done. unfold rr_weight at 2.
      change (list_fmap nat Z (rr_weight (RR.processes s)) q)
        with (rr_weight (RR.processes s) <$> q).
      lia.
Qed.

Lemma RR_loop_terminates (fuel : nat) (s : RR.state) :
  rr_inv n s -> rr_potential s <= Z.of_nat fuel ->
  exists s', RR.loop fuel n s = Done s'.
Proof.
  revert s. induction fuel as [|fuel IH]; intros s Hinv Hpot.
  - simpl. case_decide as Hlt; [|eauto].
    destruct (rr_progress s Hinv Hlt) as (s' & _ & _ & Hdec).
    pose proof (rr_potential_nonneg s'). lia.
  - simpl. case_decide as Hlt; [|eauto].
    destruct (rr_progress s Hinv Hlt) as (s' & -> & Hinv' & Hdec).
    apply IH; [done|lia].
Qed.

End RoundRobin.

Lemma lookup_total_seq_fmap (ps : list Process) :
  (fun i => ps !!! i) <$> seq 0 (length ps) = ps.
Proof.
  apply list_eq. intros i. rewrite list_lookup_fmap.
  destruct (decide (i < length ps)%nat) as [Hi|Hi].
  - rewrite lookup_seq_lt by done. simpl.
    symmetry. by apply list_lookup_lookup_total_lt.
  - rewrite lookup_seq_ge by lia. simpl. symmetry.
    apply lookup_ge_None. lia.
Qed.

Lemma RR_init_potential (ps : list Process) :
  Forall (fun p => 1 <= BurstDuration p) ps ->
  rr_potential (RR.init ps) = totalBurst ps.
Proof.
  intros Hps. unfold rr_potential, totalBurst. simpl.
  transitivity (sumZ (BurstDuration <$> ((fun i => ps !!! i) <$> seq 0 (length ps))));
    [|by rewrite lookup_total_seq_fmap].
  rewrite <- list_fmap_compose. f_equal.
  apply list_fmap_ext. intros k i Hi. unfold rr_weight. simpl.
  apply lookup_seq in Hi as [-> Hi]. simpl.
  pose proof (Forall_lookup_total_1 _ _ _ Hps Hi) as Hb. simpl in Hb. lia.
Qed.

Lemma RR_terminates (ps : list Process) (fuel : nat) :
  Forall (fun p => 1 <= BurstDuration p <= MaxInt64) ps ->
  totalBurst ps <= Z.of_nat fuel ->
  exists out, RRSchedule fuel ps = Done out.
Proof.
  intros Hps Hfuel.
  destruct (RR_loop_terminates (length ps) fuel (RR.init ps)) as [s' Hs'].
  - split; simpl.
    + apply NoDup_seq.
    + done.
    + rewrite length_seq. lia.
    + eapply Forall_impl; [exact Hps|]. simpl.
      unfold in_int64, MinInt64, MaxInt64. lia.
  - rewrite RR_init_potential; [done|].
    eapply Forall_impl; [exact Hps|]. simpl. lia.
  - unfold RRSchedule. rewrite Hs'. simpl. eauto.
Qed.

Lemma length_le_totalBurst (ps : list Process) :
  Forall (fun p => 1 <= BurstDuration p) ps ->
  Z.of_nat (length ps) <= totalBurst ps.
Proof.
  unfold totalBurst. induction 1 as [|p ps Hp _ IH]; [done|].
  rewrite fmap_cons, sumZ_cons, length_cons. lia.
Qed.

(** C7 (as amended).  For every input whose burst durations lie between 1
    and 998 (below the initial [shortestJobDuration] of
    [SJFPrioritySchedule]) and whose latest arrival plus total burst fits an
    [int64], each of the four simulations ends within that many loop
    iterations: latest arrival (idle units) plus total burst (work). *)
Theorem simulations_terminate (S : Sorter) (ps : list Process) :
  Forall (fun p => 1 <= BurstDuration p < SJFPriority.sentinel) ps ->
  maxArrival ps + totalBurst ps <= MaxInt64 ->
  let units := Z.to_nat (maxArrival ps + totalBurst ps) in
  (length (fcfsSchedule (FCFSSchedule ps)) <= units)%nat /\
  (exists out, SJFSchedule S units ps = Done out) /\
  (exists out, SJFPrioritySchedule S units ps = Done out) /\
  (exists out, RRSchedule units ps = Done out).
Proof.
  intros Hps Hbound units.
  pose proof (maxArrival_nonneg ps) as HM.
  assert (Hpos : Forall (fun p => 1 <= BurstDuration p) ps).
  { eapply Forall_impl; [exact Hps|]. simpl. lia. }
  pose proof (length_le_totalBurst ps Hpos) as Hlen.
  split; [|split; [|split]].
  - destruct (FCFS_run_lengths ps) as [Hl _].
    unfold FCFSSchedule. cbn [fcfsSchedule]. rewrite Hl. unfold units. lia.
  - destruct (sim_terminates S SJF.sentinel SJF.step ps) as [s' Hs']; try done.
    + apply SJF_step_tick.
    + eapply Forall_impl; [exact Hps|]. simpl.
      unfold SJF.sentinel, SJFPriority.sentinel, MaxInt64. lia.
    + unfold SJFSchedule, SJF.loop. fold units in Hs'. rewrite Hs'. simpl. eauto.
  - destruct (sim_terminates S SJFPriority.sentinel SJFPriority.step ps)
      as [s' Hs']; try done.
    + apply SJFPriority_step_tick.
    + unfold SJFSchedule, SJFPriority.loop. fold units in Hs'.
      unfold SJFPrioritySchedule, SJFPriority.loop. rewrite Hs'. simpl. eauto.
  - apply RR_terminates.
    + eapply Forall_impl; [exact Hps|]. simpl.
      unfold SJFPriority.sentinel, MaxInt64. lia.
    + unfold units. lia.
Qed.

Lemma simulations_terminate_witness :
  let ps := [mkProcess 1 0 5 0; mkProcess 2 1 3 0] in
  (length (fcfsSchedule (FCFSSchedule ps)) <= 9)%nat /\
  (exists out, SJFSchedule insertionSorter 9 ps = Done out) /\
  (exists out, SJFPrioritySchedule insertionSorter 9 ps = Done out) /\
  (exists out, RRSchedule 9 ps = Done out).
Proof.
  apply (simulations_terminate insertionSorter
           [mkProcess 1 0 5 0; mkProcess 2 1 3 0]).
  - repeat constructor; simpl; unfold SJFPriority.sentinel; lia.
  - vm_compute. congruence.
Defined.

(** A process of burst 999 is never chosen by the scan of
    [SJFPrioritySchedule]: no amount of fuel ends the loop. *)
Lemma SJFPriority_burst_999_loops (fuel : nat) (t : Z) :
  simLoop SJFPriority.step fuel 1
    (mkSimState [mkProcess 1 0 999 0] [zeroStatus] t 0 0 0) = OutOfFuel.
Proof.
  revert t. induction fuel as [|fuel IH]; intros t; [done|].
  cbn [simLoop numCompleted]. rewrite decide_True by lia.
  assert (SJFPriority.step (mkSimState [mkProcess 1 0 999 0] [zeroStatus] t 0 0 0)
          = mkSimState [mkProcess 1 0 999 0] [zeroStatus] (add64 t 1) 0 0 0) as ->.
  { unfold SJFPriority.step, shortestJob, SJFPriority.sentinel.
    cbn [scan currentTime processesBurst status BurstDuration].
    rewrite decide_False by lia. done. }
  apply IH.
Qed.

(** C7 as stated fails: positive bursts do not suffice, with a burst of 999
    [SJFPrioritySchedule] runs forever. *)
Lemma simulations_terminate_counterexample :
  ~ (forall (S : Sorter) (ps : list Process),
       Forall (fun p => 0 < BurstDuration p) ps ->
       exists fuel out, SJFPrioritySchedule S fuel ps = Done out).
Proof.
  intros H.
  destruct (H insertionSorter [mkProcess 1 0 999 0]) as (fuel & out & Hout).
  - repeat constructor.
  - unfold SJFPrioritySchedule, SJFPriority.loop in Hout.
    change (initSim insertionSorter [mkProcess 1 0 999 0])
      with (mkSimState [mkProcess 1 0 999 0] [zeroStatus] 0 0 0 0) in Hout.
    change (length [mkProcess 1 0 999 0]) with 1%nat in Hout.
    rewrite SJFPriority_burst_999_loops in Hout. done.
Qed.

(** ** The Priority field plays no part in [SJFPrioritySchedule] *)

Lemma scan_erasePriority (t : Z) (pb : list Process) :
  forall (st : list ProcessStatus) (i : nat) (idx : option nat) (dur : Z),
    scan t i (erasePriority <$> pb) st idx dur = scan t i pb st idx dur.
Proof.
  induction pb as [|p pb IH]; intros [|s st] i idx dur; csimpl; try done.
  case_decide; apply IH.
Qed.

Lemma lookup_total_erasePriority (pb : list Process) (j : nat) :
  (erasePriority <$> pb) !!! j = erasePriority (pb !!! j).
Proof.
  rewrite !list_lookup_total_alt, list_lookup_fmap.
  by destruct (pb !! j).
Qed.

Lemma alter_decrement_erasePriority (pb : list Process) (j : nat) :
  alter decrement j (erasePriority <$> pb)
  = erasePriority <$> alter decrement j pb.
Proof. symmetry. apply list_fmap_alter. by apply Forall_forall. Qed.

Lemma SJFPriority_step_erasePriority (s : SimState) :
  SJFPriority.step (eraseState s) = eraseState (SJFPriority.step s).
Proof.
  unfold SJFPriority.step, shortestJob.
  cbn [eraseState currentTime processesBurst status totalWaitTime
       totalTurnaroundTime numCompleted].
  rewrite scan_erasePriority.
  destruct (scan _ _ _ _ _ _) as [j|]; [|done].
  rewrite alter_decrement_erasePriority, !lookup_total_erasePriority.
  cbn [erasePriority setPriority ProcessID BurstDuration ArrivalTime].
  repeat case_decide; done.
Qed.

Lemma simLoop_erasePriority (fuel n : nat) (s : SimState) :
  simLoop SJFPriority.step fuel n (eraseState s)
  = outcome_map eraseState (simLoop SJFPriority.step fuel n s).
Proof.
  revert s. induction fuel as [|fuel IH]; intros s; simpl;
    case_decide; try done.
  by rewrite SJFPriority_step_erasePriority, IH.
Qed.

Lemma sortSlice_erasePriority (S : Sorter) (ps : list Process) :
  sortSlice S (erasePriority <$> ps) = erasePriority <$> sortSlice S ps.
Proof.
  unfold sortSlice. rewrite <- !list_fmap_compose.
  replace (ArrivalTime ∘ erasePriority) with ArrivalTime by done.
  apply list_fmap_ext. intros k i _. simpl.
  change zeroProcess with (erasePriority zeroProcess) at 1.
  apply (map_nth erasePriority).
Qed.

Lemma initSim_erasePriority (S : Sorter) (ps : list Process) :
  initSim S (erasePriority <$> ps) = eraseState (initSim S ps).
Proof.
  unfold initSim, eraseState. simpl.
  by rewrite sortSlice_erasePriority, length_fmap.
Qed.

Lemma simOutput_erasePriority (ps pc : list Process) (s : SimState) :
  withoutPriority (simOutput (erasePriority <$> ps) (erasePriority <$> pc)
                     (eraseState s))
  = withoutPriority (simOutput ps pc s).
Proof.
  unfold withoutPriority, simOutput. simpl.
  rewrite length_fmap. f_equal.
  - generalize (status s). revert pc.
    induction (processesBurst s) as [|p pb IH]; intros [|c pc] [|x st];
      csimpl; try done.
    f_equal. apply IH.
  - generalize (status s).
    induction (processesBurst s) as [|p pb IH]; intros [|x st]; csimpl; try done.
    f_equal. apply IH.
  - rewrite <- list_fmap_compose. apply list_fmap_ext. by intros k [].
Qed.

Lemma SJFPrioritySchedule_erasePriority (S : Sorter) (fuel : nat)
    (ps : list Process) :
  outcome_map withoutPriority (SJFPrioritySchedule S fuel (erasePriority <$> ps))
  = outcome_map withoutPriority (SJFPrioritySchedule S fuel ps).
Proof.
  unfold SJFPrioritySchedule, SJFPriority.loop.
  rewrite initSim_erasePriority, sortSlice_erasePriority, length_fmap.
  rewrite simLoop_erasePriority.
  destruct (simLoop SJFPriority.step fuel (length ps) (initSim S ps)); simpl;
    try done.
  f_equal. apply simOutput_erasePriority.
Qed.

(** C9.  Two inputs that differ in their [Priority] values only are given
    the same table (start and end times, wait, turnaround, exit), the same
    totals, count and final time (the operands of the averages and of the
    throughput) and the same Gantt timeline by [SJFPrioritySchedule], the
    Priority column apart; with the same fuel, both runs end or neither. *)
Theorem SJFPriority_ignores_Priority (S : Sorter) (fuel : nat)
    (ps ps' : list Process) :
  setPriority 0 <$> ps = setPriority 0 <$> ps' ->
  outcome_map withoutPriority (SJFPrioritySchedule S fuel ps)
  = outcome_map withoutPriority (SJFPrioritySchedule S fuel ps').
Proof.
  intros Heq.
  rewrite <- (SJFPrioritySchedule_erasePriority S fuel ps).
  rewrite <- (SJFPrioritySchedule_erasePriority S fuel ps').
  unfold erasePriority. by rewrite Heq.
Qed.

Lemma SJFPriority_ignores_Priority_witness :
  outcome_map withoutPriority
    (SJFPrioritySchedule insertionSorter 5
       [mkProcess 1 0 3 7; mkProcess 2 1 1 2])
  = outcome_map withoutPriority
      (SJFPrioritySchedule insertionSorter 5
         [mkProcess 1 0 3 0; mkProcess 2 1 1 9]).
Proof.
  apply (SJFPriority_ignores_Priority insertionSorter 5
           [mkProcess 1 0 3 7; mkProcess 2 1 1 2]
           [mkProcess 1 0 3 0; mkProcess 2 1 1 9]).
  reflexivity.
Defined.

(** ** What a run of the time-stepped simulators leaves unchanged *)

Lemma simLoop_invariant (P : SimState -> Prop) (step : SimState -> SimState) :
  (forall s, P s -> P (step s)) ->
  forall (fuel n : nat) (s s' : SimState),
    P s -> simLoop step fuel n s = Done s' -> P s'.
Proof.
  intros Hstep fuel n. induction fuel as [|fuel IH]; intros s s' Hs; simpl;
    case_decide; try done; try (by intros [= <-]).
  apply IH. by apply Hstep.
Qed.

Lemma ProcessID_alter_decrement (j : nat) (pb : list Process) :
  ProcessID <$> alter decrement j pb = ProcessID <$> pb.
Proof.
  rewrite (list_fmap_alter ProcessID decrement id).
  - by apply list_alter_id.
  - by apply Forall_forall.
Qed.

(** An iteration keeps the identifiers in place and the length of [status]. *)
Lemma tick_keeps_ids (sentinel : Z) (s s' : SimState) :
  tick sentinel s s' ->
  ProcessID <$> processesBurst s' = ProcessID <$> processesBurst s /\
  length (status s') = length (status s).
Proof.
  assert (Hlen : forall a b, ends a = ends b -> length (status a) = length (status b)).
  { unfold ends. intros a b H. apply (f_equal length) in H.
    by rewrite !length_fmap in H. }
  intros [? Hpb He ? ?|j ? Hpb ? He ? ?|j ? Hpb ? He ? ?]; rewrite Hpb.
  - split; [done|by apply Hlen].
  - split; [apply ProcessID_alter_decrement|by apply Hlen].
  - split; [apply ProcessID_alter_decrement|].
    apply (f_equal length) in He. unfold ends in He.
    by rewrite length_alter, !length_fmap in He.
Qed.

Lemma simSlice_PIDs (pb : list Process) (st : list ProcessStatus) :
  length pb = length st ->
  PID <$> zip_with simSlice pb st = ProcessID <$> pb.
Proof.
  revert st. induction pb as [|p pb IH]; intros [|x st] Hlen; csimpl in *;
    try done.
  f_equal. apply IH. lia.
Qed.

Lemma sim_gantt_PIDs (S : Sorter) (sentinel : Z) (step : SimState -> SimState)
    (fuel : nat) (ps : list Process) (s' : SimState) :
  (forall s, tick sentinel s (step s)) ->
  simLoop step fuel (length ps) (initSim S ps) = Done s' ->
  PID <$> zip_with simSlice (processesBurst s') (status s')
  = ProcessID <$> sortSlice S ps.
Proof.
  intros Hstep Hrun.
  pose (P := fun s : SimState =>
    ProcessID <$> processesBurst s = ProcessID <$> sortSlice S ps /\
    length (status s) = length ps).
  assert (HP : P s').
  { apply (simLoop_invariant P step) with fuel (length ps) (initSim S ps);
      [|by (split; simpl; [|apply length_replicate])|done].
    intros s [Hid Hlen]. destruct (tick_keeps_ids _ _ _ (Hstep s)) as [Hid' Hlen'].
    split; congruence. }
  destruct HP as [Hid Hlen]. rewrite simSlice_PIDs; [done|].
  apply (f_equal length) in Hid. rewrite !length_fmap, length_sortSlice in Hid.
  lia.
Qed.

(** What the two schedulers keep of it.  [FCFSSchedule] and [SJFSchedule]
    emit one [TimeSlice] per process: slice [i] of FCFS carries the
    identifier of process [i], and the slices of SJF carry the identifiers of
    the processes in the order of the arrival sort.  In [FCFSSchedule] the
    slice of a process with [ArrivalTime > 0], and that of a first process
    with [ArrivalTime = 0], spans the burst duration (on 64 bits). *)
Theorem nonpreemptive_slices (S : Sorter) (ps : list Process) :
  Forall wf_process ps ->
  PID <$> fcfsGantt (FCFSSchedule ps) = ProcessID <$> ps /\
  (forall (i : nat) (p : Process) (sl : TimeSlice),
     ps !! i = Some p ->
     fcfsGantt (FCFSSchedule ps) !! i = Some sl ->
     0 < ArrivalTime p \/ (i = 0%nat /\ ArrivalTime p = 0) ->
     sub64 (Stop sl) (Start sl) = BurstDuration p) /\
  (forall (fuel : nat) (out : Output),
     SJFSchedule S fuel ps = Done out ->
     PID <$> outGantt out = ProcessID <$> sortSlice S ps /\
     PID <$> outGantt out ≡ₚ ProcessID <$> ps).
Proof.
  intros Hwf. split; [apply FCFS_gantt_PIDs|]. split.
  - intros i p sl Hp Hsl Hcase.
    apply (FCFS_slice_length ps i p sl); try done.
    pose proof (Forall_lookup_1 _ _ _ _ Hwf Hp) as Hwfp.
    unfold wf_process in Hwfp. tauto.
  - intros fuel out Hout. unfold SJFSchedule, SJF.loop in Hout.
    destruct (simLoop SJF.step fuel (length ps) (initSim S ps)) as [s'| |] eqn:Hrun;
      try done.
    simpl in Hout. injection Hout as <-. cbn [outGantt simOutput].
    rewrite (sim_gantt_PIDs S SJF.sentinel SJF.step fuel ps s' SJF_step_tick Hrun).
    split; [done|]. by rewrite (sortSlice_Permutation S ps).
Qed.

Lemma nonpreemptive_slices_witness :
  let ps := [mkProcess 1 0 5 0; mkProcess 2 1 3 0] in
  PID <$> fcfsGantt (FCFSSchedule ps) = ProcessID <$> ps /\
  (forall (i : nat) (p : Process) (sl : TimeSlice),
     ps !! i = Some p ->
     fcfsGantt (FCFSSchedule ps) !! i = Some sl ->
     0 < ArrivalTime p \/ (i = 0%nat /\ ArrivalTime p = 0) ->
     sub64 (Stop sl) (Start sl) = BurstDuration p) /\
  (forall (fuel : nat) (out : Output),
     SJFSchedule insertionSorter fuel ps = Done out ->
     PID <$> outGantt out = ProcessID <$> sortSlice insertionSorter ps /\
     PID <$> outGantt out ≡ₚ ProcessID <$> ps).
Proof.
  apply (nonpreemptive_slices insertionSorter
           [mkProcess 1 0 5 0; mkProcess 2 1 3 0]).
  repeat constructor; vm_compute; congruence.
Defined.

(** C4, where the code departs from it.  [FCFSSchedule] assigns
    [waitingTime] under the guard [ArrivalTime > 0] only, so that a process
    arriving at 0 behind another keeps the wait of the iteration before: of
    two processes arriving at 0 the second, of burst 3, is given the slice
    from 0 to 8, while its row reports the exit time 3.  [SJFSchedule] puts
    the last dispatch in [Start] and the turnaround in [Stop]: a lone process
    of burst 5 arriving at 0 is given the slice from 4 to 5. *)
Theorem nonpreemptive_slice_length_broken :
  FCFSSchedule [mkProcess 1 0 5 0; mkProcess 2 0 3 0]
  = mkFCFSOutput [mkRow 1 0 5 0 0 5 5; mkRow 2 0 3 0 0 3 3]
      [mkTimeSlice 1 0 5; mkTimeSlice 2 0 8] 2 3
      [mkProcess 1 0 5 0; mkProcess 2 0 3 0] /\
  sub64 (Stop (mkTimeSlice 2 0 8)) (Start (mkTimeSlice 2 0 8))
    <> BurstDuration (mkProcess 2 0 3 0) /\
  SJFSchedule insertionSorter 5 [mkProcess 1 0 5 0]
  = Done (mkOutput [mkRow 1 0 5 0 4 5 5] [mkTimeSlice 1 4 5] 4 5 1 5
            [mkProcess 1 0 5 0]) /\
  sub64 (Stop (mkTimeSlice 1 4 5)) (Start (mkTimeSlice 1 4 5))
    <> BurstDuration (mkProcess 1 0 5 0).
Proof. repeat split; vm_compute; congruence. Qed.

(** ** Turnaround, wait and burst *)

(** Round-robin derives the wait from the turnaround and the original burst:
    its rows keep [Turnaround = Wait + Burst], on 64 bits. *)
Lemma RR_turnaround_identity (fuel : nat) (ps : list Process) (out : Output)
    (r : Row) :
  RRSchedule fuel ps = Done out ->
  r ∈ outSchedule out ->
  rowTurnaround r = add64 (rowWait r) (rowBurst r).
Proof.
  unfold RRSchedule. intros Hout Hr.
  destruct (RR.loop fuel (length ps) (RR.init ps)) as [s'| |]; try done.
  simpl in Hout. injection Hout as <-. cbn [outSchedule RR.output] in Hr.
  apply elem_of_zip_with in Hr as ([pb pc] & st & -> & _ & _). simpl.
  symmetry. apply add64_sub64_cancel, sub64_range.
Qed.

(** C1, where the code departs from it.  [SJFSchedule] overwrites
    [StartTime] at every unit a process runs, so that the wait it reports is
    the turnaround minus one: a lone process of burst 5 arriving at 0 is
    given wait 4 and turnaround 5.  [SJFPrioritySchedule] resets a start
    time of 1 to 0: a lone process of burst 5 arriving at 1 is given wait -1
    and turnaround 5. *)
Theorem SJF_turnaround_identity_broken :
  SJFSchedule insertionSorter 5 [mkProcess 1 0 5 0]
  = Done (mkOutput [mkRow 1 0 5 0 4 5 5] [mkTimeSlice 1 4 5] 4 5 1 5
            [mkProcess 1 0 5 0]) /\
  rowTurnaround (mkRow 1 0 5 0 4 5 5)
    <> add64 (rowWait (mkRow 1 0 5 0 4 5 5)) (rowBurst (mkRow 1 0 5 0 4 5 5)) /\
  SJFPrioritySchedule insertionSorter 6 [mkProcess 1 1 5 0]
  = Done (mkOutput [mkRow 1 0 5 1 (-1) 5 6] [mkTimeSlice 1 0 5] (-1) 5 1 6
            [mkProcess 1 1 5 0]) /\
  rowTurnaround (mkRow 1 0 5 1 (-1) 5 6)
    <> add64 (rowWait (mkRow 1 0 5 1 (-1) 5 6))
         (rowBurst (mkRow 1 0 5 1 (-1) 5 6)).
Proof. vm_compute. repeat split; congruence. Qed.

(** ** The caller's slice *)

Lemma FCFS_keeps_processes (ps : list Process) :
  fcfsProcesses (FCFSSchedule ps) = ps.
Proof. done. Qed.

Lemma SJF_keeps_processes (S : Sorter) (fuel : nat) (ps : list Process)
    (out : Output) :
  SJFSchedule S fuel ps = Done out -> outProcesses out = ps.
Proof.
  unfold SJFSchedule. destruct (SJF.loop _ _ _); try done.
  by intros [= <-].
Qed.

Lemma SJFPriority_keeps_processes (S : Sorter) (fuel : nat)
    (ps : list Process) (out : Output) :
  SJFPrioritySchedule S fuel ps = Done out -> outProcesses out = ps.
Proof.
  unfold SJFPrioritySchedule. destruct (SJFPriority.loop _ _ _); try done.
  by intros [= <-].
Qed.

(** C3, where the code departs from it.  [RRSchedule] takes its two copies
    and then decrements [processes[index].BurstDuration], the caller's
    records: on return every burst duration of the input reads 0. *)
Theorem RR_overwrites_processes :
  exists out : Output,
    RRSchedule 6 [mkProcess 1 0 4 0; mkProcess 2 0 2 0] = Done out /\
    outProcesses out = [mkProcess 1 0 0 0; mkProcess 2 0 0 0] /\
    outProcesses out <> [mkProcess 1 0 4 0; mkProcess 2 0 2 0].
Proof. eexists. vm_compute. repeat split; congruence. Qed.

(** ** The Gantt timeline *)

Lemma totalBurst_positive (ps : list Process) :
  Forall (fun p => 0 <= ArrivalTime p <= MaxInt64 /\ 0 < BurstDuration p) ps ->
  0 <= totalBurst ps.
Proof.
  intros H. apply sumZ_nonneg, Forall_fmap.
  eapply Forall_impl; [exact H|]. simpl. lia.
Qed.

Lemma FCFS_step_ordered (st : FCFS.state) (p : Process) :
  FCFS_ordered st ->
  0 <= ArrivalTime p <= MaxInt64 -> 0 < BurstDuration p ->
  FCFS.serviceTime st + BurstDuration p <= MaxInt64 ->
  FCFS_ordered (FCFS.step st p).
Proof.
  intros (Hsvc & Hw & Hle & Hg) Harr Hb Hfit.
  assert (Hsvc' : add64 (FCFS.serviceTime st) (BurstDuration p)
                  = FCFS.serviceTime st + BurstDuration p).
  { apply add64_small. unfold in_int64, MinInt64, MaxInt64 in *. lia. }
  assert (Hwait : in_int64 (FCFS.wait_of st p) /\
                  FCFS.wait_of st p <= FCFS.serviceTime st /\
                  add64 (FCFS.wait_of st p) (ArrivalTime p)
                    <= FCFS.serviceTime st).
  { unfold FCFS.wait_of. case_decide as Hpos.
    - assert (Hsub : sub64 (FCFS.serviceTime st) (ArrivalTime p)
                     = FCFS.serviceTime st - ArrivalTime p).
      { apply sub64_small. unfold in_int64, MinInt64, MaxInt64 in *. lia. }
      rewrite Hsub. split; [unfold in_int64, MinInt64, MaxInt64 in *; lia|].
      split; [lia|].
      rewrite add64_small; [lia|].
      unfold in_int64, MinInt64, MaxInt64 in *. lia.
    - assert (ArrivalTime p = 0) as -> by lia.
      split; [done|]. split; [done|].
      rewrite add64_small; [lia|].
      unfold in_int64, MinInt64, MaxInt64 in *. lia. }
  destruct Hwait as (Hw' & Hle' & Hstart).
  unfold FCFS_ordered, FCFS.step. cbn [FCFS.serviceTime FCFS.waitingTime FCFS.gantt].
  rewrite Hsvc'. split; [lia|]. split; [done|]. split; [lia|].
  apply Forall_app. split; [done|]. apply Forall_singleton. simpl. lia.
Qed.

Lemma FCFS_foldl_ordered (ps : list Process) (st : FCFS.state) :
  Forall (fun p => 0 <= ArrivalTime p <= MaxInt64 /\ 0 < BurstDuration p) ps ->
  FCFS_ordered st ->
  FCFS.serviceTime st + totalBurst ps <= MaxInt64 ->
  FCFS_ordered (foldl FCFS.step st ps).
Proof.
  revert st. induction ps as [|p ps IH]; intros st Hps Hst Hfit; [done|].
  inversion Hps as [|? ? [Harr Hb] Hps']; subst.
  pose proof (totalBurst_positive ps Hps') as Hnn.
  unfold totalBurst in Hfit. rewrite fmap_cons, sumZ_cons in Hfit.
  fold (totalBurst ps) in Hfit.
  assert (Hstep : FCFS_ordered (FCFS.step st p)).
  { apply FCFS_step_ordered; try done. lia. }
  simpl. apply IH; [done|done|].
  cbn [FCFS.step FCFS.serviceTime]. rewrite add64_small; [lia|].
  destruct Hst as (Hsvc & _). unfold in_int64, MinInt64, MaxInt64 in *. lia.
Qed.

(** In [FCFSSchedule] no slice stops before it starts, for non-negative
    arrival times and positive bursts whose sum fits an [int64]: a slice
    starts at the service time so far or at an earlier wait. *)
Lemma FCFS_slices_ordered (ps : list Process) :
  Forall (fun p => 0 <= ArrivalTime p <= MaxInt64 /\ 0 < BurstDuration p) ps ->
  totalBurst ps <= MaxInt64 ->
  Forall (fun sl => Start sl <= Stop sl) (fcfsGantt (FCFSSchedule ps)).
Proof.
  intros Hps Hfit.
  destruct (FCFS_foldl_ordered ps FCFS.init Hps) as (_ & _ & _ & Hg); [|done|done].
  repeat split; simpl; try done; try constructor.
  all: unfold MinInt64, MaxInt64; lia.
Qed.

(** C6, where the code departs from it.  The three time-stepped schedulers
    store the turnaround time in [Stop], not the end time: for a process of
    burst 1 arriving at 10, [SJFSchedule] and [SJFPrioritySchedule] emit the
    slice from 10 to 1 and [RRSchedule] the slice from 0 to -9. *)
Theorem gantt_stop_before_start :
  SJFSchedule insertionSorter 11 [mkProcess 1 10 1 0]
  = Done (mkOutput [mkRow 1 0 1 10 0 1 11] [mkTimeSlice 1 10 1] 0 1 1 11
            [mkProcess 1 10 1 0]) /\
  SJFPrioritySchedule insertionSorter 11 [mkProcess 1 10 1 0]
  = Done (mkOutput [mkRow 1 0 1 10 0 1 11] [mkTimeSlice 1 10 1] 0 1 1 11
            [mkProcess 1 10 1 0]) /\
  RRSchedule 1 [mkProcess 1 10 1 0]
  = Done (mkOutput [mkRow 1 0 1 10 (-10) (-9) 1] [mkTimeSlice 1 0 (-9)]
            (-10) (-9) 1 1 [mkProcess 1 10 0 0]) /\
  ~ (Start (mkTimeSlice 1 10 1) <= Stop (mkTimeSlice 1 10 1)) /\
  ~ (Start (mkTimeSlice 1 0 (-9)) <= Stop (mkTimeSlice 1 0 (-9))).
Proof. vm_compute. repeat split; congruence. Qed.

(** ** Round-robin on two processes *)

(** C8.  On [{1,0,4}; {2,0,2}] round-robin runs process 1 in unit 0,
    process 2 in unit 1, process 1 in unit 2, process 2 in unit 3, process 1
    in units 4 and 5; process 2 exits at 4 and process 1 at 6. *)
Theorem RR_interleaving :
  let ps := [mkProcess 1 0 4 0; mkProcess 2 0 2 0] in
  RR.dispatches 6 (length ps) (RR.init ps)
  = [(0, 1); (1, 2); (2, 1); (3, 2); (4, 1); (5, 1)] /\
  exists out : Output,
    RRSchedule 6 ps = Done out /\
    (fun r => (rowID r, rowExit r)) <$> outSchedule out = [(1, 6); (2, 4)] /\
    outTime out = 6.
Proof. split; [done|]. eexists. vm_compute. repeat split; congruence. Qed.

(** ** Loading *)

Lemma mustStrToInt_cases (s : string) :
  mustStrToInt s = Exit1 \/ exists i, mustStrToInt s = Loaded i.
Proof. unfold mustStrToInt. destruct (ParseInt s); eauto. Qed.

Lemma loadRow_in_bounds (row : list string) :
  (3 <= length row)%nat -> loadRow row <> IndexOutOfRange.
Proof.
  destruct row as [|s0 [|s1 [|s2 rest]]]; simpl; try lia. intros _.
  unfold loadRow. cbn [field lookup list_lookup mbind load_bind].
  destruct (mustStrToInt_cases s0) as [->|[i0 ->]]; [done|].
  destruct (mustStrToInt_cases s1) as [->|[i1 ->]]; [done|].
  destruct (mustStrToInt_cases s2) as [->|[i2 ->]]; [done|].
  case_decide as Hlen; [|done].
  destruct rest as [|s3 rest]; [simpl in Hlen; lia|].
  cbn [field lookup list_lookup mbind load_bind].
  destruct (mustStrToInt_cases s3) as [->|[i3 ->]]; done.
Qed.

Lemma loadRows_in_bounds (rows : list (list string)) :
  Forall (fun row => (3 <= length row)%nat) rows ->
  loadRows rows <> IndexOutOfRange.
Proof.
  induction 1 as [|row rows Hrow _ IH]; simpl; [done|].
  pose proof (loadRow_in_bounds row Hrow).
  destruct (loadRow row); try done.
  cbn [mbind load_bind]. destruct (loadRows rows); done.
Qed.

(** C10.  [loadProcesses] indexes fields 0, 1 and 2 of a row (and field 3
    of a row of four) whatever its length: when every row has three fields
    at least no index is out of range, and a row of two integer fields makes
    [rows[i][2]] panic, which is neither the error of the reader nor the
    exit of [mustStrToInt]. *)
Theorem loadProcesses_field_bounds :
  (forall rows : list (list string),
     Forall (fun row => (3 <= length row)%nat) rows ->
     loadProcesses (Some rows) <> IndexOutOfRange) /\
  (exists rows : list (list string),
     Exists (fun row => (length row < 3)%nat) rows /\
     loadProcesses (Some rows) = IndexOutOfRange /\
     loadProcesses (Some rows) <> ReadError /\
     loadProcesses (Some rows) <> Exit1).
Proof.
  split.
  - intros rows Hrows. by apply loadRows_in_bounds.
  - exists [["1"; "5"]]. split; [constructor; simpl; lia|].
    vm_compute. repeat split; congruence.
Qed.

Lemma loadProcesses_field_bounds_witness :
  loadProcesses (Some [["1"; "5"; "0"]; ["2"; "3"; "1"; "4"]])
  <> IndexOutOfRange.
Proof.
  apply (proj1 loadProcesses_field_bounds).
  repeat constructor; simpl; lia.
Defined.

(** * Further properties *)

(** ** Loading: what the rows become *)

Lemma digit_of_range (c : ascii) (d : Z) : digit_of c = Some d -> 0 <= d <= 9.
Proof. unfold digit_of. case_decide; intros [= <-]; lia. Qed.

Lemma parse_digits_nonneg (s : string) :
  forall acc v : Z, 0 <= acc -> parse_digits acc s = Some v -> 0 <= v.
Proof.
  induction s as [|c s IH]; intros acc v Hacc; simpl.
  - intros [= <-]. done.
  - destruct (digit_of c) as [d|] eqn:Hd; [|done].
    apply digit_of_range in Hd. apply IH. lia.
Qed.

(** [strconv.ParseInt(s, 10, 64)] yields 64-bit values only. *)
Lemma ParseInt_range (s : string) (z : Z) : ParseInt s = Some z -> in_int64 z.
Proof.
  unfold ParseInt. destruct s as [|c s]; [done|].
  set (body := if decide (c = "+"%char \/ c = "-"%char) then s else String c s).
  destruct body as [|c' body'] eqn:Hbody; [done|].
  destruct (parse_digits 0 (String c' body')) as [un|] eqn:Hun; [|done].
  apply parse_digits_nonneg in Hun; [|done].
  unfold in_int64, MinInt64, MaxInt64 in *.
  destruct (bool_decide (c = "-"%char)); case_decide; intros [= <-]; lia.
Qed.

Lemma loadRow_Loaded (row : list string) (p : Process) :
  loadRow row = Loaded p -> row_fields row p /\ wf_process p.
Proof.
  unfold loadRow, row_fields, field, mustStrToInt.
  destruct (row !! 0%nat) as [s0|]; cbn [mbind load_bind option_bind]; [|done].
  destruct (ParseInt s0) as [i0|] eqn:H0; cbn [mbind load_bind]; [|done].
  destruct (row !! 1%nat) as [s1|]; cbn [mbind load_bind option_bind]; [|done].
  destruct (ParseInt s1) as [i1|] eqn:H1; cbn [mbind load_bind]; [|done].
  destruct (row !! 2%nat) as [s2|]; cbn [mbind load_bind option_bind]; [|done].
  destruct (ParseInt s2) as [i2|] eqn:H2; cbn [mbind load_bind]; [|done].
  apply ParseInt_range in H0, H1, H2.
  case_decide as Hlen.
  - destruct (row !! 3%nat) as [s3|]; cbn [mbind load_bind option_bind]; [|done].
    destruct (ParseInt s3) as [i3|] eqn:H3; cbn [mbind load_bind]; [|done].
    intros [= <-]. unfold wf_process.
    cbn [mbind option_bind ProcessID BurstDuration ArrivalTime Priority].
    apply ParseInt_range in H3. tauto.
  - intros [= <-]. unfold wf_process.
    cbn [mbind option_bind ProcessID BurstDuration ArrivalTime Priority].
    assert (in_int64 0) by (unfold in_int64, MinInt64, MaxInt64; lia).
    tauto.
Qed.

(** X1.  When [loadProcesses] returns a slice, it has one process per row,
    in order; column 0 is the identifier, column 1 the burst duration and
    column 2 the arrival time; the priority is column 3 of a row of exactly
    four fields and 0 for any other row (a fifth field hides the fourth);
    every field read is a 64-bit value. *)
Theorem loadProcesses_fields (rows : list (list string)) (ps : list Process) :
  loadProcesses (Some rows) = Loaded ps ->
  Forall2 (fun row p => row_fields row p /\ wf_process p) rows ps.
Proof.
  simpl. revert ps. induction rows as [|row rows IH]; intros ps; simpl.
  - intros [= <-]. constructor.
  - destruct (loadRow row) as [p| | |] eqn:Hrow; cbn [mbind load_bind]; try done.
    destruct (loadRows rows) as [ps'| | |]; cbn [mbind load_bind]; try done.
    intros [= <-]. constructor; [by apply loadRow_Loaded|by apply IH].
Qed.

Lemma loadProcesses_fields_witness :
  Forall2 (fun row p => row_fields row p /\ wf_process p)
    [["1"; "5"; "0"]; ["2"; "3"; "1"; "4"]; ["3"; "2"; "6"; "9"; "x"]]
    [mkProcess 1 0 5 0; mkProcess 2 1 3 4; mkProcess 3 6 2 0].
Proof.
  apply (loadProcesses_fields
           [["1"; "5"; "0"]; ["2"; "3"; "1"; "4"]; ["3"; "2"; "6"; "9"; "x"]]).
  reflexivity.
Defined.

(** ** Loading: when it exits *)

Lemma loadRow_cases (row : list string) :
  (3 <= length row)%nat ->
  (loadRow row = Exit1 /\ Exists (fun s => ParseInt s = None) (usedFields row)) \/
  (exists p, loadRow row = Loaded p /\
     Forall (fun s => is_Some (ParseInt s)) (usedFields row)).
Proof.
  destruct row as [|s0 [|s1 [|s2 rest]]]; simpl; try lia. intros _.
  unfold loadRow, usedFields, field, mustStrToInt.
  cbn [lookup list_lookup mbind load_bind take drop app].
  destruct (ParseInt s0) as [i0|] eqn:H0; cbn [mbind load_bind];
    [|left; split; [done|]; by apply Exists_cons_hd].
  destruct (ParseInt s1) as [i1|] eqn:H1; cbn [mbind load_bind];
    [|left; split; [done|]; by apply Exists_cons_tl, Exists_cons_hd].
  destruct (ParseInt s2) as [i2|] eqn:H2; cbn [mbind load_bind];
    [|left; split; [done|];
      by apply Exists_cons_tl, Exists_cons_tl, Exists_cons_hd].
  case_decide as Hlen.
  - destruct rest as [|s3 [|s4 rest]]; simpl in Hlen; try lia.
    cbn [lookup list_lookup mbind load_bind].
    destruct (ParseInt s3) as [i3|] eqn:H3; cbn [mbind load_bind].
    + right. eexists. split; [done|]. repeat constructor; by eexists.
    + left. split; [done|].
      by apply Exists_cons_tl, Exists_cons_tl, Exists_cons_tl, Exists_cons_hd.
  - right. eexists. split; [done|]. repeat constructor; by eexists.
Qed.

Lemma loadRows_cases (rows : list (list string)) :
  Forall (fun row => (3 <= length row)%nat) rows ->
  (loadRows rows = Exit1 /\
   Exists (fun row => Exists (fun s => ParseInt s = None) (usedFields row)) rows) \/
  (exists ps, loadRows rows = Loaded ps /\
     Forall (fun row => Forall (fun s => is_Some (ParseInt s)) (usedFields row))
       rows).
Proof.
  induction 1 as [|row rows Hrow _ IH]; simpl.
  - right. exists []. split; [done|constructor].
  - destruct (loadRow_cases row Hrow) as [[-> Hbad]|(p & -> & Hgood)];
      cbn [mbind load_bind].
    + left. split; [done|]. by apply Exists_cons_hd.
    + destruct IH as [[-> Hbad]|(ps & -> & Hrest)]; cbn [mbind load_bind].
      * left. split; [done|]. by apply Exists_cons_tl.
      * right. eexists. split; [done|]. by constructor.
Qed.

Lemma unparsed_not_all_parsed (rows : list (list string)) :
  Exists (fun row => Exists (fun s => ParseInt s = None) (usedFields row)) rows ->
  Forall (fun row => Forall (fun s => is_Some (ParseInt s)) (usedFields row)) rows ->
  False.
Proof.
  rewrite Exists_exists, Forall_forall. intros (row & Hin & Hbad) Hall.
  specialize (Hall row Hin). rewrite Exists_exists in Hbad.
  destruct Hbad as (s & Hs & Hnone). rewrite Forall_forall in Hall.
  destruct (Hall s Hs) as [z Hz]. congruence.
Qed.

(** X2.  On rows of three fields at least, [loadProcesses] exits with status
    1 exactly when one of the fields it converts is not a 64-bit decimal
    integer, and returns the slice exactly when all of them are; fields
    beyond the third are not looked at, but for the fourth of a row of
    four. *)
Theorem loadProcesses_exit (rows : list (list string)) :
  Forall (fun row => (3 <= length row)%nat) rows ->
  (loadProcesses (Some rows) = Exit1 <->
   Exists (fun row => Exists (fun s => ParseInt s = None) (usedFields row)) rows) /\
  ((exists ps, loadProcesses (Some rows) = Loaded ps) <->
   Forall (fun row => Forall (fun s => is_Some (ParseInt s)) (usedFields row))
     rows).
Proof.
  intros Hrows. simpl.
  destruct (loadRows_cases rows Hrows) as [[Hexit Hbad]|(ps & Hps & Hgood)].
  - split; [by split|]. split.
    + intros [ps Hps]. congruence.
    + intros Hall. destruct (unparsed_not_all_parsed rows Hbad Hall).
  - split; [|split; eauto]. split; [congruence|].
    intros Hbad. destruct (unparsed_not_all_parsed rows Hbad Hgood).
Qed.

Lemma loadProcesses_exit_witness :
  (loadProcesses (Some [["1"; "5"; "0"]; ["2"; "x"; "1"; "4"]]) = Exit1 <->
   Exists (fun row => Exists (fun s => ParseInt s = None) (usedFields row))
     [["1"; "5"; "0"]; ["2"; "x"; "1"; "4"]]) /\
  ((exists ps, loadProcesses (Some [["1"; "5"; "0"]; ["2"; "x"; "1"; "4"]])
               = Loaded ps) <->
   Forall (fun row => Forall (fun s => is_Some (ParseInt s)) (usedFields row))
     [["1"; "5"; "0"]; ["2"; "x"; "1"; "4"]]).
Proof.
  apply (loadProcesses_exit [["1"; "5"; "0"]; ["2"; "x"; "1"; "4"]]).
  repeat constructor; simpl; lia.
Defined.

(** ** The two helpers *)

(** X3.  [allCompleted] answers [true] exactly when no entry is [false]; in
    particular on the empty slice. *)
Theorem allCompleted_spec (completed : list bool) :
  allCompleted completed = true <-> Forall (fun c => c = true) completed.
Proof.
  induction completed as [|c completed IH]; simpl.
  - split; [constructor|done].
  - destruct c; simpl.
    + rewrite IH. split; [by constructor|]. by inversion 1.
    + split; [done|]. by inversion 1.
Qed.

Lemma copyRemainingTimeFrom_fits (src : list Process) :
  forall (i : nat) (dst : list Z),
    (i + length src <= length dst)%nat ->
    copyRemainingTimeFrom i dst src
    = Some (take i dst ++ (BurstDuration <$> src) ++ drop (i + length src) dst).
Proof.
  induction src as [|p src IH]; intros i dst Hfit; simpl in *.
  - rewrite Nat.add_0_r, take_drop. done.
  - rewrite decide_True by lia.
    rewrite IH by (rewrite length_insert; lia). f_equal.
    rewrite drop_insert_lt by lia.
    replace (S i + length src)%nat with (i + S (length src))%nat by lia.
    assert (Hi : (i < length dst)%nat) by lia.
    assert (Hx : <[i:=BurstDuration p]> dst !! i = Some (BurstDuration p))
      by (by apply list_lookup_insert_eq).
    rewrite (take_S_r _ _ _ Hx).
    rewrite take_insert_ge by lia. by rewrite <- app_assoc.
Qed.

Lemma copyRemainingTimeFrom_short (src : list Process) :
  forall (i : nat) (dst : list Z),
    (i <= length dst)%nat -> (length dst < i + length src)%nat ->
    copyRemainingTimeFrom i dst src = None.
Proof.
  induction src as [|p src IH]; intros i dst Hi Hshort; simpl in *; [lia|].
  case_decide; [|done]. apply IH; rewrite length_insert; lia.
Qed.

(** X4.  [copyRemainingTime] overwrites the first [len(src)] entries of
    [dst] with the burst durations of [src] and leaves the rest of [dst] as
    it was; when [dst] is shorter than [src] the assignment past its end
    panics. *)
Theorem copyRemainingTime_spec (dst : list Z) (src : list Process) :
  copyRemainingTime dst src =
    if decide (length src <= length dst)%nat
    then Some ((BurstDuration <$> src) ++ drop (length src) dst)
    else None.
Proof.
  unfold copyRemainingTime. case_decide.
  - by rewrite copyRemainingTimeFrom_fits.
  - apply copyRemainingTimeFrom_short; lia.
Qed.

(** ** First-come, first-serve: the table and the timeline *)

Lemma wrap64_add_r (a b : Z) : wrap64 (a + wrap64 b) = wrap64 (a + b).
Proof. rewrite (Z.add_comm a), wrap64_add_l. f_equal. lia. Qed.

(** X5.  [FCFSSchedule] does not sort: its table lists the processes in the
    order of the input, identifier, priority, burst and arrival as given. *)
Theorem FCFS_table_in_input_order (ps : list Process) :
  rowColumns <$> fcfsSchedule (FCFSSchedule ps) = processColumns <$> ps.
Proof.
  apply list_eq. intros i. rewrite !list_lookup_fmap.
  destruct (ps !! i) as [p|] eqn:Hp.
  - destruct (FCFS_tables_at ps i p Hp) as [-> _]. done.
  - apply lookup_ge_None in Hp.
    destruct (FCFS_run_lengths ps) as [Hl _].
    rewrite (proj2 (lookup_ge_None (fcfsSchedule (FCFSSchedule ps)) i)); [done|].
    unfold FCFSSchedule; cbn [fcfsSchedule]. lia.
Qed.

Lemma serviceBefore_range (ps : list Process) (i : nat) :
  in_int64 (serviceBefore ps i).
Proof.
  rewrite <- FCFS_before_serviceTime. unfold FCFS_before.
  apply FCFS_serviceTime_range. simpl. unfold in_int64, MinInt64, MaxInt64. lia.
Qed.

Lemma serviceBefore_S (ps : list Process) (i : nat) (p : Process) :
  ps !! i = Some p ->
  serviceBefore ps (S i) = add64 (serviceBefore ps i) (BurstDuration p).
Proof.
  intros Hp. unfold serviceBefore.
  rewrite (take_S_r ps i p Hp), fmap_app, foldl_app. done.
Qed.

(** X6.  [FCFSSchedule] inserts no idle time.  The slice of a process with
    a positive arrival time starts at the cumulative service time of the
    processes before it, whenever it arrives, and stops one burst later, at
    its exit time; its wait is negative exactly when it arrives after that
    start (the service time being non-negative). *)
Theorem FCFS_no_idle_time (ps : list Process) (i : nat) (p : Process)
    (r : Row) (sl : TimeSlice) :
  ps !! i = Some p ->
  fcfsSchedule (FCFSSchedule ps) !! i = Some r ->
  fcfsGantt (FCFSSchedule ps) !! i = Some sl ->
  0 < ArrivalTime p ->
  Start sl = serviceBefore ps i /\
  Stop sl = serviceBefore ps (S i) /\
  rowExit r = Stop sl /\
  (ArrivalTime p <= MaxInt64 -> 0 <= serviceBefore ps i ->
   (rowWait r < 0 <-> serviceBefore ps i < ArrivalTime p)).
Proof.
  intros Hp Hr Hsl Hpos.
  destruct (FCFS_tables_at ps i p Hp) as [Hrow Hslice].
  rewrite Hrow in Hr. rewrite Hslice in Hsl.
  injection Hr as <-. injection Hsl as <-.
  cbn [Start Stop rowExit rowWait FCFS_row FCFS_slice].
  unfold FCFS.wait_of. rewrite decide_True by done.
  rewrite FCFS_before_serviceTime.
  pose proof (serviceBefore_range ps i) as Hsvc.
  split; [by apply add64_sub64_cancel|].
  split; [by rewrite (serviceBefore_S ps i p Hp)|].
  split.
  - unfold add64, sub64. rewrite wrap64_add_l, wrap64_add_r. f_equal. lia.
  - intros Hmax Hnn. rewrite sub64_small; [lia|].
    unfold in_int64, MinInt64, MaxInt64 in *. lia.
Qed.

Lemma FCFS_no_idle_time_witness :
  Start (mkTimeSlice 2 1 2) = serviceBefore [mkProcess 1 0 1 0; mkProcess 2 10 1 0] 1 /\
  Stop (mkTimeSlice 2 1 2) = serviceBefore [mkProcess 1 0 1 0; mkProcess 2 10 1 0] 2 /\
  rowExit (mkRow 2 0 1 10 (-9) (-8) 2) = Stop (mkTimeSlice 2 1 2) /\
  (ArrivalTime (mkProcess 2 10 1 0) <= MaxInt64 ->
   0 <= serviceBefore [mkProcess 1 0 1 0; mkProcess 2 10 1 0] 1 ->
   (rowWait (mkRow 2 0 1 10 (-9) (-8) 2) < 0 <->
    serviceBefore [mkProcess 1 0 1 0; mkProcess 2 10 1 0] 1
      < ArrivalTime (mkProcess 2 10 1 0))).
Proof.
  apply (FCFS_no_idle_time [mkProcess 1 0 1 0; mkProcess 2 10 1 0] 1
           (mkProcess 2 10 1 0) (mkRow 2 0 1 10 (-9) (-8) 2) (mkTimeSlice 2 1 2));
    [reflexivity|reflexivity|reflexivity|simpl; lia].
Defined.

(** ** The two shortest-job simulators: the table *)

Lemma identity_alter_decrement (j : nat) (pb : list Process) :
  identity <$> alter decrement j pb = identity <$> pb.
Proof.
  rewrite (list_fmap_alter identity decrement id).
  - by apply list_alter_id.
  - by apply Forall_forall.
Qed.

Lemma tick_keeps_identity (sentinel : Z) (s s' : SimState) :
  tick sentinel s s' ->
  identity <$> processesBurst s' = identity <$> processesBurst s.
Proof.
  intros [? Hpb ? ? ?|j ? Hpb ? ? ? ?|j ? Hpb ? ? ? ?]; rewrite Hpb;
    [done|apply identity_alter_decrement..].
Qed.

Lemma simRow_columns (pb pc : list Process) (st : list ProcessStatus) :
  identity <$> pb = identity <$> pc -> length st = length pc ->
  rowColumns <$> zip_with (fun pp st => simRow pp.1 pp.2 st) (zip pb pc) st
  = processColumns <$> pc.
Proof.
  revert pc st. induction pb as [|p pb IH]; intros [|c pc] [|x st] Hid Hlen;
    csimpl in *; try done.
  injection Hid as Hp Ha Hpr Hid.
  f_equal; [|apply IH; [done|lia]].
  unfold rowColumns, processColumns. simpl. congruence.
Qed.

Lemma ArrivalTime_sortSlice (S : Sorter) (ps : list Process) :
  ArrivalTime <$> sortSlice S ps
  = (fun i => nth i (ArrivalTime <$> ps) 0) <$> sort_perm S (ArrivalTime <$> ps).
Proof.
  unfold sortSlice. rewrite <- list_fmap_compose.
  apply list_fmap_ext. intros k i _. simpl.
  change 0 with (ArrivalTime zeroProcess). symmetry.
  apply (map_nth ArrivalTime).
Qed.

Lemma sortSlice_Sorted (S : Sorter) (ps : list Process) :
  Sorted Z.le (ArrivalTime <$> sortSlice S ps).
Proof. rewrite ArrivalTime_sortSlice. apply sort_perm_Sorted. Qed.

Lemma sim_final_shape (S : Sorter) (sentinel : Z) (step : SimState -> SimState)
    (fuel : nat) (ps : list Process) (s' : SimState) :
  (forall s, tick sentinel s (step s)) ->
  simLoop step fuel (length ps) (initSim S ps) = Done s' ->
  identity <$> processesBurst s' = identity <$> sortSlice S ps /\
  length (status s') = length ps.
Proof.
  intros Hstep Hrun.
  pose (P := fun s : SimState =>
    identity <$> processesBurst s = identity <$> sortSlice S ps /\
    length (status s) = length ps).
  apply (simLoop_invariant P step) with fuel (length ps) (initSim S ps);
    [|by (split; simpl; [|apply length_replicate])|done].
  intros s [Hid Hlen].
  pose proof (tick_keeps_identity _ _ _ (Hstep s)) as Hid'.
  destruct (tick_keeps_ids _ _ _ (Hstep s)) as [_ Hlen'].
  split; congruence.
Qed.

Lemma sim_table_columns (S : Sorter) (sentinel : Z)
    (step : SimState -> SimState) (fuel : nat) (ps : list Process)
    (s' : SimState) :
  (forall s, tick sentinel s (step s)) ->
  simLoop step fuel (length ps) (initSim S ps) = Done s' ->
  rowColumns <$> outSchedule (simOutput ps (sortSlice S ps) s')
  = processColumns <$> sortSlice S ps.
Proof.
  intros Hstep Hrun.
  destruct (sim_final_shape S sentinel step fuel ps s' Hstep Hrun) as [Hid Hlen].
  cbn [outSchedule simOutput]. apply simRow_columns; [done|].
  by rewrite length_sortSlice.
Qed.

(** X7.  The tables of [SJFSchedule] and [SJFPrioritySchedule] list the
    processes in the order of the arrival sort, by ascending arrival time,
    each with its identifier, priority and arrival time and with its
    original burst duration, not the working value counted down to 0: the
    rows are a rearrangement of the input. *)
Theorem sim_table_sorted_by_arrival (S : Sorter) (fuel : nat)
    (ps : list Process) (out : Output) :
  SJFSchedule S fuel ps = Done out \/ SJFPrioritySchedule S fuel ps = Done out ->
  rowColumns <$> outSchedule out = processColumns <$> sortSlice S ps /\
  Sorted Z.le (rowArrival <$> outSchedule out) /\
  rowColumns <$> outSchedule out ≡ₚ processColumns <$> ps.
Proof.
  intros Hout.
  assert (Hcols : rowColumns <$> outSchedule out
                  = processColumns <$> sortSlice S ps).
  { destruct Hout as [Hout|Hout].
    - unfold SJFSchedule, SJF.loop in Hout.
      destruct (simLoop SJF.step fuel (length ps) (initSim S ps))
        as [s'| |] eqn:Hrun; try done.
      simpl in Hout. injection Hout as <-.
      apply (sim_table_columns S SJF.sentinel SJF.step fuel);
        [apply SJF_step_tick|done].
    - unfold SJFPrioritySchedule, SJFPriority.loop in Hout.
      destruct (simLoop SJFPriority.step fuel (length ps) (initSim S ps))
        as [s'| |] eqn:Hrun; try done.
      simpl in Hout. injection Hout as <-.
      apply (sim_table_columns S SJFPriority.sentinel SJFPriority.step fuel);
        [apply SJFPriority_step_tick|done]. }
  split; [done|]. split.
  - replace (rowArrival <$> outSchedule out)
      with (snd <$> (rowColumns <$> outSchedule out))
      by (rewrite <- list_fmap_compose; done).
    rewrite Hcols, <- list_fmap_compose. apply sortSlice_Sorted.
  - rewrite Hcols. by rewrite (sortSlice_Permutation S ps).
Qed.

Lemma sim_table_sorted_by_arrival_witness :
  exists out : Output,
    rowColumns <$> outSchedule out
    = processColumns <$>
        sortSlice insertionSorter [mkProcess 1 2 3 7; mkProcess 2 0 2 5] /\
    Sorted Z.le (rowArrival <$> outSchedule out) /\
    rowColumns <$> outSchedule out
    ≡ₚ processColumns <$> [mkProcess 1 2 3 7; mkProcess 2 0 2 5].
Proof.
  eexists.
  apply (sim_table_sorted_by_arrival insertionSorter 5
           [mkProcess 1 2 3 7; mkProcess 2 0 2 5]).
  left. vm_compute. reflexivity.
Defined.

(** ** The two shortest-job simulators: inputs they never finish *)

Lemma sub64_one (b : Z) :
  in_int64 b ->
  sub64 b 1 = if decide (b = MinInt64) then MaxInt64 else b - 1.
Proof.
  intros Hb. case_decide as Hmin.
  - subst b. reflexivity.
  - apply sub64_small. unfold in_int64, MinInt64, MaxInt64 in *. lia.
Qed.

Lemma pending01_decrement (sentinel : Z) (p : Process) :
  sentinel <= MaxInt64 -> in_int64 (BurstDuration p) ->
  BurstDuration p < sentinel ->
  pending01 sentinel (decrement p)
  = pending01 sentinel p
    - (if decide (BurstDuration (decrement p) = 0) then 1 else 0).
Proof.
  intros Hs Hb Hlt. unfold pending01, decrement. simpl.
  rewrite (sub64_one _ Hb).
  unfold in_int64, MinInt64, MaxInt64 in *.
  repeat case_decide; lia.
Qed.

Lemma tick_completable (sentinel c0 : Z) (s s' : SimState) :
  sentinel <= MaxInt64 ->
  completable sentinel c0 s -> tick sentinel s s' -> completable sentinel c0 s'.
Proof.
  intros Hs [Hr Hc] Htick.
  assert (Hchosen : forall j, shortestJob sentinel s = Some j ->
            processesBurst s' = alter decrement j (processesBurst s) ->
            exists p, processesBurst s !! j = Some p /\
              BurstDuration (processesBurst s' !!! j)
                = BurstDuration (decrement p) /\
              in_int64 (BurstDuration p) /\ BurstDuration p < sentinel /\
              Forall (fun p => in_int64 (BurstDuration p)) (processesBurst s') /\
              sumZ (pending01 sentinel <$> processesBurst s')
              = sumZ (pending01 sentinel <$> processesBurst s)
                - pending01 sentinel p + pending01 sentinel (decrement p)).
  { intros j Hj Hpb.
    destruct (shortestJob_Some sentinel s j Hj) as (b & Hcand & Hbs & _).
    destruct Hcand as (p & x & Hp & _ & _ & _ & Hbp). subst b.
    exists p. split; [done|]. rewrite Hpb. split.
    { rewrite list_lookup_total_alter_eq by (by eapply lookup_lt_Some).
      by rewrite (list_lookup_total_correct _ _ _ Hp). }
    split; [by eapply (Forall_lookup_1 _ _ _ _ Hr)|]. split; [done|]. split.
    - apply Forall_alter; [done|]. intros q _ _. simpl. apply sub64_range.
    - by apply sumZ_fmap_alter. }
  destruct Htick as [_ Hpb _ _ Hnc|j Hj Hpb Hnz _ _ Hnc|j Hj Hpb Hz _ _ Hnc].
  - split; rewrite ?Hpb, ?Hnc; done.
  - destruct (Hchosen j Hj Hpb) as (p & Hp & Hnew & Hin & Hlt & Hr' & Hsum).
    split; [done|]. rewrite Hnc, Hsum.
    rewrite (pending01_decrement sentinel p Hs Hin Hlt).
    rewrite Hnew in Hnz. rewrite decide_False by done. lia.
  - destruct (Hchosen j Hj Hpb) as (p & Hp & Hnew & Hin & Hlt & Hr' & Hsum).
    split; [done|]. rewrite Hnc, Hsum.
    rewrite (pending01_decrement sentinel p Hs Hin Hlt).
    rewrite Hnew in Hz. rewrite decide_True by done. lia.
Qed.

Lemma pending01_bounds (sentinel : Z) (ps : list Process) :
  0 <= sumZ (pending01 sentinel <$> ps) <= Z.of_nat (length ps).
Proof.
  induction ps as [|p ps IH]; [done|].
  rewrite fmap_cons, sumZ_cons, length_cons.
  unfold pending01 at 1 3. case_decide; lia.
Qed.

Lemma pending01_missing (sentinel : Z) (ps : list Process) :
  Exists (fun p => ~ (1 <= BurstDuration p < sentinel)) ps ->
  sumZ (pending01 sentinel <$> ps) < Z.of_nat (length ps).
Proof.
  induction 1 as [p ps Hp|p ps _ IH];
    rewrite fmap_cons, sumZ_cons, length_cons.
  - pose proof (pending01_bounds sentinel ps).
    unfold pending01 at 1. rewrite decide_False by done. lia.
  - unfold pending01 at 1. case_decide; lia.
Qed.

Lemma simLoop_never_ends (sentinel c0 : Z) (step : SimState -> SimState)
    (n : nat) :
  sentinel <= MaxInt64 -> c0 < Z.of_nat n ->
  (forall s, tick sentinel s (step s)) ->
  forall (fuel : nat) (s : SimState),
    completable sentinel c0 s -> simLoop step fuel n s = OutOfFuel.
Proof.
  intros Hs Hc0 Hstep fuel. induction fuel as [|fuel IH]; intros s Hinv; simpl.
  - destruct Hinv as [_ Hc].
    pose proof (pending01_bounds sentinel (processesBurst s)).
    rewrite decide_True by lia. done.
  - pose proof Hinv as [_ Hc].
    pose proof (pending01_bounds sentinel (processesBurst s)).
    rewrite decide_True by lia.
    apply IH. by apply (tick_completable sentinel c0 s), Hstep.
Qed.

Lemma sim_never_ends (S : Sorter) (sentinel : Z) (step : SimState -> SimState)
    (ps : list Process) (fuel : nat) :
  sentinel <= MaxInt64 ->
  (forall s, tick sentinel s (step s)) ->
  Forall (fun p => in_int64 (BurstDuration p)) ps ->
  Exists (fun p => ~ (1 <= BurstDuration p < sentinel)) ps ->
  simLoop step fuel (length ps) (initSim S ps) = OutOfFuel.
Proof.
  intros Hs Hstep Hps Hbad.
  apply (simLoop_never_ends sentinel
           (sumZ (pending01 sentinel <$> sortSlice S ps)) step); try done.
  - rewrite <- (length_sortSlice S ps). apply pending01_missing.
    by rewrite (sortSlice_Permutation S ps).
  - split; simpl; [|lia]. by rewrite (sortSlice_Permutation S ps).
Qed.

(** X8.  A burst duration that is zero or negative, or not below the
    initial [shortestJobDuration] ([MaxInt64] in [SJFSchedule], 999 in
    [SJFPrioritySchedule]), keeps the simulator in its loop for ever: the
    process never has its remaining burst brought from 1 to 0, so
    [numCompleted] never reaches the number of processes. *)
Theorem shortest_job_runs_forever (S : Sorter) (ps : list Process) :
  Forall (fun p => in_int64 (BurstDuration p)) ps ->
  (Exists (fun p => ~ (1 <= BurstDuration p < SJF.sentinel)) ps ->
   forall fuel, SJFSchedule S fuel ps = OutOfFuel) /\
  (Exists (fun p => ~ (1 <= BurstDuration p < SJFPriority.sentinel)) ps ->
   forall fuel, SJFPrioritySchedule S fuel ps = OutOfFuel).
Proof.
  intros Hps. split; intros Hbad fuel.
  - unfold SJFSchedule, SJF.loop.
    rewrite (sim_never_ends S SJF.sentinel SJF.step ps fuel); try done.
    apply SJF_step_tick.
  - unfold SJFPrioritySchedule, SJFPriority.loop.
    rewrite (sim_never_ends S SJFPriority.sentinel SJFPriority.step ps fuel);
      try done.
    apply SJFPriority_step_tick.
Qed.

Lemma shortest_job_runs_forever_witness :
  (forall fuel,
     SJFSchedule insertionSorter fuel [mkProcess 1 0 2 0; mkProcess 2 1 0 0]
     = OutOfFuel) /\
  (forall fuel,
     SJFPrioritySchedule insertionSorter fuel
       [mkProcess 1 0 2 0; mkProcess 2 1 0 0] = OutOfFuel).
Proof.
  assert (Hps : Forall (fun p => in_int64 (BurstDuration p))
                  [mkProcess 1 0 2 0; mkProcess 2 1 0 0]).
  { repeat constructor; vm_compute; congruence. }
  destruct (shortest_job_runs_forever insertionSorter
              [mkProcess 1 0 2 0; mkProcess 2 1 0 0] Hps) as [Hsjf Hprio].
  split.
  - apply Hsjf. apply Exists_cons_tl, Exists_cons_hd. simpl. lia.
  - apply Hprio. apply Exists_cons_tl, Exists_cons_hd. simpl. lia.
Defined.

(** ** The two shortest-job simulators: exit times *)

Lemma simLoop_invariant_running (P : SimState -> Prop)
    (step : SimState -> SimState) (n : nat) :
  (forall s, P s -> numCompleted s < Z.of_nat n -> P (step s)) ->
  forall (fuel : nat) (s s' : SimState),
    P s -> simLoop step fuel n s = Done s' ->
    P s' /\ ~ numCompleted s' < Z.of_nat n.
Proof.
  intros Hstep fuel. induction fuel as [|fuel IH]; intros s s' Hs; simpl;
    case_decide as Hlt; try done; try (by intros [= <-]).
  apply IH. by apply Hstep.
Qed.

Section ExitTimes.

Variables (sentinel M bound : Z) (n : nat) (pc : list Process).
Hypothesis sentinel_max : sentinel <= MaxInt64.
Hypothesis bound_max : bound <= MaxInt64.

(** What an iteration does, in plain integers. *)
Lemma tick_plain (s s' : SimState) :
  sim_inv sentinel M bound n s -> numCompleted s < Z.of_nat n ->
  tick sentinel s s' ->
  currentTime s' = currentTime s + 1 /\
  ((processesBurst s' = processesBurst s /\ ends s' = ends s) \/
   (exists j p,
      processesBurst s !! j = Some p /\ ends s !! j = Some 0 /\
      ArrivalTime p <= currentTime s /\ 1 <= BurstDuration p /\
      BurstDuration (decrement p) = BurstDuration p - 1 /\
      processesBurst s' = alter decrement j (processesBurst s) /\
      ends s' = (if decide (BurstDuration p = 1)
                 then alter (fun _ => currentTime s + 1) j (ends s)
                 else ends s))).
Proof.
  intros Hinv Hlt Htick.
  destruct (tick_progress sentinel M bound n sentinel_max bound_max s s'
              Hinv Hlt Htick) as [Hinv' Hdec].
  pose proof (elem_ok_totalBurst _ _ _ _ (inv_elems _ _ _ _ _ Hinv')) as Hnn.
  destruct Hinv as [Hel Hlen Ht Hc Hb].
  assert (Hadd : add64 (currentTime s) 1 = currentTime s + 1).
  { apply add64_small. unfold potential in *.
    unfold in_int64, MinInt64, MaxInt64 in *. lia. }
  assert (Hchosen : forall j, shortestJob sentinel s = Some j ->
            exists p, processesBurst s !! j = Some p /\ ends s !! j = Some 0 /\
              ArrivalTime p <= currentTime s /\ 1 <= BurstDuration p /\
              BurstDuration (decrement p) = BurstDuration p - 1 /\
              BurstDuration (alter decrement j (processesBurst s) !!! j)
                = BurstDuration p - 1).
  { intros j Hj.
    destruct (shortestJob_Some sentinel s j Hj) as (b & Hcand & Hbs & _).
    destruct Hcand as (p & x & Hp & Hx & Harr & Hend & Hbp).
    assert (Hej : ends s !! j = Some 0).
    { unfold ends. rewrite list_lookup_fmap, Hx. simpl. by f_equal. }
    destruct (Forall2_lookup_lr _ _ _ _ _ _ Hel Hp Hej) as (Hrange & _ & Hiff).
    assert (Hb1 : 1 <= BurstDuration p).
    { assert (BurstDuration p <> 0) by (by apply Hiff). lia. }
    assert (Hsub : BurstDuration (decrement p) = BurstDuration p - 1).
    { simpl. apply sub64_small. unfold in_int64, MinInt64, MaxInt64 in *. lia. }
    exists p. repeat split; try done.
    rewrite list_lookup_total_alter_eq by (by eapply lookup_lt_Some).
    by rewrite (list_lookup_total_correct _ _ _ Hp). }
  destruct Htick as [_ Hpb He Htime _|j Hj Hpb Hnz He Htime _
                    |j Hj Hpb Hz He Htime _];
    (split; [by rewrite Htime|]).
  - left. done.
  - right. destruct (Hchosen j Hj) as (p & Hp & Hej & Harr & Hb1 & Hsub & Hnew).
    exists j, p. rewrite Hpb, Hnew in Hnz.
    rewrite decide_False by lia. repeat split; done.
  - right. destruct (Hchosen j Hj) as (p & Hp & Hej & Harr & Hb1 & Hsub & Hnew).
    exists j, p. rewrite Hpb, Hnew in Hz.
    rewrite decide_True by lia. rewrite <- Hadd. repeat split; done.
Qed.

Lemma exit_ok_later (t : Z) (p c : Process) (e : Z) :
  exit_ok t p c e -> exit_ok (t + 1) p c e.
Proof. unfold exit_ok. intros (? & ? & ? & ?). repeat split; lia. Qed.

Lemma tick_exits (s s' : SimState) :
  sim_inv sentinel M bound n s -> exits_inv pc s ->
  numCompleted s < Z.of_nat n -> tick sentinel s s' ->
  exits_inv pc s'.
Proof.
  intros Hinv (Hlen & Hok & Hdist) Hlt Htick.
  destruct (tick_plain s s' Hinv Hlt Htick) as [Htime Hcases].
  pose proof (Forall2_length _ _ _ (inv_elems _ _ _ _ _ Hinv)) as Hlen_ends.
  destruct Hcases as [[Hpb He]|(j & p & Hp & Hej & Harr & Hb1 & Hsub & Hpb & He)].
  { unfold exits_inv. rewrite Hpb, He, Htime. split; [done|]. split; [|done].
    intros i q c e Hq Hc Hei. by apply exit_ok_later, (Hok i). }
  assert (Hlen' : length pc = length (processesBurst s')).
  { by rewrite Hpb, length_alter. }
  assert (Hcj : exists c, pc !! j = Some c).
  { apply lookup_lt_is_Some_2. rewrite Hlen. by eapply lookup_lt_Some. }
  destruct Hcj as [c Hc].
  pose proof (Hok j p c 0 Hp Hc Hej) as (Ha & Hle & Hrun & _).
  split; [done|]. rewrite Htime. case_decide as Hlast.
  - (* the last unit: the process exits at [t + 1] *)
    split.
    + intros i q c' e Hq Hc' Hei. rewrite Hpb, list_lookup_alter in Hq.
      rewrite He, list_lookup_alter in Hei.
      destruct (decide (j = i)) as [<-|Hne].
      * rewrite Hp in Hq. rewrite Hej in Hei. simplify_eq/=.
        specialize (Hrun eq_refl). unfold exit_ok. simpl. rewrite Hsub.
        repeat split; lia.
      * by apply exit_ok_later, (Hok i).
    + intros i k e Hik Hei Hek. rewrite He, !list_lookup_alter in Hei, Hek.
      assert (Hfresh : forall m q, j <> m -> ends s !! m = Some q ->
                q <> currentTime s + 1).
      { intros m q Hjm Hq Heq. subst q.
        destruct (lookup_lt_is_Some_2 (processesBurst s) m) as [pm Hpm].
        { rewrite Hlen_ends. by eapply lookup_lt_Some. }
        destruct (lookup_lt_is_Some_2 pc m) as [cm Hcm].
        { rewrite Hlen. by eapply lookup_lt_Some. }
        pose proof (Hok m pm cm _ Hpm Hcm Hq) as (_ & _ & _ & Hexit).
        pose proof (inv_time _ _ _ _ _ Hinv). lia. }
      destruct (decide (j = i)) as [<-|Hji], (decide (j = k)) as [<-|Hjk];
        try done.
      * rewrite Hej in Hei. simplify_eq/=. by destruct (Hfresh k _ Hjk Hek).
      * rewrite Hej in Hek. simplify_eq/=. by destruct (Hfresh i _ Hji Hei).
      * by apply (Hdist i k).
  - (* one unit among several *)
    split.
    + intros i q c' e Hq Hc' Hei. rewrite Hpb, list_lookup_alter in Hq.
      rewrite He in Hei.
      destruct (decide (j = i)) as [<-|Hne].
      * rewrite Hp in Hq. rewrite Hej in Hei. simplify_eq/=.
        specialize (Hrun eq_refl). unfold exit_ok. simpl. rewrite Hsub.
        repeat split; lia.
      * by apply exit_ok_later, (Hok i).
    + rewrite He. done.
Qed.

End ExitTimes.

Lemma done01_bound (pb : list Process) :
  sumZ (done01 <$> pb) <= Z.of_nat (length pb).
Proof.
  induction pb as [|p pb IH]; [done|].
  rewrite fmap_cons, sumZ_cons, length_cons.
  unfold done01 at 1. case_decide; lia.
Qed.

Lemma done01_all_finished (pb : list Process) :
  Z.of_nat (length pb) <= sumZ (done01 <$> pb) ->
  Forall (fun p => BurstDuration p = 0) pb.
Proof.
  induction pb as [|p pb IH]; [constructor|].
  rewrite fmap_cons, sumZ_cons, length_cons. intros Hall.
  pose proof (done01_bound pb). unfold done01 in Hall at 1.
  case_decide; [|lia]. constructor; [done|]. apply IH. lia.
Qed.

Lemma simRow_exits (pb pc : list Process) (st : list ProcessStatus) :
  length pb = length st -> length pc = length st ->
  rowExit <$> zip_with (fun pp st => simRow pp.1 pp.2 st) (zip pb pc) st
  = EndTime <$> st.
Proof.
  revert pc st. induction pb as [|p pb IH]; intros [|c pc] [|x st] H1 H2;
    csimpl in *; try done.
  f_equal. apply IH; lia.
Qed.

Lemma initSim_exits (S : Sorter) (ps : list Process) :
  exits_inv (sortSlice S ps) (initSim S ps).
Proof.
  split; [done|]. split.
  - intros i p c e Hp Hc He. simpl in Hp. rewrite Hp in Hc. injection Hc as <-.
    unfold ends in He. simpl in He. rewrite fmap_replicate in He.
    apply lookup_replicate in He as [-> _].
    unfold exit_ok. repeat split; try done; lia.
  - intros i j e _ He _. unfold ends in He. simpl in He.
    rewrite fmap_replicate in He. by apply lookup_replicate in He as [-> _].
Qed.

(** The rows of a state in which the loop has stopped. *)
Lemma sim_finished_rows (sentinel M bound : Z) (n : nat)
    (ps pc : list Process) (s : SimState) :
  bound <= MaxInt64 ->
  sim_inv sentinel M bound n s -> exits_inv pc s ->
  ~ numCompleted s < Z.of_nat n ->
  Forall (fun c => 0 <= ArrivalTime c) pc ->
  Forall (row_exit_ok (currentTime s)) (outSchedule (simOutput ps pc s)) /\
  NoDup (rowExit <$> outSchedule (simOutput ps pc s)) /\
  currentTime s <= bound.
Proof.
  intros Hbound Hinv (Hlen & Hok & Hdist) Hdone Harr.
  pose proof Hinv as [Hel Hn Ht Hc Hb].
  pose proof (Forall2_length _ _ _ Hel) as Hlen_ends.
  assert (Hlen_st : length (processesBurst s) = length (status s)).
  { unfold ends in Hlen_ends. by rewrite length_fmap in Hlen_ends. }
  pose proof (elem_ok_totalBurst _ _ _ _ Hel) as Htot.
  assert (Hzero : Forall (fun p => BurstDuration p = 0) (processesBurst s)).
  { apply done01_all_finished. lia. }
  assert (Hexited : forall i e, ends s !! i = Some e -> e <> 0).
  { intros i e He.
    destruct (lookup_lt_is_Some_2 (processesBurst s) i) as [p Hp].
    { rewrite Hlen_ends. by eapply lookup_lt_Some. }
    destruct (Forall2_lookup_lr _ _ _ _ _ _ Hel Hp He) as (_ & _ & Hiff).
    pose proof (Forall_lookup_1 _ _ _ _ Hzero Hp) as Hz. simpl in Hz.
    intros ->. by apply Hiff. }
  assert (Htime : currentTime s <= bound).
  { unfold potential in Hb. lia. }
  cbn [outSchedule simOutput]. split; [|split; [|done]].
  - apply Forall_lookup. intros i r Hr.
    apply lookup_zip_with_Some in Hr as ([p c] & x & -> & Hpp & Hx).
    apply lookup_zip_with_Some in Hpp as (p' & c' & [= <- <-] & Hp & Hpc).
    assert (He : ends s !! i = Some (EndTime x)).
    { unfold ends. by rewrite list_lookup_fmap, Hx. }
    pose proof (Hok i p c _ Hp Hpc He) as (Ha & Hle & _ & Hexit).
    specialize (Hexit (Hexited i _ He)).
    pose proof (Forall_lookup_1 _ _ _ _ Harr Hpc) as Hac. simpl in Hac.
    pose proof (Forall_lookup_1 _ _ _ _ Hzero Hp) as Hz. simpl in Hz.
    unfold row_exit_ok. simpl.
    rewrite sub64_small
      by (unfold in_int64, MinInt64, MaxInt64 in *; lia).
    lia.
  - rewrite simRow_exits by lia. apply NoDup_alt. intros i j e Hi Hj.
    destruct (decide (i = j)) as [|Hne]; [done|].
    destruct (Hexited i e Hi). by apply (Hdist i j).
Qed.

Lemma sim_exit_times (S : Sorter) (sentinel : Z) (step : SimState -> SimState)
    (fuel : nat) (ps : list Process) (s' : SimState) :
  sentinel <= MaxInt64 ->
  (forall s, tick sentinel s (step s)) ->
  Forall (fun p => 1 <= BurstDuration p < sentinel /\ 0 <= ArrivalTime p) ps ->
  maxArrival ps + totalBurst ps <= MaxInt64 ->
  simLoop step fuel (length ps) (initSim S ps) = Done s' ->
  Forall (row_exit_ok (currentTime s'))
    (outSchedule (simOutput ps (sortSlice S ps) s')) /\
  NoDup (rowExit <$> outSchedule (simOutput ps (sortSlice S ps) s')) /\
  currentTime s' <= maxArrival ps + totalBurst ps.
Proof.
  intros Hs Hstep Hps Hbound Hrun.
  pose (P := fun s : SimState =>
    sim_inv sentinel (maxArrival ps) (maxArrival ps + totalBurst ps)
      (length ps) s /\ exits_inv (sortSlice S ps) s).
  destruct (simLoop_invariant_running P step (length ps)) with fuel
    (initSim S ps) s' as [[Hinv Hex] Hdone]; try done.
  - intros s [Hinv Hex] Hlt. split.
    + by apply (tick_progress sentinel (maxArrival ps)
                  (maxArrival ps + totalBurst ps) (length ps) Hs Hbound s).
    + by apply (tick_exits sentinel (maxArrival ps)
                  (maxArrival ps + totalBurst ps) (length ps) (sortSlice S ps)
                  Hs Hbound s).
  - split; [|apply initSim_exits]. apply initSim_inv.
    eapply Forall_impl; [exact Hps|]. simpl. tauto.
  - apply (sim_finished_rows sentinel (maxArrival ps) _ (length ps)); try done.
    rewrite (sortSlice_Permutation S ps).
    eapply Forall_impl; [exact Hps|]. simpl. tauto.
Qed.

(** X9.  On an input with burst durations from 1 to 998, non-negative
    arrival times and a total that fits an [int64], a finished run of
    [SJFSchedule] or [SJFPrioritySchedule] reports for every process an exit
    time no earlier than its arrival plus its burst and no later than the
    final time, a turnaround equal to exit minus arrival and at least the
    burst; no two processes exit at the same time, and the final time is at
    most the latest arrival plus the total burst. *)
Theorem shortest_job_exit_times (S : Sorter) (fuel : nat) (ps : list Process)
    (out : Output) :
  Forall (fun p => 1 <= BurstDuration p < SJFPriority.sentinel /\
                   0 <= ArrivalTime p) ps ->
  maxArrival ps + totalBurst ps <= MaxInt64 ->
  SJFSchedule S fuel ps = Done out \/ SJFPrioritySchedule S fuel ps = Done out ->
  Forall (row_exit_ok (outTime out)) (outSchedule out) /\
  NoDup (rowExit <$> outSchedule out) /\
  outTime out <= maxArrival ps + totalBurst ps.
Proof.
  intros Hps Hbound [Hout|Hout].
  - unfold SJFSchedule, SJF.loop in Hout.
    destruct (simLoop SJF.step fuel (length ps) (initSim S ps))
      as [s'| |] eqn:Hrun; try done.
    simpl in Hout. injection Hout as <-.
    apply (sim_exit_times S SJF.sentinel SJF.step fuel ps s'); try done.
    + apply SJF_step_tick.
    + eapply Forall_impl; [exact Hps|]. simpl.
      unfold SJF.sentinel, SJFPriority.sentinel, MaxInt64. lia.
  - unfold SJFPrioritySchedule, SJFPriority.loop in Hout.
    destruct (simLoop SJFPriority.step fuel (length ps) (initSim S ps))
      as [s'| |] eqn:Hrun; try done.
    simpl in Hout. injection Hout as <-.
    apply (sim_exit_times S SJFPriority.sentinel SJFPriority.step fuel ps s');
      try done.
    apply SJFPriority_step_tick.
Qed.

Lemma shortest_job_exit_times_witness :
  exists out : Output,
    Forall (row_exit_ok (outTime out)) (outSchedule out) /\
    NoDup (rowExit <$> outSchedule out) /\
    outTime out
    <= maxArrival [mkProcess 1 0 3 0; mkProcess 2 1 1 0]
       + totalBurst [mkProcess 1 0 3 0; mkProcess 2 1 1 0].
Proof.
  eexists.
  apply (shortest_job_exit_times insertionSorter 4
           [mkProcess 1 0 3 0; mkProcess 2 1 1 0]).
  - repeat constructor; simpl; unfold SJFPriority.sentinel; lia.
  - vm_compute. congruence.
  - right. vm_compute. reflexivity.
Defined.

(** ** [SJFSchedule] and [SJFPrioritySchedule] run the same schedule *)

Lemma scan_ends (t : Z) (pb : list Process) :
  forall (st1 st2 : list ProcessStatus) (i : nat) (idx : option nat) (dur : Z),
    EndTime <$> st1 = EndTime <$> st2 ->
    scan t i pb st1 idx dur = scan t i pb st2 idx dur.
Proof.
  induction pb as [|p pb IH]; intros [|x1 st1] [|x2 st2] i idx dur Hends;
    csimpl in *; try done.
  injection Hends as He Hends. rewrite He.
  case_decide; by apply IH.
Qed.

Lemma scan_sentinel (t : Z) (d1 d2 : Z) (pb : list Process) :
  Forall (fun p => BurstDuration p < d1 /\ BurstDuration p < d2) pb ->
  forall (st : list ProcessStatus) (i : nat),
    scan t i pb st None d1 = scan t i pb st None d2.
Proof.
  induction 1 as [|p pb [H1 H2] _ IH]; intros [|x st] i; simpl; try done.
  destruct (decide (ArrivalTime p <= t /\ EndTime x = 0)) as [Hc|Hc].
  - rewrite !decide_True by tauto. done.
  - rewrite !decide_False by tauto. apply IH.
Qed.

Lemma shortestJob_agree (s1 s2 : SimState) :
  stateView s1 = stateView s2 ->
  Forall (fun p => BurstDuration p < SJFPriority.sentinel) (processesBurst s2) ->
  shortestJob SJF.sentinel s1 = shortestJob SJFPriority.sentinel s2.
Proof.
  unfold stateView, shortestJob, ends. intros [= Hpb He Ht _] Hlt.
  rewrite Hpb, Ht, (scan_ends _ _ _ _ _ _ _ He).
  apply scan_sentinel. eapply Forall_impl; [exact Hlt|]. simpl.
  unfold SJF.sentinel, SJFPriority.sentinel, MaxInt64. lia.
Qed.

Lemma ticks_agree (d1 d2 : Z) (s1 s2 s1' s2' : SimState) :
  stateView s1 = stateView s2 ->
  shortestJob d1 s1 = shortestJob d2 s2 ->
  tick d1 s1 s1' -> tick d2 s2 s2' ->
  stateView s1' = stateView s2'.
Proof.
  unfold stateView. intros [= Hpb He Ht Hnc] Hjob.
  intros [J1 P1 E1 T1 N1|j1 J1 P1 Z1 E1 T1 N1|j1 J1 P1 Z1 E1 T1 N1]
         [J2 P2 E2 T2 N2|j2 J2 P2 Z2 E2 T2 N2|j2 J2 P2 Z2 E2 T2 N2];
    rewrite J1, J2 in Hjob; try done; try injection Hjob as <-;
    rewrite ?P1, ?P2, ?E1, ?E2, ?T1, ?T2, ?N1, ?N2, ?Hpb, ?He, ?Ht, ?Hnc;
    try done.
  - rewrite P1, P2, Hpb in *. done.
  - rewrite P1, P2, Hpb in *. done.
Qed.

Lemma simLoops_agree (M bound : Z) (n : nat) :
  bound <= MaxInt64 ->
  forall (fuel : nat) (s1 s2 : SimState),
    stateView s1 = stateView s2 ->
    sim_inv SJFPriority.sentinel M bound n s2 ->
    outcome_map stateView (simLoop SJF.step fuel n s1)
    = outcome_map stateView (simLoop SJFPriority.step fuel n s2).
Proof.
  intros Hbound fuel. induction fuel as [|fuel IH]; intros s1 s2 Hview Hinv;
    simpl; pose proof Hview as [= _ _ _ Hnc]; rewrite Hnc;
    case_decide as Hlt; simpl; try done; try (by f_equal).
  assert (Hs : SJFPriority.sentinel <= MaxInt64)
    by (unfold SJFPriority.sentinel, MaxInt64; lia).
  apply IH.
  - apply (ticks_agree SJF.sentinel SJFPriority.sentinel s1 s2); try done.
    + apply shortestJob_agree; [done|].
      pose proof (inv_elems _ _ _ _ _ Hinv) as Hel.
      apply Forall_lookup. intros i p Hp.
      destruct (Forall2_lookup_l _ _ _ _ _ Hel Hp) as (e & _ & Hok).
      destruct Hok as [? _]. simpl. lia.
    + apply SJF_step_tick.
    + apply SJFPriority_step_tick.
  - by apply (tick_progress SJFPriority.sentinel M bound n Hs Hbound s2),
             SJFPriority_step_tick.
Qed.

Lemma simRow_exit_columns (pb pc : list Process) :
  forall st1 st2 : list ProcessStatus,
    EndTime <$> st1 = EndTime <$> st2 ->
    (fun r => (rowColumns r, rowTurnaround r, rowExit r)) <$>
      zip_with (fun pp st => simRow pp.1 pp.2 st) (zip pb pc) st1
    = (fun r => (rowColumns r, rowTurnaround r, rowExit r)) <$>
        zip_with (fun pp st => simRow pp.1 pp.2 st) (zip pb pc) st2.
Proof.
  revert pc. induction pb as [|p pb IH]; intros [|c pc] [|x1 st1] [|x2 st2] He;
    csimpl in *; try done.
  injection He as He1 He. rewrite (IH pc st1 st2 He).
  unfold rowColumns. simpl. by rewrite He1.
Qed.

Lemma simSlice_stops (pb : list Process) :
  forall st1 st2 : list ProcessStatus,
    EndTime <$> st1 = EndTime <$> st2 ->
    Stop <$> zip_with simSlice pb st1 = Stop <$> zip_with simSlice pb st2.
Proof.
  induction pb as [|p pb IH]; intros [|x1 st1] [|x2 st2] He;
    csimpl in *; try done.
  injection He as He1 He. rewrite (IH st1 st2 He). by rewrite He1.
Qed.

Lemma simOutput_exitView (ps pc : list Process) (s1 s2 : SimState) :
  stateView s1 = stateView s2 ->
  exitView (simOutput ps pc s1) = exitView (simOutput ps pc s2).
Proof.
  unfold stateView, exitView, simOutput, ends. intros [= Hpb He Ht _]. simpl.
  rewrite Hpb, Ht.
  by rewrite (simRow_exit_columns _ pc _ _ He), (simSlice_stops _ _ _ He).
Qed.

(** X10.  On an input with burst durations from 1 to 998 whose latest
    arrival plus total burst fits an [int64], [SJFSchedule] and
    [SJFPrioritySchedule] make the same choice at every time unit: with the
    same fuel both end or neither, and they report the same rows but for the
    wait (identifier, priority, burst, arrival, turnaround, exit), the same
    stop of every slice and the same final time.  They differ in the start
    times they record only. *)
Theorem SJF_same_schedule_as_SJFPriority (S : Sorter) (fuel : nat)
    (ps : list Process) :
  Forall (fun p => 1 <= BurstDuration p < SJFPriority.sentinel) ps ->
  maxArrival ps + totalBurst ps <= MaxInt64 ->
  outcome_map exitView (SJFSchedule S fuel ps)
  = outcome_map exitView (SJFPrioritySchedule S fuel ps).
Proof.
  intros Hps Hbound. unfold SJFSchedule, SJFPrioritySchedule, SJF.loop,
    SJFPriority.loop.
  pose proof (simLoops_agree (maxArrival ps) (maxArrival ps + totalBurst ps)
                (length ps) Hbound fuel (initSim S ps) (initSim S ps) eq_refl
                (initSim_inv S SJFPriority.sentinel ps Hps)) as Hloops.
  destruct (simLoop SJF.step fuel (length ps) (initSim S ps)) as [s1| |],
    (simLoop SJFPriority.step fuel (length ps) (initSim S ps)) as [s2| |];
    simpl in *; try done.
  assert (Hview : stateView s1 = stateView s2) by congruence.
  f_equal. by apply simOutput_exitView.
Qed.

Lemma SJF_same_schedule_as_SJFPriority_witness :
  outcome_map exitView
    (SJFSchedule insertionSorter 9
       [mkProcess 1 0 5 0; mkProcess 2 1 3 0; mkProcess 3 2 1 0])
  = outcome_map exitView
      (SJFPrioritySchedule insertionSorter 9
         [mkProcess 1 0 5 0; mkProcess 2 1 3 0; mkProcess 3 2 1 0]).
Proof.
  apply (SJF_same_schedule_as_SJFPriority insertionSorter 9
           [mkProcess 1 0 5 0; mkProcess 2 1 3 0; mkProcess 3 2 1 0]).
  - repeat constructor; simpl; unfold SJFPriority.sentinel; lia.
  - vm_compute. congruence.
Defined.

(** ** Round-robin: every run ends *)

(** The iteration on a non-empty queue, spelled out. *)
Lemma RR_step_cases (s : RR.state) (index : nat) (q : list nat) :
  RR.queue s = index :: q ->
  exists s', RR.step s = Some s' /\
    RR.currentTime s' = add64 (RR.currentTime s) 1 /\
    length (RR.status s') = length (RR.status s) /\
    ((1 < BurstDuration (RR.processes s !!! index) /\
      RR.processes s' = alter decrement index (RR.processes s) /\
      RR.queue s' = q ++ [index] /\
      RR.numCompleted s' = RR.numCompleted s) \/
     (BurstDuration (RR.processes s !!! index) <= 1 /\
      RR.processes s' = alter (setBurstDuration 0) index (RR.processes s) /\
      RR.queue s' = q /\
      RR.numCompleted s' = RR.numCompleted s + 1)).
Proof.
  intros Hq. unfold RR.step. rewrite Hq.
  set (status1 := if decide (StartTime (RR.status s !!! index) = 0)
                  then alter (setStartTime (RR.currentTime s)) index
                         (RR.status s)
                  else RR.status s).
  assert (Hlen : length status1 = length (RR.status s)).
  { unfold status1. case_decide; [apply length_alter|done]. }
  clearbody status1.
  destruct (decide (1 < BurstDuration (RR.processes s !!! index))) as [Hb|Hb];
    eexists; (split; [reflexivity|]); simpl.
  - split; [done|]. split; [done|]. left. done.
  - split; [done|]. split; [by rewrite length_alter|]. right.
    repeat split; try done. lia.
Qed.

Lemma rr_work_nonneg (ps : list Process) : 0 <= rr_work ps.
Proof.
  apply sumZ_nonneg, Forall_fmap, Forall_forall. intros p _. simpl. lia.
Qed.

Lemma rr_potential_init (ps : list Process) :
  rr_potential (RR.init ps) = rr_work ps.
Proof.
  unfold rr_potential, rr_work. simpl.
  transitivity (sumZ ((fun p => Z.max 1 (BurstDuration p)) <$>
                        ((fun i => ps !!! i) <$> seq 0 (length ps))));
    [|by rewrite lookup_total_seq_fmap].
  by rewrite <- list_fmap_compose.
Qed.

Lemma rr_init_inv (ps : list Process) :
  Forall (fun p => in_int64 (BurstDuration p)) ps ->
  rr_run_inv ps (RR.init ps).
Proof.
  intros Hps. split; simpl.
  - split; simpl; [apply NoDup_seq|done|rewrite length_seq; lia|done].
  - apply Forall_seq. intros; lia.
  - intros i Hi. left. apply elem_of_seq. lia.
  - done.
  - apply length_replicate.
  - rewrite rr_potential_init. lia.
Qed.

Lemma identity_alter_setBurstDuration (b : Z) (j : nat) (ps : list Process) :
  identity <$> alter (setBurstDuration b) j ps = identity <$> ps.
Proof.
  rewrite (list_fmap_alter identity (setBurstDuration b) id).
  - by apply list_alter_id.
  - by apply Forall_forall.
Qed.

Lemma rr_run_progress (ps0 : list Process) (s : RR.state) :
  rr_work ps0 <= MaxInt64 -> 0 <= RR.currentTime s ->
  rr_run_inv ps0 s -> RR.numCompleted s < Z.of_nat (length ps0) ->
  exists s', RR.step s = Some s' /\ rr_run_inv ps0 s' /\
    rr_potential s' + 1 = rr_potential s /\
    RR.currentTime s' = RR.currentTime s + 1.
Proof.
  intros Hfit Ht [Hbase Hqlt Hdone Hid Hst Htime] Hlt.
  destruct (rr_progress (length ps0) s Hbase Hlt) as (s' & Hs' & Hbase' & Hdec).
  pose proof (rr_potential_nonneg s') as Hnn.
  destruct (RR.queue s) as [|index q] eqn:Hq.
  { unfold RR.step in Hs'. by rewrite Hq in Hs'. }
  destruct (RR_step_cases s index q Hq)
    as (s'' & Hs'' & Htime' & Hst' & Hcases).
  rewrite Hs' in Hs''. injection Hs'' as <-.
  assert (Hadd : RR.currentTime s' = RR.currentTime s + 1).
  { rewrite Htime'. apply add64_small.
    unfold in_int64, MinInt64, MaxInt64 in *. lia. }
  exists s'. split; [done|]. split; [|done].
  apply Forall_cons in Hqlt as [Hindex Hqlt].
  pose proof (rr_nodup _ _ Hbase) as Hnd. rewrite Hq in Hnd.
  apply NoDup_cons in Hnd as [Hnotin _].
  pose proof (rr_length _ _ Hbase) as Hlen.
  destruct Hcases as [(Hb & Hps & Hq' & _)|(Hb & Hps & Hq' & _)];
    split; rewrite ?Hps, ?Hq'; try done; try lia.
  - apply Forall_app. split; [done|]. by apply Forall_singleton.
  - intros i Hi. destruct (decide (i = index)) as [->|Hne].
    + left. apply elem_of_app. right. by apply list_elem_of_singleton.
    + destruct (Hdone i Hi) as [Hin|Hz].
      * left. apply elem_of_cons in Hin as [?|Hin]; [done|].
        apply elem_of_app. by left.
      * right. by rewrite list_lookup_total_alter_ne.
  - by rewrite identity_alter_decrement.
  - intros i Hi. destruct (decide (i = index)) as [->|Hne].
    + right. rewrite list_lookup_total_alter_eq by lia. done.
    + destruct (Hdone i Hi) as [Hin|Hz].
      * left. by apply elem_of_cons in Hin as [?|Hin].
      * right. by rewrite list_lookup_total_alter_ne.
  - by rewrite identity_alter_setBurstDuration.
Qed.

Lemma RR_loop_shape (ps0 : list Process) :
  rr_work ps0 <= MaxInt64 ->
  forall (fuel : nat) (s : RR.state),
    0 <= RR.currentTime s -> rr_run_inv ps0 s ->
    (rr_potential s <= Z.of_nat fuel ->
     exists s', RR.loop fuel (length ps0) s = Done s' /\ rr_run_inv ps0 s' /\
       RR.queue s' = []) /\
    (Z.of_nat fuel < rr_potential s ->
     RR.loop fuel (length ps0) s = OutOfFuel).
Proof.
  intros Hfit fuel. induction fuel as [|fuel IH]; intros s Ht Hinv; simpl.
  - case_decide as Hlt.
    + destruct (rr_run_progress ps0 s Hfit Ht Hinv Hlt) as (s' & _ & _ & Hdec & _).
      pose proof (rr_potential_nonneg s'). split; [lia|done].
    + assert (Hempty : RR.queue s = []).
      { pose proof (rr_count _ _ (rr_run_base _ _ Hinv)) as Hc.
        apply length_zero_iff_nil. lia. }
      split; [eauto|]. unfold rr_potential. rewrite Hempty. simpl. lia.
  - case_decide as Hlt.
    + destruct (rr_run_progress ps0 s Hfit Ht Hinv Hlt)
        as (s' & -> & Hinv' & Hdec & Htime).
      destruct (IH s') as [Hdone Hout]; [lia|done|].
      split; intros Hfuel; [apply Hdone|apply Hout]; lia.
    + assert (Hempty : RR.queue s = []).
      { pose proof (rr_count _ _ (rr_run_base _ _ Hinv)) as Hc.
        apply length_zero_iff_nil. lia. }
      split; [eauto|]. unfold rr_potential. rewrite Hempty. simpl. lia.
Qed.

(** ** Round-robin: the caller's slice and the table *)

Lemma RR_loop_invariant (P : RR.state -> Prop) (n : nat) :
  (forall s s', P s -> RR.step s = Some s' -> P s') ->
  forall (fuel : nat) (s s' : RR.state),
    P s -> RR.loop fuel n s = Done s' ->
    P s' /\ ~ RR.numCompleted s' < Z.of_nat n.
Proof.
  intros Hstep fuel. induction fuel as [|fuel IH]; intros s s' Hs; simpl;
    case_decide as Hlt; try done; try (by intros [= <-]).
  destruct (RR.step s) as [s1|] eqn:Hs1; [|done].
  apply IH. by apply (Hstep s).
Qed.

Lemma rr_slice_step (ps0 : list Process) (s s' : RR.state) :
  rr_slice_inv ps0 s -> RR.step s = Some s' -> rr_slice_inv ps0 s'.
Proof.
  intros [Hqlt Hc Hdone Hid Hst] Hs'.
  destruct (RR.queue s) as [|index q] eqn:Hq.
  { unfold RR.step in Hs'. by rewrite Hq in Hs'. }
  destruct (RR_step_cases s index q Hq) as (s'' & Hs'' & _ & Hst' & Hcases).
  rewrite Hs' in Hs''. injection Hs'' as <-.
  apply Forall_cons in Hqlt as [Hindex Hqlt]. simpl in Hc.
  assert (Hlen : length (RR.processes s) = length ps0).
  { apply (f_equal length) in Hid. by rewrite !length_fmap in Hid. }
  destruct Hcases as [(Hb & Hps & Hq' & Hnc)|(Hb & Hps & Hq' & Hnc)];
    split; rewrite ?Hps, ?Hq', ?Hnc; try done; try lia.
  - apply Forall_app. split; [done|]. by apply Forall_singleton.
  - rewrite length_app. simpl. lia.
  - intros i Hi. destruct (decide (i = index)) as [->|Hne].
    + left. apply elem_of_app. right. by apply list_elem_of_singleton.
    + destruct (Hdone i Hi) as [Hin|Hz].
      * left. apply elem_of_cons in Hin as [?|Hin]; [done|].
        apply elem_of_app. by left.
      * right. by rewrite list_lookup_total_alter_ne.
  - by rewrite identity_alter_decrement.
  - intros i Hi. destruct (decide (i = index)) as [->|Hne].
    + right. rewrite list_lookup_total_alter_eq by lia. done.
    + destruct (Hdone i Hi) as [Hin|Hz].
      * left. by apply elem_of_cons in Hin as [?|Hin].
      * right. by rewrite list_lookup_total_alter_ne.
  - by rewrite identity_alter_setBurstDuration.
Qed.

Lemma rr_slice_init (ps : list Process) : rr_slice_inv ps (RR.init ps).
Proof.
  split; simpl.
  - apply Forall_seq. intros; lia.
  - rewrite length_seq. lia.
  - intros i Hi. left. apply elem_of_seq. lia.
  - done.
  - apply length_replicate.
Qed.

Lemma RR_final_state (fuel : nat) (ps : list Process) (s' : RR.state) :
  RR.loop fuel (length ps) (RR.init ps) = Done s' ->
  RR.processes s' = setBurstDuration 0 <$> ps /\
  length (RR.status s') = length ps.
Proof.
  intros Hrun.
  destruct (RR_loop_invariant (rr_slice_inv ps) (length ps)
              (rr_slice_step ps) fuel (RR.init ps) s' (rr_slice_init ps) Hrun)
    as [[Hqlt Hc Hdone Hid Hst] Hstop].
  split; [|done].
  assert (Hq : RR.queue s' = []) by (apply length_zero_iff_nil; lia).
  apply list_eq. intros i. rewrite list_lookup_fmap.
  pose proof (f_equal (fun l => l !! i) Hid) as Hi. simpl in Hi.
  rewrite !list_lookup_fmap in Hi.
  destruct (ps !! i) as [p|] eqn:Hp; destruct (RR.processes s' !! i) as [p'|] eqn:Hp';
    simpl in *; try done.
  f_equal. injection Hi as Hi.
  destruct (Hdone i) as [Hin|Hz];
    [by eapply lookup_lt_Some|rewrite Hq in Hin; by apply elem_of_nil in Hin|].
  rewrite (list_lookup_total_correct _ _ _ Hp') in Hz.
  destruct p, p'. unfold identity in Hi. simpl in *. subst.
  reflexivity.
Qed.

(** X12.  Whenever [RRSchedule] returns, it has set the burst duration of
    every record of the caller's slice to 0 and changed nothing else in
    it. *)
Theorem RR_zeroes_every_burst (fuel : nat) (ps : list Process) (out : Output) :
  RRSchedule fuel ps = Done out ->
  outProcesses out = setBurstDuration 0 <$> ps.
Proof.
  unfold RRSchedule. intros Hout.
  destruct (RR.loop fuel (length ps) (RR.init ps)) as [s'| |] eqn:Hrun;
    try done.
  simpl in Hout. injection Hout as <-. simpl.
  by destruct (RR_final_state fuel ps s' Hrun).
Qed.

Lemma RR_zeroes_every_burst_witness :
  exists out : Output,
    RRSchedule 3 [mkProcess 1 3 2 7; mkProcess 2 0 1 0] = Done out /\
    outProcesses out = setBurstDuration 0 <$> [mkProcess 1 3 2 7; mkProcess 2 0 1 0].
Proof.
  eexists. split; [vm_compute; reflexivity|].
  apply (RR_zeroes_every_burst 3 [mkProcess 1 3 2 7; mkProcess 2 0 1 0]).
  vm_compute. reflexivity.
Defined.

Lemma RR_row_columns (ps : list Process) (st : list ProcessStatus) :
  length st = length ps ->
  rowColumns <$> zip_with (fun pp st => RR.row pp.1 pp.2 st) (zip ps ps) st
  = processColumns <$> ps.
Proof.
  revert st. induction ps as [|p ps IH]; intros [|x st] Hlen; csimpl in *;
    try done.
  f_equal. apply IH. lia.
Qed.

(** X13.  The table of [RRSchedule] lists the processes in the order of the
    input, with their identifier, priority and arrival time and with their
    original burst duration, although the working bursts end at 0. *)
Theorem RR_table_in_input_order (fuel : nat) (ps : list Process)
    (out : Output) :
  RRSchedule fuel ps = Done out ->
  rowColumns <$> outSchedule out = processColumns <$> ps.
Proof.
  unfold RRSchedule. intros Hout.
  destruct (RR.loop fuel (length ps) (RR.init ps)) as [s'| |] eqn:Hrun;
    try done.
  simpl in Hout. injection Hout as <-. cbn [outSchedule RR.output].
  apply RR_row_columns. by destruct (RR_final_state fuel ps s' Hrun).
Qed.

Lemma RR_table_in_input_order_witness :
  exists out : Output,
    RRSchedule 3 [mkProcess 1 3 2 7; mkProcess 2 0 1 0] = Done out /\
    rowColumns <$> outSchedule out
    = processColumns <$> [mkProcess 1 3 2 7; mkProcess 2 0 1 0].
Proof.
  eexists. split; [vm_compute; reflexivity|].
  apply (RR_table_in_input_order 3 [mkProcess 1 3 2 7; mkProcess 2 0 1 0]).
  vm_compute. reflexivity.
Defined.

(** ** Round-robin: arrival times play no part *)

Lemma lookup_total_BurstDuration (ps1 ps2 : list Process) (i : nat) :
  BurstDuration <$> ps1 = BurstDuration <$> ps2 ->
  BurstDuration (ps1 !!! i) = BurstDuration (ps2 !!! i).
Proof.
  intros H. apply (f_equal (fun l => l !! i)) in H. simpl in H.
  rewrite !list_lookup_fmap in H. rewrite !list_lookup_total_alt.
  destruct (ps1 !! i), (ps2 !! i); simpl in *; congruence.
Qed.

Lemma RR_step_view (s1 s2 : RR.state) :
  rrView s1 = rrView s2 ->
  rrView <$> RR.step s1 = rrView <$> RR.step s2.
Proof.
  unfold rrView. intros [= Hb Hst Hq Ht Hnc]. unfold RR.step.
  rewrite Hq, Hst, Ht, Hnc.
  destruct (RR.queue s2) as [|index q]; [done|].
  rewrite (lookup_total_BurstDuration _ _ index Hb).
  case_decide; simpl; do 2 f_equal.
  - f_equal. f_equal. f_equal.
    rewrite !(list_fmap_alter BurstDuration decrement (fun b => sub64 b 1))
      by (by apply Forall_forall).
    by rewrite Hb.
  - f_equal. f_equal. f_equal.
    rewrite !(list_fmap_alter BurstDuration (setBurstDuration 0) (fun _ => 0))
      by (by apply Forall_forall).
    by rewrite Hb.
Qed.

Lemma RR_loop_view (fuel n : nat) :
  forall s1 s2 : RR.state,
    rrView s1 = rrView s2 ->
    outcome_map rrView (RR.loop fuel n s1) = outcome_map rrView (RR.loop fuel n s2).
Proof.
  induction fuel as [|fuel IH]; intros s1 s2 Hview; simpl;
    pose proof Hview as [= _ _ _ _ Hnc]; rewrite Hnc;
    case_decide; simpl; try done; try (by f_equal).
  pose proof (RR_step_view s1 s2 Hview) as Hstep.
  destruct (RR.step s1) as [s1'|], (RR.step s2) as [s2'|]; simpl in *;
    try done.
  apply IH. congruence.
Qed.

Lemma RR_output_view (ps ps' : list Process) (s1 s2 : RR.state) :
  (fun p => (ProcessID p, BurstDuration p)) <$> ps
  = (fun p => (ProcessID p, BurstDuration p)) <$> ps' ->
  rrView s1 = rrView s2 ->
  rrExitView (RR.output ps ps s1) = rrExitView (RR.output ps' ps' s2).
Proof.
  unfold rrView, rrExitView, RR.output. intros Hps [= _ Hst _ Ht _]. simpl.
  rewrite Hst, Ht.
  assert (Hlen : length ps = length ps').
  { apply (f_equal length) in Hps. by rewrite !length_fmap in Hps. }
  rewrite Hlen. f_equal. f_equal. f_equal.
  - clear Hlen. revert ps' Hps. generalize (RR.status s2).
    induction ps as [|p ps IH]; intros [|x st] [|p' ps'] Hps; csimpl in *;
      try done.
    injection Hps as Hid Hb Hps. rewrite Hid, Hb. f_equal. by apply IH.
  - clear Hlen. revert ps' Hps. generalize (RR.status s2).
    induction ps as [|p ps IH]; intros [|x st] [|p' ps'] Hps; csimpl in *;
      try done.
    injection Hps as Hid Hb Hps. rewrite Hid. f_equal. by apply IH.
Qed.

(** X14.  [RRSchedule] never reads an arrival time or a priority to decide
    what runs: two inputs with the same identifiers and burst durations are
    given the same exit times, the same start of every slice and the same
    final time, whatever their arrival times and priorities; with the same
    fuel both runs end or neither. *)
Theorem RR_ignores_arrival (fuel : nat) (ps ps' : list Process) :
  (fun p => (ProcessID p, BurstDuration p)) <$> ps
  = (fun p => (ProcessID p, BurstDuration p)) <$> ps' ->
  outcome_map rrExitView (RRSchedule fuel ps)
  = outcome_map rrExitView (RRSchedule fuel ps').
Proof.
  intros Hps. unfold RRSchedule.
  assert (Hlen : length ps = length ps').
  { apply (f_equal length) in Hps. by rewrite !length_fmap in Hps. }
  assert (Hb : BurstDuration <$> ps = BurstDuration <$> ps').
  { apply (f_equal (fmap snd)) in Hps.
    by rewrite <- !list_fmap_compose in Hps. }
  assert (Hview : rrView (RR.init ps) = rrView (RR.init ps')).
  { unfold rrView, RR.init. simpl. by rewrite Hb, Hlen. }
  pose proof (RR_loop_view fuel (length ps) _ _ Hview) as Hloop.
  rewrite <- Hlen.
  destruct (RR.loop fuel (length ps) (RR.init ps)) as [s1| |],
    (RR.loop fuel (length ps) (RR.init ps')) as [s2| |]; simpl in *; try done.
  assert (Hfinal : rrView s1 = rrView s2) by congruence.
  f_equal. by apply RR_output_view.
Qed.

Lemma RR_ignores_arrival_witness :
  outcome_map rrExitView
    (RRSchedule 6 [mkProcess 1 0 4 0; mkProcess 2 0 2 0])
  = outcome_map rrExitView
      (RRSchedule 6 [mkProcess 1 9 4 3; mkProcess 2 50 2 1]).
Proof.
  apply (RR_ignores_arrival 6 [mkProcess 1 0 4 0; mkProcess 2 0 2 0]
           [mkProcess 1 9 4 3; mkProcess 2 50 2 1]).
  reflexivity.
Defined.

(** ** The Gantt chart: what is printed *)

Lemma ganttCells_PIDs (g g' : list TimeSlice) :
  PID <$> g = PID <$> g' -> ganttCells g = ganttCells g'.
Proof.
  revert g'. induction g as [|sl g IH]; intros [|sl' g'] Hpid; csimpl in *;
    try done.
  injection Hpid as Hpid Hrest. unfold ganttCell. rewrite Hpid.
  by rewrite (IH g' Hrest).
Qed.

Lemma ganttTimes_last_stop (n : nat) (g : list TimeSlice) :
  forall (i : nat) (g' : list TimeSlice),
    (i + length g = n)%nat ->
    Start <$> g = Start <$> g' ->
    Stop <$> last g = Stop <$> last g' ->
    ganttTimes n i g = ganttTimes n i g'.
Proof.
  induction g as [|sl g IH]; intros i [|sl' g'] Hn Hstart Hstop; csimpl in *;
    try done.
  injection Hstart as Hstart Hrest. rewrite Hstart.
  assert (Hlen : length g = length g').
  { apply (f_equal length) in Hrest. by rewrite !length_fmap in Hrest. }
  destruct g as [|sl1 g], g' as [|sl1' g']; simpl in Hlen; try done.
  - simpl in *. injection Hstop as Hstop. by rewrite Hstop.
  - rewrite !decide_False by (simpl in Hn; lia).
    rewrite (IH (S i) (sl1' :: g'));
      [done|simpl in *; lia|exact Hrest|exact Hstop].
Qed.

(** X15.  Of the stop times of a timeline [outputGantt] prints the last
    only: two timelines with the same identifiers and start times and the
    same last stop time are printed alike, whatever the other stop times. *)
Theorem outputGantt_last_stop_only (g g' : list TimeSlice) :
  (fun sl => (PID sl, Start sl)) <$> g = (fun sl => (PID sl, Start sl)) <$> g' ->
  Stop <$> last g = Stop <$> last g' ->
  outputGantt g = outputGantt g'.
Proof.
  intros Hcols Hstop.
  assert (Hpid : PID <$> g = PID <$> g').
  { apply (f_equal (fmap fst)) in Hcols.
    by rewrite <- !list_fmap_compose in Hcols. }
  assert (Hstart : Start <$> g = Start <$> g').
  { apply (f_equal (fmap snd)) in Hcols.
    by rewrite <- !list_fmap_compose in Hcols. }
  assert (Hlen : length g = length g').
  { apply (f_equal length) in Hpid. by rewrite !length_fmap in Hpid. }
  unfold outputGantt.
  rewrite (ganttCells_PIDs g g' Hpid), <- Hlen.
  by rewrite (ganttTimes_last_stop (length g) g 0 g').
Qed.

Lemma outputGantt_last_stop_only_witness :
  outputGantt [mkTimeSlice 1 0 5; mkTimeSlice 2 5 8]
  = outputGantt [mkTimeSlice 1 0 (-7); mkTimeSlice 2 5 8].
Proof.
  apply (outputGantt_last_stop_only [mkTimeSlice 1 0 5; mkTimeSlice 2 5 8]
           [mkTimeSlice 1 0 (-7); mkTimeSlice 2 5 8]); reflexivity.
Defined.

(** ** The Gantt chart: identifiers too long for a cell *)

Lemma formatDigits_grows (fuel : nat) :
  forall (n : Z) (acc : string),
    (String.length acc <= String.length (formatDigits fuel n acc))%nat.
Proof.
  induction fuel as [|fuel IH]; intros n acc; simpl; [done|].
  case_decide; simpl; [lia|].
  etransitivity; [|apply IH]. simpl. lia.
Qed.

Lemma formatDigits_at_most (k : nat) :
  forall (fuel : nat) (n : Z) (acc : string),
    (1 <= k <= fuel)%nat -> n < 10 ^ Z.of_nat k ->
    (String.length (formatDigits fuel n acc) <= k + String.length acc)%nat.
Proof.
  induction k as [|k IH]; intros [|fuel] n acc Hk Hn; try lia.
  simpl. case_decide as Hsmall; simpl; [lia|].
  destruct (decide (k = 0)%nat) as [->|Hk0]; [simpl in Hn; lia|].
  etransitivity; [apply IH; [lia|]|simpl; lia].
  rewrite Nat2Z.inj_succ, Z.pow_succ_r in Hn by lia.
  apply Z.div_lt_upper_bound; lia.
Qed.

Lemma formatDigits_at_least (k : nat) :
  forall (fuel : nat) (n : Z) (acc : string),
    (1 <= k <= fuel)%nat -> 10 ^ (Z.of_nat k - 1) <= n ->
    (k + String.length acc <= String.length (formatDigits fuel n acc))%nat.
Proof.
  induction k as [|k IH]; intros [|fuel] n acc Hk Hn; try lia.
  simpl. destruct (decide (k = 0)%nat) as [->|Hk0].
  - case_decide; simpl; [lia|].
    etransitivity; [|apply formatDigits_grows]. simpl. lia.
  - replace (Z.of_nat (S k) - 1) with (Z.succ (Z.of_nat k - 1)) in Hn by lia.
    rewrite Z.pow_succ_r in Hn by lia.
    assert (0 < 10 ^ (Z.of_nat k - 1)) by (apply Z.pow_pos_nonneg; lia).
    rewrite decide_False by lia.
    etransitivity; [|apply IH; [lia|]]; [simpl; lia|].
    apply Z.div_le_lower_bound; lia.
Qed.

(** The printed form of an [int64] takes ten characters or more exactly
    from a thousand million up and from minus a hundred million down. *)
Lemma Sprint_ten_characters (z : Z) :
  10 <= len (Sprint z) <-> 1000000000 <= z \/ z <= -100000000.
Proof.
  unfold len, Sprint. case_decide as Hneg; simpl.
  - split.
    + intros Hlen. right.
      destruct (decide (z <= -100000000)) as [|Hbig]; [done|].
      pose proof (formatDigits_at_most 8 20 (- z) "" ltac:(lia)
                    ltac:(change (10 ^ Z.of_nat 8) with 100000000; lia)).
      simpl in *. lia.
    + intros [?|Hz]; [lia|].
      pose proof (formatDigits_at_least 9 20 (- z) "" ltac:(lia)
                    ltac:(change (10 ^ (Z.of_nat 9 - 1)) with 100000000; lia)).
      simpl in *. lia.
  - split.
    + intros Hlen. left.
      destruct (decide (1000000000 <= z)) as [|Hsmall]; [done|].
      pose proof (formatDigits_at_most 9 20 z "" ltac:(lia)
                    ltac:(change (10 ^ Z.of_nat 9) with 1000000000; lia)).
      simpl in *. lia.
    + intros [Hz|?]; [|lia].
      pose proof (formatDigits_at_least 10 20 z "" ltac:(lia)
                    ltac:(change (10 ^ (Z.of_nat 10 - 1)) with 1000000000; lia)).
      simpl in *. lia.
Qed.

Lemma ganttCell_None (sl : TimeSlice) :
  ganttCell sl = None <-> 1000000000 <= PID sl \/ PID sl <= -100000000.
Proof.
  rewrite <- Sprint_ten_characters. unfold ganttCell, Repeat.
  assert (Hquot : Z.quot (8 - len (Sprint (PID sl))) 2 < 0
                  <-> 10 <= len (Sprint (PID sl))).
  { generalize (len (Sprint (PID sl))). intros l.
    Z.to_euclidean_division_equations; lia. }
  case_decide; simpl; split; try done; tauto.
Qed.

Lemma ganttCells_None (g : list TimeSlice) :
  ganttCells g = None <-> Exists (fun sl => ganttCell sl = None) g.
Proof.
  induction g as [|sl g IH]; simpl.
  - split; [done|]. intros Hex. by apply Exists_nil in Hex.
  - rewrite Exists_cons, <- IH.
    destruct (ganttCell sl) as [cell|]; simpl; [|by split; [left|]].
    destruct (ganttCells g) as [rest|]; simpl.
    + split; [done|]. by intros [|].
    + split; [by right|done].
Qed.

(** X16.  [outputGantt] panics, in [strings.Repeat] with a negative count,
    exactly when the timeline holds an identifier whose printed form takes
    ten characters or more: one from a thousand million up, or from minus a
    hundred million down. *)
Theorem outputGantt_panics_on_long_PID (g : list TimeSlice) :
  outputGantt g = None
  <-> Exists (fun sl => 1000000000 <= PID sl \/ PID sl <= -100000000) g.
Proof.
  transitivity (ganttCells g = None).
  - unfold outputGantt. by destruct (ganttCells g).
  - rewrite ganttCells_None, !Exists_exists.
    split; intros (sl & Hin & Hsl); exists sl; split; try done;
      by apply ganttCell_None.
Qed.

(** X18.  [RRSchedule] has to be the last call of [main]: on the slice it
    leaves behind, not empty, neither shortest-job simulator ever returns,
    whatever the number of iterations allowed. *)
Theorem shortest_job_after_RR_runs_forever (S : Sorter) (fuel : nat)
    (ps : list Process) (out : Output) :
  ps <> [] ->
  RRSchedule fuel ps = Done out ->
  forall fuel' : nat,
    SJFSchedule S fuel' (outProcesses out) = OutOfFuel /\
    SJFPrioritySchedule S fuel' (outProcesses out) = OutOfFuel.
Proof.
  intros Hne Hout fuel'.
  assert (Hleft : outProcesses out = setBurstDuration 0 <$> ps).
  { unfold RRSchedule in Hout.
    destruct (RR.loop fuel (length ps) (RR.init ps)) as [s'| |] eqn:Hrun;
      try done.
    simpl in Hout. injection Hout as <-. simpl.
    by destruct (RR_final_state fuel ps s' Hrun). }
  rewrite Hleft.
  assert (Hrange : Forall (fun p => in_int64 (BurstDuration p))
                     (setBurstDuration 0 <$> ps)).
  { apply Forall_fmap, Forall_forall. intros p _. simpl.
    unfold in_int64, MinInt64, MaxInt64. lia. }
  assert (Hbad : forall sentinel,
             Exists (fun p => ~ (1 <= BurstDuration p < sentinel))
               (setBurstDuration 0 <$> ps)).
  { intros sentinel. destruct ps as [|p ps']; [done|].
    rewrite fmap_cons. apply Exists_cons_hd. simpl. lia. }
  split.
  - unfold SJFSchedule, SJF.loop.
    rewrite (sim_never_ends S SJF.sentinel SJF.step _ fuel'); try done.
    apply SJF_step_tick.
  - unfold SJFPrioritySchedule, SJFPriority.loop.
    rewrite (sim_never_ends S SJFPriority.sentinel SJFPriority.step _ fuel');
      try done.
    apply SJFPriority_step_tick.
Qed.

Lemma shortest_job_after_RR_runs_forever_witness :
  exists out : Output,
    RRSchedule 3 [mkProcess 1 3 2 7; mkProcess 2 0 1 0] = Done out /\
    forall fuel' : nat,
      SJFSchedule insertionSorter fuel' (outProcesses out) = OutOfFuel /\
      SJFPrioritySchedule insertionSorter fuel' (outProcesses out) = OutOfFuel.
Proof.
  eexists. split; [vm_compute; reflexivity|].
  apply (shortest_job_after_RR_runs_forever insertionSorter 3
           [mkProcess 1 3 2 7; mkProcess 2 0 1 0]);
    [done|vm_compute; reflexivity].
Defined.

(** ** The calls: the loop, then the title and the chart *)

Lemma outputTitle_Some (title : string) : is_Some (outputTitle title).
Proof.
  unfold outputTitle, Repeat, len.
  generalize (Z.of_nat (String.length title))
    (Nat2Z.is_nonneg (String.length title)).
  intros l Hl.
  assert (Hhalf : ~ Z.quot l 2 < 0) by (Z.to_euclidean_division_equations; lia).
  rewrite (decide_False (P := l * 2 < 0)) by lia. csimpl.
  rewrite (decide_False (P := Z.quot l 2 < 0)) by done. by eexists.
Qed.

Lemma outputGantt_None_PIDs (g : list TimeSlice) :
  outputGantt g = None <-> Exists longPID (PID <$> g).
Proof.
  transitivity (ganttCells g = None).
  - unfold outputGantt. by destruct (ganttCells g).
  - rewrite ganttCells_None, Exists_fmap, !Exists_exists.
    split; intros (sl & Hin & Hsl); exists sl; split; try done;
      by apply ganttCell_None.
Qed.

Lemma written_OutOfFuel {A : Type} (title : string)
    (gantt : A -> list TimeSlice) :
  written title gantt OutOfFuel = OutOfFuel.
Proof. done. Qed.

Lemma written_Panic {A : Type} (title : string) (gantt : A -> list TimeSlice)
    (a : A) :
  Exists longPID (PID <$> gantt a) -> written title gantt (Done a) = Panic.
Proof.
  intros Hlong. apply outputGantt_None_PIDs in Hlong.
  unfold written. cbn [outcome_bind]. rewrite Hlong.
  by destruct (outputTitle title).
Qed.

Lemma written_Done {A : Type} (title : string) (gantt : A -> list TimeSlice)
    (a : A) :
  ~ Exists longPID (PID <$> gantt a) ->
  exists text, written title gantt (Done a) = Done (a, text).
Proof.
  intros Hshort. unfold written. cbn [outcome_bind].
  destruct (outputTitle_Some title) as [t ->].
  destruct (outputGantt (gantt a)) as [g|] eqn:Hg.
  - by eexists.
  - by apply outputGantt_None_PIDs in Hg.
Qed.

Lemma longPID_ProcessIDs (ps : list Process) :
  Exists longPID (ProcessID <$> ps) <-> Exists (fun p => longPID (ProcessID p)) ps.
Proof. by rewrite Exists_fmap. Qed.

Lemma longPID_Permutation (l l' : list Z) :
  l ≡ₚ l' -> Exists longPID l -> Exists longPID l'.
Proof.
  intros Hperm. rewrite !Exists_exists. intros (x & Hin & Hx).
  exists x. split; [by rewrite <- Hperm|done].
Qed.

Lemma sim_output_PIDs (S : Sorter) (sentinel : Z) (step : SimState -> SimState)
    (fuel : nat) (ps : list Process) (out : Output) :
  (forall s, tick sentinel s (step s)) ->
  outcome_map (simOutput ps (sortSlice S ps))
    (simLoop step fuel (length ps) (initSim S ps)) = Done out ->
  PID <$> outGantt out ≡ₚ ProcessID <$> ps.
Proof.
  intros Hstep Hout.
  destruct (simLoop step fuel (length ps) (initSim S ps)) as [s'| |] eqn:Hrun;
    try done.
  simpl in Hout. injection Hout as <-. cbn [outGantt simOutput].
  rewrite (sim_gantt_PIDs S sentinel step fuel ps s' Hstep Hrun).
  by rewrite (sortSlice_Permutation S ps).
Qed.

Lemma RR_slice_PIDs (pb : list Process) (st : list ProcessStatus) :
  length pb = length st ->
  PID <$> zip_with RR.slice pb st = ProcessID <$> pb.
Proof.
  revert st. induction pb as [|p pb IH]; intros [|x st] Hlen; csimpl in *;
    try done.
  f_equal. apply IH. lia.
Qed.

Lemma RR_output_PIDs (fuel : nat) (ps : list Process) (out : Output) :
  RRSchedule fuel ps = Done out -> PID <$> outGantt out = ProcessID <$> ps.
Proof.
  unfold RRSchedule. intros Hout.
  destruct (RR.loop fuel (length ps) (RR.init ps)) as [s'| |] eqn:Hrun;
    try done.
  simpl in Hout. injection Hout as <-. cbn [outGantt RR.output].
  destruct (RR_final_state fuel ps s' Hrun) as [_ Hlen].
  by apply RR_slice_PIDs.
Qed.

(** What a call makes of a finished computation whose chart carries the
    identifiers of the input, in some order. *)
Lemma written_by_PIDs {A : Type} (title : string) (gantt : A -> list TimeSlice)
    (ps : list Process) (a : A) :
  PID <$> gantt a ≡ₚ ProcessID <$> ps ->
  (Exists (fun p => longPID (ProcessID p)) ps ->
   written title gantt (Done a) = Panic) /\
  (Forall (fun p => ~ longPID (ProcessID p)) ps ->
   exists text, written title gantt (Done a) = Done (a, text)).
Proof.
  intros Hperm. split.
  - intros Hlong. apply written_Panic.
    apply (longPID_Permutation (ProcessID <$> ps)); [done|].
    by apply longPID_ProcessIDs.
  - intros Hshort. apply written_Done. intros Hlong.
    apply (longPID_Permutation _ (ProcessID <$> ps)) in Hlong; [|done].
    apply longPID_ProcessIDs in Hlong.
    apply Exists_exists in Hlong as (p & Hin & Hp).
    by apply (proj1 (Forall_forall _ _) Hshort p Hin).
Qed.

(** X11.  The loop of [RRSchedule] ends on every input, after exactly as many
    iterations as the sum of the burst durations, a burst below 1 counting
    for 1 (the bursts being 64-bit values and the sum fitting an [int64]):
    with fewer iterations the call is still in its loop.  With that many the
    loop has ended at a final time equal to that sum; the call then panics in
    [outputGantt] when a process identifier takes ten characters or more,
    and otherwise writes its title and its chart. *)
Theorem RRSchedule_call_outcome (title : string) (ps : list Process)
    (fuel : nat) :
  Forall (fun p => in_int64 (BurstDuration p)) ps ->
  rr_work ps <= MaxInt64 ->
  (Z.of_nat fuel < rr_work ps -> RRSchedule_call fuel title ps = OutOfFuel) /\
  (rr_work ps <= Z.of_nat fuel ->
   exists out : Output,
     RRSchedule fuel ps = Done out /\
     outTime out = rr_work ps /\
     (Exists (fun p => longPID (ProcessID p)) ps ->
      outputGantt (outGantt out) = None /\
      RRSchedule_call fuel title ps = Panic) /\
     (Forall (fun p => ~ longPID (ProcessID p)) ps ->
      exists text : string, RRSchedule_call fuel title ps = Done (out, text))).
Proof.
  intros Hps Hfit.
  destruct (RR_loop_shape ps Hfit fuel (RR.init ps)) as [Hdone Hout];
    [done|by apply rr_init_inv|].
  rewrite rr_potential_init in Hdone, Hout.
  unfold RRSchedule_call. split.
  - intros Hfuel. unfold RRSchedule. by rewrite (Hout Hfuel).
  - intros Hfuel. destruct (Hdone Hfuel) as (s' & Hloop & Hinv & Hq).
    assert (Hrun : RRSchedule fuel ps = Done (RR.output ps ps s')).
    { unfold RRSchedule. by rewrite Hloop. }
    pose proof (RR_output_PIDs fuel ps _ Hrun) as Hpids.
    exists (RR.output ps ps s'). split; [done|]. split.
    { simpl. pose proof (rr_run_time _ _ Hinv) as Htime.
      unfold rr_potential in Htime. rewrite Hq in Htime. simpl in Htime. lia. }
    rewrite Hrun.
    destruct (written_by_PIDs title outGantt ps (RR.output ps ps s'))
      as [Hpanic Hwritten]; [by rewrite Hpids|].
    split; [|done].
    intros Hlong. split; [|by apply Hpanic].
    apply outputGantt_None_PIDs. rewrite Hpids. by apply longPID_ProcessIDs.
Qed.

Lemma RRSchedule_call_outcome_witness :
  RRSchedule_call 3 "Round-robin" [mkProcess 1 0 3 0; mkProcess 2 5 0 0]
  = OutOfFuel /\
  (exists out : Output,
     RRSchedule 5 [mkProcess 1000000000 0 5 0] = Done out /\
     outputGantt (outGantt out) = None /\
     RRSchedule_call 5 "Round-robin" [mkProcess 1000000000 0 5 0] = Panic) /\
  (exists (out : Output) (text : string),
     RRSchedule_call 4 "Round-robin" [mkProcess 1 0 3 0; mkProcess 2 5 0 0]
     = Done (out, text) /\
     outTime out = rr_work [mkProcess 1 0 3 0; mkProcess 2 5 0 0]).
Proof.
  split; [|split].
  - apply (RRSchedule_call_outcome "Round-robin"
             [mkProcess 1 0 3 0; mkProcess 2 5 0 0] 3).
    + repeat constructor; vm_compute; congruence.
    + vm_compute. congruence.
    + vm_compute. reflexivity.
  - destruct (RRSchedule_call_outcome "Round-robin"
                [mkProcess 1000000000 0 5 0] 5) as [_ Hends].
    + repeat constructor; vm_compute; congruence.
    + vm_compute. congruence.
    + destruct Hends as (out & Hrun & _ & Hpanic & _);
        [vm_compute; congruence|].
      exists out. split; [exact Hrun|]. apply Hpanic.
      apply Exists_cons_hd. unfold longPID. simpl. lia.
  - destruct (RRSchedule_call_outcome "Round-robin"
                [mkProcess 1 0 3 0; mkProcess 2 5 0 0] 4) as [_ Hends].
    + repeat constructor; vm_compute; congruence.
    + vm_compute. congruence.
    + destruct Hends as (out & _ & Htime & _ & Hwritten);
        [vm_compute; congruence|].
      destruct Hwritten as [text Htext].
      { repeat constructor; unfold longPID; simpl; lia. }
      exists out, text. split; [exact Htext|exact Htime].
Defined.

(** ** The driver *)

(** X17.  When no process identifier takes ten characters or more, every
    burst duration is between 1 and 998 and the last arrival plus the total
    burst fits an [int64], every call of [main] ends its computation and
    writes its title and its chart, and [main] gets from each call what the
    call gives alone on the processes as loaded; the last call,
    [RRSchedule], leaves the slice with every burst duration at 0. *)
Theorem main_calls_on_loaded_processes (S : Sorter) (ps : list Process) :
  Forall (fun p => ~ longPID (ProcessID p)) ps ->
  Forall (fun p => 1 <= BurstDuration p < SJFPriority.sentinel) ps ->
  maxArrival ps + totalBurst ps <= MaxInt64 ->
  let units := Z.to_nat (maxArrival ps + totalBurst ps) in
  exists (fcfs : FCFSOutput * string) (sjf prio rr : Output * string),
    runSchedulers S units ps = Done (fcfs, sjf, prio, rr) /\
    FCFSSchedule_call "First-come, first-serve" ps = Done fcfs /\
    SJFSchedule_call S units "Shortest-job-first" ps = Done sjf /\
    SJFPrioritySchedule_call S units "Priority" ps = Done prio /\
    RRSchedule_call units "Round-robin" ps = Done rr /\
    outProcesses rr.1 = setBurstDuration 0 <$> ps.
Proof.
  intros Hshort Hps Hbound units.
  pose proof (maxArrival_nonneg ps) as HM.
  destruct (sim_terminates S SJF.sentinel SJF.step ps) as [s1 Hs1]; try done.
  { apply SJF_step_tick. }
  { eapply Forall_impl; [exact Hps|]. simpl.
    unfold SJF.sentinel, SJFPriority.sentinel, MaxInt64. lia. }
  destruct (sim_terminates S SJFPriority.sentinel SJFPriority.step ps)
    as [s2 Hs2]; try done.
  { apply SJFPriority_step_tick. }
  destruct (RR_terminates ps units) as [rr Hrr].
  { eapply Forall_impl; [exact Hps|]. simpl.
    unfold SJFPriority.sentinel, MaxInt64. lia. }
  { unfold units. lia. }
  fold units in Hs1, Hs2.
  assert (Hsjf : SJFSchedule S units ps
                 = Done (simOutput ps (sortSlice S ps) s1)).
  { unfold SJFSchedule, SJF.loop. by rewrite Hs1. }
  assert (Hprio : SJFPrioritySchedule S units ps
                  = Done (simOutput ps (sortSlice S ps) s2)).
  { unfold SJFPrioritySchedule, SJFPriority.loop. by rewrite Hs2. }
  destruct (written_by_PIDs "First-come, first-serve" fcfsGantt ps
              (FCFSSchedule ps)) as [_ H1].
  { by rewrite FCFS_gantt_PIDs. }
  destruct (H1 Hshort) as [t1 Ht1].
  destruct (written_by_PIDs "Shortest-job-first" outGantt ps
              (simOutput ps (sortSlice S ps) s1)) as [_ H2].
  { apply (sim_output_PIDs S SJF.sentinel SJF.step units ps);
      [apply SJF_step_tick|]. by rewrite Hs1. }
  destruct (H2 Hshort) as [t2 Ht2].
  destruct (written_by_PIDs "Priority" outGantt ps
              (simOutput ps (sortSlice S ps) s2)) as [_ H3].
  { apply (sim_output_PIDs S SJFPriority.sentinel SJFPriority.step units ps);
      [apply SJFPriority_step_tick|]. by rewrite Hs2. }
  destruct (H3 Hshort) as [t3 Ht3].
  destruct (written_by_PIDs "Round-robin" outGantt ps rr) as [_ H4].
  { by rewrite (RR_output_PIDs units ps rr Hrr). }
  destruct (H4 Hshort) as [t4 Ht4].
  assert (Hc1 : FCFSSchedule_call "First-come, first-serve" ps
                = Done (FCFSSchedule ps, t1)) by done.
  assert (Hc2 : SJFSchedule_call S units "Shortest-job-first" ps
                = Done (simOutput ps (sortSlice S ps) s1, t2)).
  { unfold SJFSchedule_call. by rewrite Hsjf. }
  assert (Hc3 : SJFPrioritySchedule_call S units "Priority" ps
                = Done (simOutput ps (sortSlice S ps) s2, t3)).
  { unfold SJFPrioritySchedule_call. by rewrite Hprio. }
  assert (Hc4 : RRSchedule_call units "Round-robin" ps = Done (rr, t4)).
  { unfold RRSchedule_call. by rewrite Hrr. }
  eexists _, _, _, _.
  split; [|split; [exact Hc1|split; [exact Hc2|split; [exact Hc3|
    split; [exact Hc4|]]]]].
  - unfold runSchedulers. rewrite Hc1. cbn [outcome_bind fst].
    rewrite FCFS_keeps_processes, Hc2. cbn [outcome_bind fst].
    rewrite (SJF_keeps_processes S units ps _ Hsjf), Hc3.
    cbn [outcome_bind fst].
    rewrite (SJFPriority_keeps_processes S units ps _ Hprio), Hc4.
    done.
  - cbn [fst]. unfold RRSchedule in Hrr.
    destruct (RR.loop units (length ps) (RR.init ps)) as [s'| |] eqn:Hrun;
      try done.
    simpl in Hrr. injection Hrr as <-. simpl.
    by destruct (RR_final_state units ps s' Hrun).
Qed.

Lemma main_calls_on_loaded_processes_witness :
  let ps := [mkProcess 1 0 5 2; mkProcess 2 1 3 1] in
  exists (fcfs : FCFSOutput * string) (sjf prio rr : Output * string),
    runSchedulers insertionSorter 9 ps = Done (fcfs, sjf, prio, rr) /\
    FCFSSchedule_call "First-come, first-serve" ps = Done fcfs /\
    SJFSchedule_call insertionSorter 9 "Shortest-job-first" ps = Done sjf /\
    SJFPrioritySchedule_call insertionSorter 9 "Priority" ps = Done prio /\
    RRSchedule_call 9 "Round-robin" ps = Done rr /\
    outProcesses rr.1 = setBurstDuration 0 <$> ps.
Proof.
  apply (main_calls_on_loaded_processes insertionSorter
           [mkProcess 1 0 5 2; mkProcess 2 1 3 1]).
  - repeat constructor; unfold longPID; simpl; lia.
  - repeat constructor; simpl; unfold SJFPriority.sentinel; lia.
  - vm_compute. congruence.
Defined.

(** X19.  A process identifier of ten characters or more stops [main] in its
    first call: [outputGantt] panics on the chart of [FCFSSchedule], whatever
    the other fields of the processes, and no other scheduler runs. *)
Theorem main_panics_on_long_PID (S : Sorter) (fuel : nat) (ps : list Process) :
  Exists (fun p => longPID (ProcessID p)) ps ->
  outputGantt (fcfsGantt (FCFSSchedule ps)) = None /\
  FCFSSchedule_call "First-come, first-serve" ps = Panic /\
  runSchedulers S fuel ps = Panic.
Proof.
  intros Hlong.
  assert (Hfcfs : FCFSSchedule_call "First-come, first-serve" ps = Panic).
  { apply (written_by_PIDs "First-come, first-serve" fcfsGantt ps
             (FCFSSchedule ps)); [|done].
    by rewrite FCFS_gantt_PIDs. }
  split; [|split; [done|]].
  - apply outputGantt_None_PIDs. rewrite FCFS_gantt_PIDs.
    by apply longPID_ProcessIDs.
  - unfold runSchedulers. by rewrite Hfcfs.
Qed.

Lemma main_panics_on_long_PID_witness :
  outputGantt (fcfsGantt (FCFSSchedule
    [mkProcess 1000000000 0 5 0; mkProcess 2 1 3 0])) = None /\
  FCFSSchedule_call "First-come, first-serve"
    [mkProcess 1000000000 0 5 0; mkProcess 2 1 3 0] = Panic /\
  runSchedulers insertionSorter 8
    [mkProcess 1000000000 0 5 0; mkProcess 2 1 3 0] = Panic.
Proof.
  apply (main_panics_on_long_PID insertionSorter 8
           [mkProcess 1000000000 0 5 0; mkProcess 2 1 3 0]).
  apply Exists_cons_hd. unfold longPID. simpl. lia.
Defined.
